(** * codex-client: the stdio JSON-RPC transport and the turn aggregator

    A shallow embedding of [src/transport.ts] (class [StdioTransport]) and of
    the turn helpers of [src/client.ts] (class [CodexClient]), followed by the
    properties of the request correlator, the line framer, the subscriber
    fan-out, the shutdown sequence and the turn aggregation.

    Conventions.
    - A JavaScript string is the list of its UTF-16 code units.
    - A JavaScript [Map] is an association list in insertion order with
      unique keys; a [Set] that is iterated while user callbacks run is the
      ECMAScript entry list in which a deleted entry leaves a hole.
    - The platform (TextDecoder, JSON.parse, JSON.stringify, string
      conversion in template literals) is the class [Host]; the subscribed
      callbacks, which are user code, are the class [Callbacks].
    - A callback loop that may run for ever is bounded by [fuel]. *)

From Stdlib Require Import String Ascii List ZArith NArith QArith Qround Bool Lia Sorted.
From Stdlib Require Strings.Byte DecimalString.
Import ListNotations.

Set Implicit Arguments.
Set Warnings "-register-all".
Local Open Scope Z_scope.

(** ** JavaScript strings *)

Definition char16 := N.
Definition jsstring := list char16.

Definition js (s : string) : jsstring :=
  map N_of_ascii (list_ascii_of_string s).

Fixpoint str_eqb (a b : jsstring) : bool :=
  match a, b with
  | [], [] => true
  | x :: a', y :: b' => N.eqb x y && str_eqb a' b'
  | _, _ => false
  end.

Definition LF : char16 := 10%N.

(** [String.prototype.trim] strips WhiteSpace and LineTerminator code units. *)
Definition is_js_space (c : char16) : bool :=
  (N.leb 9 c && N.leb c 13) || N.eqb c 32 || N.eqb c 160 || N.eqb c 5760
  || (N.leb 8192 c && N.leb c 8202) || N.eqb c 8232 || N.eqb c 8233
  || N.eqb c 8239 || N.eqb c 8287 || N.eqb c 12288 || N.eqb c 65279.

Fixpoint trim_start (s : jsstring) : jsstring :=
  match s with
  | c :: s' => if is_js_space c then trim_start s' else s
  | [] => []
  end.

Definition trim (s : jsstring) : jsstring :=
  rev (trim_start (rev (trim_start s))).

(** [s.indexOf("\n")]: [None] stands for the result -1. *)
Fixpoint indexOf (c : char16) (s : jsstring) : option nat :=
  match s with
  | [] => None
  | x :: s' => if N.eqb x c then Some O
               else match indexOf c s' with
                    | Some i => Some (S i)
                    | None => None
                    end
  end.

(** [s.slice(0, n)] and [s.slice(n)] for [0 <= n]. *)
Definition slice_to (n : nat) (s : jsstring) : jsstring := firstn n s.
Definition slice_from (n : nat) (s : jsstring) : jsstring := skipn n s.

(** ** JSON values, as [JSON.parse] returns them *)

Inductive json :=
| JNull
| JBool (b : bool)
| JNum (q : Q)
| JStr (s : jsstring)
| JArr (items : list json)
| JObj (fields : list (jsstring * json)).

Fixpoint lookup_field (key : jsstring) (fields : list (jsstring * json)) : option json :=
  match fields with
  | [] => None
  | (k, v) :: rest => if str_eqb k key then Some v else lookup_field key rest
  end.

(** Property read [v.key]; [None] is [undefined].  Of the values JSON.parse
    returns only objects own the keys that the transport and client read. *)
Definition prop (key : string) (v : json) : option json :=
  match v with
  | JObj fields => lookup_field (js key) fields
  | _ => None
  end.

(** Optional member read on a possibly undefined value. *)
Definition oprop (key : string) (v : option json) : option json :=
  match v with
  | Some w => prop key w
  | None => None
  end.

Inductive thrown :=
| ErrorObject (message : jsstring)      (* an instance of Error *)
| OtherValue (v : option json).         (* anything else that was thrown *)

Definition jserror := jsstring.         (* an Error, by its message *)

(** [key in v]: throws a TypeError when [v] is not an object. *)
Definition has_key (key : string) (v : json) : thrown + bool :=
  match v with
  | JObj fields =>
      inr (match lookup_field (js key) fields with Some _ => true | None => false end)
  | JArr _ => inr false
  | _ => inl (ErrorObject (js "TypeError: right-hand side of 'in' is not an object"))
  end.

(** ToBoolean on a value or [undefined]. *)
Definition truthy (v : option json) : bool :=
  match v with
  | None | Some JNull => false
  | Some (JBool b) => b
  | Some (JNum q) => negb (Qeq_bool q 0)
  | Some (JStr s) => match s with [] => false | _ => true end
  | Some (JArr _) | Some (JObj _) => true
  end.

(** The integer a number value denotes, if it denotes one: the keys of the
    pending registry are integers, so only such a value can match a key. *)
Definition as_integer (v : option json) : option Z :=
  match v with
  | Some (JNum q) =>
      if Qeq_bool q (inject_Z (Qfloor q)) then Some (Qfloor q) else None
  | _ => None
  end.

(** ** The platform *)

Class Host := {
  decoder_state : Type;
  decoder_init : decoder_state;
  (** One byte through the streaming TextDecoder: the new decoder state and
      the code units emitted. *)
  decode_byte : decoder_state -> Byte.byte -> decoder_state * jsstring;
  (** [JSON.parse]; [None] is a SyntaxError. *)
  JSON_parse : jsstring -> option json;
  JSON_stringify : json -> jsstring;
  (** Conversion to string, as in a template literal, in [String(v)] and
      in [new Error(v)].  The conversion of an object calls its [toString]
      and [valueOf]: [inl] is the TypeError it throws when neither gives a
      primitive, as for an object that [JSON.parse] made with a member
      [toString] of its own. *)
  ToString : option json -> jserror + jsstring;
  (** Number::toString. *)
  NumberToString : Q -> jsstring;
  (** A string converts to itself, a number by Number::toString. *)
  ToString_string : forall s, ToString (Some (JStr s)) = inr s;
  ToString_number : forall q, ToString (Some (JNum q)) = inr (NumberToString q)
}.

(** ** Insertion-ordered maps with integer keys ([Map<number, V>]) *)

Section NumberMap.
Variable V : Type.

Fixpoint map_get (k : Z) (m : list (Z * V)) : option V :=
  match m with
  | [] => None
  | (k', v) :: rest => if k' =? k then Some v else map_get k rest
  end.

(** [Map.prototype.set]: an existing key keeps its place. *)
Fixpoint map_set (k : Z) (v : V) (m : list (Z * V)) : list (Z * V) :=
  match m with
  | [] => [(k, v)]
  | (k', v') :: rest =>
      if k' =? k then (k, v) :: rest else (k', v') :: map_set k v rest
  end.

Definition map_delete (k : Z) (m : list (Z * V)) : list (Z * V) :=
  filter (fun e => negb (fst e =? k)) m.
End NumberMap.

(** ** Sets of callbacks ([Set<handler>]) as ECMAScript entry lists *)

Definition handler := nat.

Definition entry_is (h : handler) (e : option handler) : bool :=
  match e with
  | Some h' => Nat.eqb h' h
  | None => false
  end.

(** [Set.prototype.add]: appends unless the value is present. *)
Definition set_add (h : handler) (entries : list (option handler)) :=
  if existsb (entry_is h) entries then entries else entries ++ [Some h].

(** [Set.prototype.delete]: the entry becomes a hole, so that the indices of
    live iterators stay valid. *)
Definition set_delete (h : handler) (entries : list (option handler)) :=
  map (fun e => if entry_is h e then None else e) entries.

(** ** Transport state *)

Inductive settlement :=
| Fulfilled (value : option json)
| Rejected (e : jserror).

(** The promise made by one call of [request], with the [id] and [method]
    its executor closes over, and every call made so far to its [resolve]
    and [reject] functions, oldest first.  The promise is settled by the
    first of them. *)
Record promise_cell := {
  made_id : Z;
  made_method : jsstring;
  settle_calls : list settlement
}.

(** [interface PendingRequest]: [resolve] and [reject] are the two functions
    of promise number [settles]; [timeout] is the timer handle. *)
Record PendingRequest := {
  settles : nat;
  timeout : nat
}.

(** What the callback given to [setTimeout] in [request] closes over. *)
Record timer := {
  tm_id : Z;
  tm_method : jsstring;
  tm_promise : nat;
  tm_ms : Z
}.

Inductive close_stage :=
| NotClosing
| AwaitReadLoop      (* close() is suspended at [await this.readLoopPromise] *)
| AwaitExited        (* close() is suspended at [await this.process.exited] *)
| CloseReturned.

Inductive observation :=
| GotMessage (h : handler) (m : json)
| GotError (h : handler) (e : jserror).

(** What a callback may do while it runs: call the public methods of the
    transport (also the unsubscribe closures that [onMessage] and [onError]
    returned), and throw. *)
Inductive command :=
| CallOnMessage (h : handler)
| CallOffMessage (h : handler)
| CallOnError (h : handler)
| CallOffError (h : handler)
| CallRequest (method : jsstring) (params : option json) (timeoutMs : Z)
| CallSend (message : json)
| CallClose
| Throw (e : thrown).

(** The subscribed callbacks: what callback [h] does when it is invoked,
    given everything the callbacks have been handed before. *)
Class Callbacks := {
  on_message_body : handler -> list observation -> json -> list command;
  on_error_body : handler -> list observation -> jserror -> list command
}.

Module Transport.
Section WithHost.
Context {host : Host} {callbacks : Callbacks}.

(** The local state of [readLoop]; [readLoopPromise] is pending while the
    loop is [Reading]. *)
Inductive read_loop :=
| Reading (dec : decoder_state) (buffer : jsstring)
| ReadReturned
| ReadRejected (e : thrown).

Record transport := mkTransport {
  messageHandlers : list (option handler);
  errorHandlers : list (option handler);
  pending : list (Z * PendingRequest);
  nextRequestId : Z;
  closed : bool;
  closeInitiated : bool;
  readLoop : read_loop;
  closing : close_stage;
  (** the subprocess: lines written to its stdin, whether stdin was ended,
      whether [process.exited] has settled *)
  stdin : list jsstring;
  stdin_ended : bool;
  exited : bool;
  (** the runtime: promises made by [request], armed timers, next handle *)
  promises : list promise_cell;
  timers : list (nat * timer);
  timer_count : nat;
  (** what the callbacks have been handed, oldest first *)
  seen : list observation
}.

Definition with_messageHandlers v st :=
  mkTransport v (errorHandlers st) (pending st) (nextRequestId st) (closed st)
    (closeInitiated st) (readLoop st) (closing st) (stdin st) (stdin_ended st)
    (exited st) (promises st) (timers st) (timer_count st) (seen st).
Definition with_errorHandlers v st :=
  mkTransport (messageHandlers st) v (pending st) (nextRequestId st) (closed st)
    (closeInitiated st) (readLoop st) (closing st) (stdin st) (stdin_ended st)
    (exited st) (promises st) (timers st) (timer_count st) (seen st).
Definition with_pending v st :=
  mkTransport (messageHandlers st) (errorHandlers st) v (nextRequestId st) (closed st)
    (closeInitiated st) (readLoop st) (closing st) (stdin st) (stdin_ended st)
    (exited st) (promises st) (timers st) (timer_count st) (seen st).
Definition with_nextRequestId v st :=
  mkTransport (messageHandlers st) (errorHandlers st) (pending st) v (closed st)
    (closeInitiated st) (readLoop st) (closing st) (stdin st) (stdin_ended st)
    (exited st) (promises st) (timers st) (timer_count st) (seen st).
Definition with_close_flags st :=
  mkTransport (messageHandlers st) (errorHandlers st) (pending st) (nextRequestId st) true
    true (readLoop st) (closing st) (stdin st) (stdin_ended st)
    (exited st) (promises st) (timers st) (timer_count st) (seen st).
Definition with_readLoop v st :=
  mkTransport (messageHandlers st) (errorHandlers st) (pending st) (nextRequestId st) (closed st)
    (closeInitiated st) v (closing st) (stdin st) (stdin_ended st)
    (exited st) (promises st) (timers st) (timer_count st) (seen st).
Definition with_closing v st :=
  mkTransport (messageHandlers st) (errorHandlers st) (pending st) (nextRequestId st) (closed st)
    (closeInitiated st) (readLoop st) v (stdin st) (stdin_ended st)
    (exited st) (promises st) (timers st) (timer_count st) (seen st).
Definition with_stdin v st :=
  mkTransport (messageHandlers st) (errorHandlers st) (pending st) (nextRequestId st) (closed st)
    (closeInitiated st) (readLoop st) (closing st) v (stdin_ended st)
    (exited st) (promises st) (timers st) (timer_count st) (seen st).
Definition with_stdin_ended st :=
  mkTransport (messageHandlers st) (errorHandlers st) (pending st) (nextRequestId st) (closed st)
    (closeInitiated st) (readLoop st) (closing st) (stdin st) true
    (exited st) (promises st) (timers st) (timer_count st) (seen st).
Definition with_exited st :=
  mkTransport (messageHandlers st) (errorHandlers st) (pending st) (nextRequestId st) (closed st)
    (closeInitiated st) (readLoop st) (closing st) (stdin st) (stdin_ended st)
    true (promises st) (timers st) (timer_count st) (seen st).
Definition with_promises v st :=
  mkTransport (messageHandlers st) (errorHandlers st) (pending st) (nextRequestId st) (closed st)
    (closeInitiated st) (readLoop st) (closing st) (stdin st) (stdin_ended st)
    (exited st) v (timers st) (timer_count st) (seen st).
Definition with_timers v n st :=
  mkTransport (messageHandlers st) (errorHandlers st) (pending st) (nextRequestId st) (closed st)
    (closeInitiated st) (readLoop st) (closing st) (stdin st) (stdin_ended st)
    (exited st) (promises st) v n (seen st).
Definition with_seen v st :=
  mkTransport (messageHandlers st) (errorHandlers st) (pending st) (nextRequestId st) (closed st)
    (closeInitiated st) (readLoop st) (closing st) (stdin st) (stdin_ended st)
    (exited st) (promises st) (timers st) (timer_count st) v.

(** [new StdioTransport(process)], before any byte is read.  With
    [process.stdout] null the read loop returns at once. *)
Definition create (stdout_present : bool) : transport :=
  mkTransport [] [] [] 0 false false
    (if stdout_present then Reading decoder_init [] else ReadReturned)
    NotClosing [] false false [] [] O [].

(** *** Promises and timers *)

Definition settle_cell (s : settlement) (c : promise_cell) : promise_cell :=
  {| made_id := made_id c; made_method := made_method c;
     settle_calls := settle_calls c ++ [s] |}.

Fixpoint update_nth {A} (n : nat) (f : A -> A) (l : list A) : list A :=
  match l, n with
  | [], _ => []
  | x :: r, O => f x :: r
  | x :: r, S n' => x :: update_nth n' f r
  end.

(** A call of the [resolve] or [reject] function of promise [p]. *)
Definition settle (p : nat) (s : settlement) (st : transport) : transport :=
  with_promises (update_nth p (settle_cell s) (promises st)) st.

(** The state of promise [p]: the first call that reached it. *)
Definition promise_state (p : nat) (st : transport) : option settlement :=
  match nth_error (promises st) p with
  | Some c => hd_error (settle_calls c)
  | None => None
  end.

Definition clearTimeout (t : nat) (st : transport) : transport :=
  with_timers (filter (fun e => negb (Nat.eqb (fst e) t)) (timers st))
    (timer_count st) st.

Fixpoint find_timer (t : nat) (l : list (nat * timer)) : option timer :=
  match l with
  | [] => None
  | (t', c) :: rest => if Nat.eqb t' t then Some c else find_timer t rest
  end.

(** *** [send], [request], [resolvePending], [rejectAllPending] *)

(** [nextRequestId++] on a number: exact below 2^53, where adding one stops
    changing the value. *)
Definition js_increment (n : Z) : Z := if n <? 2 ^ 53 then n + 1 else n.

(** [toError(error)]: [inr] is the Error returned, [inl] the TypeError
    that [String(error)] throws. *)
Definition toError (e : thrown) : jserror + jserror :=
  match e with
  | ErrorObject m => inr m
  | OtherValue v => ToString v
  end.

Definition send (message : json) (st : transport) : thrown + transport :=
  if closed st then inl (ErrorObject (js "transport is closed"))
  else inr (with_stdin (stdin st ++ [JSON_stringify message ++ [LF]]) st).

Definition request_object (method : jsstring) (id : Z) (params : option json) : json :=
  JObj ([(js "jsonrpc", JStr (js "2.0")); (js "method", JStr method);
         (js "id", JNum (inject_Z id))]
        ++ match params with Some p => [(js "params", p)] | None => [] end).

Definition timeout_error (method : jsstring) : jserror :=
  js "Request timed out for method " ++ method.

(** [request(method, params, timeoutMs)]: the promise returned and the new
    state.  An exception that leaves the executor of [new Promise] rejects
    the promise with what was thrown. *)
Definition request (method : jsstring) (params : option json) (timeoutMs : Z)
    (st : transport) : nat * transport :=
  let id := nextRequestId st in
  let st := with_nextRequestId (js_increment id) st in
  let message := request_object method id params in
  let promise := length (promises st) in
  let st := with_promises
              (promises st ++ [{| made_id := id; made_method := method;
                                  settle_calls := [] |}]) st in
  let t := timer_count st in
  let st := with_timers
              (timers st ++ [(t, {| tm_id := id; tm_method := method;
                                    tm_promise := promise; tm_ms := timeoutMs |})])
              (S t) st in
  let st := with_pending
              (map_set id {| settles := promise; timeout := t |} (pending st)) st in
  match send message st with
  | inr st' => (promise, st')
  | inl error =>
      let st := clearTimeout t st in
      let st := with_pending (map_delete id (pending st)) st in
      match toError error with
      | inr normalized => (promise, settle promise (Rejected normalized) st)
      | inl type_error => (promise, settle promise (Rejected type_error) st)
      end
  end.

(** The timer callback of [request], run when timer [t] fires. *)
Definition timer_fires (t : nat) (st : transport) : transport :=
  match find_timer t (timers st) with
  | None => st
  | Some c =>
      let st := clearTimeout t st in
      let st := with_pending (map_delete (tm_id c) (pending st)) st in
      settle (tm_promise c) (Rejected (timeout_error (tm_method c))) st
  end.

(** The template literal of [formatJsonRpcError] converts [error.code],
    then [error.message]; [inl] is the TypeError of the first conversion
    that throws. *)
Definition formatJsonRpcError (error : json) : jserror + jsstring :=
  match ToString (prop "code" error) with
  | inl type_error => inl type_error
  | inr code =>
      match ToString (prop "message" error) with
      | inl type_error => inl type_error
      | inr message => inr (code ++ js ": " ++ message)
      end
  end.

Inductive outcome :=
| Returns (st : transport)
| Throws (e : thrown) (st : transport)
| Diverges.

(** [resolvePending(response)].  The timer is cleared and the entry deleted
    before the error is formatted: when [formatJsonRpcError] throws, the
    exception leaves [resolvePending] with the promise not settled. *)
Definition resolvePending (response : json) (st : transport) : outcome :=
  match as_integer (prop "id" response) with
  | None => Returns st
  | Some id =>
      match map_get id (pending st) with
      | None => Returns st
      | Some p =>
          let st := clearTimeout (timeout p) st in
          let st := with_pending (map_delete id (pending st)) st in
          match prop "error" response with
          | Some error =>
              if truthy (Some error)
              then match formatJsonRpcError error with
                   | inr message =>
                       Returns (settle (settles p) (Rejected message) st)
                   | inl type_error => Throws (ErrorObject type_error) st
                   end
              else Returns (settle (settles p) (Fulfilled (prop "result" response)) st)
          | None =>
              Returns (settle (settles p) (Fulfilled (prop "result" response)) st)
          end
      end
  end.

(** The loop of [rejectAllPending] over the entries of the map.  Its body
    removes only the entry it is visiting and runs no callback (a promise
    reaction is a later job), so the live iteration visits the entries that
    were present on entry, in insertion order. *)
Fixpoint reject_each (error : jserror) (entries : list (Z * PendingRequest))
    (st : transport) : transport :=
  match entries with
  | [] => st
  | (id, p) :: rest =>
      let st := clearTimeout (timeout p) st in
      let st := settle (settles p) (Rejected error) st in
      let st := with_pending (map_delete id (pending st)) st in
      reject_each error rest st
  end.

Definition rejectAllPending (error : jserror) (st : transport) : transport :=
  reject_each error (pending st) st.

(** *** Subscriptions and shutdown: the rest of the public interface *)

Definition onMessage (h : handler) (st : transport) : transport :=
  with_messageHandlers (set_add h (messageHandlers st)) st.

(** The closure that [onMessage] returned for [h]. *)
Definition offMessage (h : handler) (st : transport) : transport :=
  with_messageHandlers (set_delete h (messageHandlers st)) st.

Definition onError (h : handler) (st : transport) : transport :=
  with_errorHandlers (set_add h (errorHandlers st)) st.

Definition offError (h : handler) (st : transport) : transport :=
  with_errorHandlers (set_delete h (errorHandlers st)) st.

(** [close()] up to its first [await]. *)
Definition close (st : transport) : transport :=
  if closed st then st
  else with_closing AwaitReadLoop (with_stdin_ended (with_close_flags st)).

(** [close()] resumed after [await this.readLoopPromise]. *)
Definition close_after_readLoop (st : transport) : transport :=
  match closing st, readLoop st with
  | AwaitReadLoop, Reading _ _ => st
  | AwaitReadLoop, _ => with_closing AwaitExited st
  | _, _ => st
  end.

(** [close()] resumed after [await this.process.exited]. *)
Definition close_after_exited (st : transport) : transport :=
  match closing st with
  | AwaitExited =>
      if exited st
      then with_closing CloseReturned (rejectAllPending (js "transport closed") st)
      else st
  | _ => st
  end.

Definition close_resume (st : transport) : transport :=
  close_after_exited (close_after_readLoop st).

(** *** Running callbacks *)

Definition call (c : command) (st : transport) : outcome :=
  match c with
  | CallOnMessage h => Returns (onMessage h st)
  | CallOffMessage h => Returns (offMessage h st)
  | CallOnError h => Returns (onError h st)
  | CallOffError h => Returns (offError h st)
  | CallRequest method params timeoutMs =>
      Returns (snd (request method params timeoutMs st))
  | CallSend message =>
      match send message st with
      | inr st' => Returns st'
      | inl e => Throws e st
      end
  | CallClose => Returns (close st)
  | Throw e => Throws e st
  end.

Fixpoint run_body (body : list command) (st : transport) : outcome :=
  match body with
  | [] => Returns st
  | c :: rest =>
      match call c st with
      | Returns st' => run_body rest st'
      | o => o
      end
  end.

(** The two subscriber sets are served by the same loop.  A channel is a
    set together with what its callbacks are handed. *)
Record channel := {
  entries : transport -> list (option handler);
  observe : handler -> observation;
  body_of : handler -> list observation -> list command
}.

Definition message_channel (message : json) : channel :=
  {| entries := messageHandlers;
     observe := fun h => GotMessage h message;
     body_of := fun h before => on_message_body h before message |}.

Definition error_channel (error : jserror) : channel :=
  {| entries := errorHandlers;
     observe := fun h => GotError h error;
     body_of := fun h before => on_error_body h before error |}.

(** The call [handler(message)] or [handler(error)]. *)
Definition invoke (ch : channel) (h : handler) (st : transport) : outcome :=
  run_body (body_of ch h (seen st))
    (with_seen (seen st ++ [observe ch h]) st).

(** [for (const handler of handlers) handler(x)], from iterator position
    [i].  The iterator reads the live entry list: it skips holes and reaches
    entries appended while it runs. *)
Fixpoint emit_from (ch : channel) (fuel i : nat) (st : transport) : outcome :=
  match nth_error (entries ch st) i with
  | None => Returns st
  | Some entry =>
      match fuel with
      | O => Diverges
      | S fuel' =>
          match entry with
          | None => emit_from ch fuel' (S i) st
          | Some h =>
              match invoke ch h st with
              | Returns st' => emit_from ch fuel' (S i) st'
              | o => o
              end
          end
      end
  end.

Definition emitMessage (fuel : nat) (message : json) (st : transport) : outcome :=
  emit_from (message_channel message) fuel 0 st.

Definition emitError (fuel : nat) (error : jserror) (st : transport) : outcome :=
  emit_from (error_channel error) fuel 0 st.

(** *** The read path *)

Definition isJsonRpcResponse (message : json) : thrown + bool :=
  match has_key "id" message with
  | inl e => inl e
  | inr false => inr false
  | inr true =>
      match has_key "method" message with
      | inl e => inl e
      | inr b => inr (negb b)
      end
  end.

Definition isJsonRpcNotification (message : json) : thrown + bool :=
  match has_key "method" message with
  | inl e => inl e
  | inr false => inr false
  | inr true =>
      match has_key "id" message with
      | inl e => inl e
      | inr b => inr (negb b)
      end
  end.

Definition parse_failure (line : jsstring) : jserror :=
  js "Failed to parse JSON-RPC line: " ++ line.

Definition handleLine (fuel : nat) (line : jsstring) (st : transport) : outcome :=
  match JSON_parse line with
  | None => emitError fuel (parse_failure line) st
  | Some message =>
      match isJsonRpcResponse message with
      | inl e => Throws e st
      | inr true =>
          match resolvePending message st with
          | Returns st' => emitMessage fuel message st'
          | o => o
          end
      | inr false => emitMessage fuel message st
      end
  end.

(** [this.decoder.decode(value, { stream: true })]. *)
Fixpoint decode (dec : decoder_state) (bytes : list Byte.byte)
    : decoder_state * jsstring :=
  match bytes with
  | [] => (dec, [])
  | b :: rest =>
      let (dec1, out1) := decode_byte dec b in
      let (dec2, out2) := decode dec1 rest in
      (dec2, out1 ++ out2)
  end.

(** The inner [while (newline >= 0)] loop of [readLoop].  Each round removes
    at least one code unit from [buffer], so [n] rounds suffice when [n] is
    the length of the buffer; [fuel] bounds the callback loops only. *)
Fixpoint read_lines (n fuel : nat) (dec : decoder_state) (buffer : jsstring)
    (st : transport) : outcome :=
  match indexOf LF buffer with
  | None => Returns (with_readLoop (Reading dec buffer) st)
  | Some newline =>
      match n with
      | O => Diverges
      | S n' =>
          let line := trim (slice_to newline buffer) in
          let buffer := slice_from (S newline) buffer in
          match (if (0 <? length line)%nat then handleLine fuel line st
                 else Returns st) with
          | Returns st' => read_lines n' fuel dec buffer st'
          | o => o
          end
      end
  end.

(** An exception that leaves [readLoop] rejects [readLoopPromise]; nobody
    but [close] observes that promise. *)
Definition settle_readLoop (final : read_loop) (o : outcome) : option transport :=
  match o with
  | Returns st => Some (with_readLoop final st)
  | Throws e st => Some (with_readLoop (ReadRejected e) st)
  | Diverges => None
  end.

(** One round of the outer loop: [reader.read()] gave a chunk. *)
Definition on_chunk (fuel : nat) (value : list Byte.byte) (st : transport)
    : option transport :=
  match readLoop st with
  | Reading dec buffer =>
      let (dec', text) := decode dec value in
      let buffer := buffer ++ text in
      match read_lines (length buffer) fuel dec' buffer st with
      | Returns st' => Some st'
      | Throws e st' => Some (with_readLoop (ReadRejected e) st')
      | Diverges => None
      end
  | _ => Some st
  end.

(** [reader.read()] gave [done]: the tail is handled, the loop returns. *)
Definition on_end (fuel : nat) (st : transport) : option transport :=
  match readLoop st with
  | Reading dec buffer =>
      let tail := trim buffer in
      settle_readLoop ReadReturned
        (if (0 <? length tail)%nat then handleLine fuel tail st else Returns st)
  | _ => Some st
  end.

(** [reader.read()] rejected. *)
Definition on_read_error (e : thrown) (st : transport) : transport :=
  match readLoop st with
  | Reading _ _ => with_readLoop (ReadRejected e) st
  | _ => st
  end.

(** *** The reactions on [process.exited] set up by the constructor *)

Definition exit_error (code : Z) : jserror :=
  js "codex app-server exited unexpectedly with code "
  ++ NumberToString (inject_Z code).

Definition exited_then (fuel : nat) (code : Z) (st : transport) : outcome :=
  if closeInitiated st then Returns st
  else emitError fuel (exit_error code) (rejectAllPending (exit_error code) st).

(** The [catch] reaction.  When [toError] throws, the reaction ends there:
    nothing is rejected and nobody is told. *)
Definition exited_catch (fuel : nat) (error : thrown) (st : transport) : outcome :=
  match toError error with
  | inr normalized => emitError fuel normalized (rejectAllPending normalized st)
  | inl type_error => Throws (ErrorObject type_error) st
  end.

(** *** The event loop

    One event is one job of the JavaScript event loop together with the
    promise jobs it triggers.  An event that cannot happen in the current
    state (a chunk after the stream ended, a second exit, a cleared timer)
    changes nothing.  [None]: a callback loop did not finish within [fuel]. *)

Inductive event :=
| Call (c : command)                       (* a caller uses the interface *)
| StdoutChunk (value : list Byte.byte)
| StdoutEnd
| StdoutError (e : thrown)
| ProcessExited (code : Z)                 (* [process.exited] fulfilled *)
| ProcessExitFailed (e : thrown)           (* [process.exited] rejected *)
| TimerFired (t : nat).

Definition state_of (o : outcome) : option transport :=
  match o with
  | Returns st | Throws _ st => Some st
  | Diverges => None
  end.

Definition option_map_state (f : transport -> transport) (o : option transport) :=
  match o with
  | Some st => Some (f st)
  | None => None
  end.

Definition step (fuel : nat) (ev : event) (st : transport) : option transport :=
  option_map_state close_resume
    match ev with
    | Call c => state_of (call c st)
    | StdoutChunk value => on_chunk fuel value st
    | StdoutEnd => on_end fuel st
    | StdoutError e => Some (on_read_error e st)
    | ProcessExited code =>
        if exited st then Some st
        else
          match exited_then fuel code (with_exited st) with
          | Returns st1 => Some st1
          | Throws e st1 => state_of (exited_catch fuel e st1)
          | Diverges => None
          end
    | ProcessExitFailed e =>
        if exited st then Some st
        else
          (* a close() suspended on [process.exited] resumes before the
             catch reaction of the constructor's chain *)
          state_of (exited_catch fuel e (close_after_exited (with_exited st)))
    | TimerFired t => Some (timer_fires t st)
    end.

Fixpoint run (fuel : nat) (evs : list event) (st : transport) : option transport :=
  match evs with
  | [] => Some st
  | ev :: rest =>
      match step fuel ev st with
      | Some st' => run fuel rest st'
      | None => None
      end
  end.

(** The states the transport can be in. *)
Inductive reachable : transport -> Prop :=
| reachable_create stdout_present : reachable (create stdout_present)
| reachable_step fuel ev st st' :
    reachable st -> step fuel ev st = Some st' -> reachable st'.

End WithHost.
End Transport.

(** ** Insertion-ordered maps with string keys ([Map<string, V>]) *)

Section StringMap.
Variable V : Type.

Fixpoint smap_get (k : jsstring) (m : list (jsstring * V)) : option V :=
  match m with
  | [] => None
  | (k', v) :: rest => if str_eqb k' k then Some v else smap_get k rest
  end.

Fixpoint smap_set (k : jsstring) (v : V) (m : list (jsstring * V))
    : list (jsstring * V) :=
  match m with
  | [] => [(k, v)]
  | (k', v') :: rest =>
      if str_eqb k' k then (k, v) :: rest else (k', v') :: smap_set k v rest
  end.

Definition smap_delete (k : jsstring) (m : list (jsstring * V)) :=
  filter (fun e => negb (str_eqb (fst e) k)) m.
End StringMap.

(** ** The client: [runTurn] and what it listens to *)

Module Client.
Section WithHost.
Context {host : Host}.

(** *** Shape checks of [client.ts] *)

(** [typeof v === "string"], with the string. *)
Definition as_string (v : option json) : option jsstring :=
  match v with
  | Some (JStr s) => Some s
  | _ => None
  end.

Definition is_array (v : option json) : bool :=
  match v with
  | Some (JArr _) => true
  | _ => false
  end.

Definition is_some {A} (o : option A) : bool :=
  match o with Some _ => true | None => false end.

(** [isObject]: [typeof value === "object" && value !== null]. *)
Definition isObject (value : option json) : bool :=
  match value with
  | Some (JObj _) | Some (JArr _) => true
  | _ => false
  end.

Definition isTurn (value : option json) : bool :=
  isObject value
  && is_some (as_string (oprop "id" value))
  && is_some (as_string (oprop "status" value))
  && is_array (oprop "items" value).

Definition isThreadItem (value : option json) : bool :=
  isObject value
  && is_some (as_string (oprop "id" value))
  && is_some (as_string (oprop "type" value)).

(** The string at [key] of a value that passed its shape check. *)
Definition string_at (key : string) (v : json) : jsstring :=
  match as_string (prop key v) with
  | Some s => s
  | None => []
  end.

Record TurnCompletedNotification := {
  tc_threadId : jsstring;
  tc_turn : json
}.

Record ItemNotification := {
  it_threadId : jsstring;
  it_turnId : jsstring;
  it_item : json
}.

Record AgentMessageDeltaNotification := {
  ad_threadId : jsstring;
  ad_turnId : jsstring;
  ad_itemId : jsstring;
  ad_text : jsstring
}.

Record DiffUpdatedNotification := {
  du_threadId : jsstring;
  du_turnId : jsstring;
  du_diff : jsstring
}.

Definition asTurnCompletedNotification (params : option json)
    : option TurnCompletedNotification :=
  match isObject params, as_string (oprop "threadId" params), oprop "turn" params with
  | true, Some threadId, Some turn =>
      if isTurn (Some turn)
      then Some {| tc_threadId := threadId; tc_turn := turn |}
      else None
  | _, _, _ => None
  end.

Definition asItemNotification (params : option json) : option ItemNotification :=
  match isObject params, as_string (oprop "threadId" params),
        as_string (oprop "turnId" params), oprop "item" params with
  | true, Some threadId, Some turnId, Some item =>
      if isThreadItem (Some item)
      then Some {| it_threadId := threadId; it_turnId := turnId; it_item := item |}
      else None
  | _, _, _, _ => None
  end.

Definition asAgentDeltaNotification (params : option json)
    : option AgentMessageDeltaNotification :=
  match isObject params, as_string (oprop "threadId" params),
        as_string (oprop "turnId" params), as_string (oprop "itemId" params),
        as_string (oprop "text" params) with
  | true, Some threadId, Some turnId, Some itemId, Some text =>
      Some {| ad_threadId := threadId; ad_turnId := turnId;
              ad_itemId := itemId; ad_text := text |}
  | _, _, _, _, _ => None
  end.

Definition asDiffUpdatedNotification (params : option json)
    : option DiffUpdatedNotification :=
  match isObject params, as_string (oprop "threadId" params),
        as_string (oprop "turnId" params), as_string (oprop "diff" params) with
  | true, Some threadId, Some turnId, Some diff =>
      Some {| du_threadId := threadId; du_turnId := turnId; du_diff := diff |}
  | _, _, _, _ => None
  end.

(** [extractTurn]; [None] is the thrown "Invalid turn response". *)
Definition extractTurn (result : option json) : option json :=
  match result with
  | Some r =>
      if isObject result && isTurn result then Some r
      else match prop "turn" r with
           | Some t => if isObject result && isTurn (Some t) then Some t else None
           | None => None
           end
  | None => None
  end.

(** *** The internal events that [handleMessage] emits *)

Inductive internal_event :=
| TurnCompleted (data : TurnCompletedNotification)
| ItemCompleted (data : ItemNotification)
| AgentDelta (data : AgentMessageDeltaNotification)
| TurnDiff (data : DiffUpdatedNotification).

Definition method_is (name : string) (message : json) : bool :=
  match as_string (prop "method" message) with
  | Some m => str_eqb m (js name)
  | None => false
  end.

(** *** The three listeners of [runTurn] and their maps *)

Record aggregation := {
  itemsByTurn : list (jsstring * list json);
  diffByTurn : list (jsstring * jsstring);
  agentMessagesByTurn : list (jsstring * list (jsstring * jsstring))
}.

Definition no_aggregation : aggregation :=
  {| itemsByTurn := []; diffByTurn := []; agentMessagesByTurn := [] |}.

Definition or_default {A} (o : option A) (d : A) : A :=
  match o with Some a => a | None => d end.

Definition type_is (name : string) (item : json) : bool :=
  match as_string (prop "type" item) with
  | Some t => str_eqb t (js name)
  | None => false
  end.

Definition append_text (turnId itemId text : jsstring) (agg : aggregation)
    : aggregation :=
  let byItem := or_default (smap_get turnId (agentMessagesByTurn agg)) [] in
  let current := or_default (smap_get itemId byItem) [] in
  let byItem := smap_set itemId (current ++ text) byItem in
  {| itemsByTurn := itemsByTurn agg; diffByTurn := diffByTurn agg;
     agentMessagesByTurn := smap_set turnId byItem (agentMessagesByTurn agg) |}.

Definition onItemCompleted (payload : ItemNotification) (agg : aggregation)
    : aggregation :=
  let items := or_default (smap_get (it_turnId payload) (itemsByTurn agg)) [] in
  let items := items ++ [it_item payload] in
  let agg := {| itemsByTurn := smap_set (it_turnId payload) items (itemsByTurn agg);
                diffByTurn := diffByTurn agg;
                agentMessagesByTurn := agentMessagesByTurn agg |} in
  if type_is "agentMessage" (it_item payload) then
    let text := or_default (as_string (prop "text" (it_item payload))) [] in
    append_text (it_turnId payload) (string_at "id" (it_item payload)) text agg
  else agg.

Definition onAgentDelta (payload : AgentMessageDeltaNotification)
    (agg : aggregation) : aggregation :=
  append_text (ad_turnId payload) (ad_itemId payload) (ad_text payload) agg.

Definition onDiff (payload : DiffUpdatedNotification) (agg : aggregation)
    : aggregation :=
  {| itemsByTurn := itemsByTurn agg;
     diffByTurn := smap_set (du_turnId payload) (du_diff payload) (diffByTurn agg);
     agentMessagesByTurn := agentMessagesByTurn agg |}.

Definition listen (ev : internal_event) (agg : aggregation) : aggregation :=
  match ev with
  | ItemCompleted payload => onItemCompleted payload agg
  | AgentDelta payload => onAgentDelta payload agg
  | TurnDiff payload => onDiff payload agg
  | TurnCompleted _ => agg
  end.

(** *** Assembling the result *)

Fixpoint first_agent_text (items : list json) : option jsstring :=
  match items with
  | [] => None
  | item :: rest =>
      match type_is "agentMessage" item, as_string (prop "text" item) with
      | true, Some (c :: text) => Some (c :: text)
      | _, _ => first_agent_text rest
      end
  end.

Definition extractAgentMessage (items : list json)
    (deltas : list (jsstring * jsstring)) : jsstring :=
  match first_agent_text items with
  | Some text => text
  | None => concat (map snd deltas)
  end.

Record CompletedTurn := {
  turn : json;
  items : list json;
  agentMessage : jsstring;
  diff : option jsstring
}.

Inductive result :=
| Resolved (value : CompletedTurn)
| RejectedWith (e : jserror).

Definition status_is (name : string) (t : json) : bool :=
  match as_string (prop "status" t) with
  | Some s => str_eqb s (js name)
  | None => false
  end.

(** [completedTurn.error?.message ?? "Turn failed"], as [new Error] stores
    it: converted to a string.  When the conversion throws, it is the
    TypeError that leaves [runTurn]. *)
Definition failure_message (completedTurn : json) : jserror :=
  match oprop "message" (prop "error" completedTurn) with
  | None | Some JNull => js "Turn failed"
  | Some m =>
      match ToString (Some m) with
      | inr message => message
      | inl type_error => type_error
      end
  end.

(** The part of [runTurn] after [waitForTurnCompletion] has given
    [completedTurn] for the turn [turnId] that [startTurn] returned. *)
Definition finish (turnId : jsstring) (completedTurn : json) (agg : aggregation)
    : result :=
  if status_is "failed" completedTurn then RejectedWith (failure_message completedTurn)
  else
    let items := or_default (smap_get turnId (itemsByTurn agg)) [] in
    let agentMessage :=
      extractAgentMessage items
        (or_default (smap_get turnId (agentMessagesByTurn agg)) []) in
    Resolved {| turn := completedTurn; items := items;
                agentMessage := agentMessage;
                diff := smap_get turnId (diffByTurn agg) |}.

(** *** One call of [runTurn], between its suspension points

    The listeners that callers attach to the public events of the client
    are taken to return normally, so that every internal event reaches the
    listeners of [runTurn]. *)

(** [handleMessage] up to the internal event it emits.  It throws on a
    message that is not an object, which the transport never emits. *)
Definition handleMessage (message : json) : thrown + option internal_event :=
  match Transport.isJsonRpcNotification message with
  | inl e => inl e
  | inr false => inr None
  | inr true =>
      let params := prop "params" message in
      inr (if method_is "turn/completed" message then
             option_map TurnCompleted (asTurnCompletedNotification params)
           else if method_is "item/completed" message then
             option_map ItemCompleted (asItemNotification params)
           else if method_is "item/agentMessage/delta" message then
             option_map AgentDelta (asAgentDeltaNotification params)
           else if method_is "turn/diff/updated" message then
             option_map TurnDiff (asDiffUpdatedNotification params)
           else None)
  end.

Inductive phase :=
| Starting                                   (* at [await this.startTurn] *)
| Waiting (turnId : jsstring)                (* [waitForTurnCompletion] listens *)
| Completing (turnId : jsstring) (completedTurn : json)
                                             (* its promise is fulfilled *)
| Settled (r : result).                      (* returned or threw; listeners off *)

Record run_turn := {
  completedTurns : list (jsstring * json);   (* of the client *)
  collected : aggregation;                   (* of this call *)
  stage : phase
}.

Definition start (cache : list (jsstring * json)) : run_turn :=
  {| completedTurns := cache; collected := no_aggregation; stage := Starting |}.

Inductive event :=
| Delivered (message : json)         (* the transport emits a message *)
| StartTurnSettled (s : settlement)  (* the turn/start request settled *)
| WaitTimedOut                       (* the timer of [waitForTurnCompletion] *)
| Resumed.                           (* [runTurn] resumes with the turn *)

Definition wait_timeout_error (turnId : jsstring) : jserror :=
  js "Timed out waiting for turn completion: " ++ turnId.

Definition on_internal (ev : internal_event) (c : run_turn) : run_turn :=
  let cache :=
    match ev with
    | TurnCompleted data =>
        smap_set (string_at "id" (tc_turn data)) (tc_turn data) (completedTurns c)
    | _ => completedTurns c
    end in
  match stage c with
  | Settled r => {| completedTurns := cache; collected := collected c; stage := Settled r |}
  | Waiting turnId =>
      match ev with
      | TurnCompleted data =>
          if str_eqb (string_at "id" (tc_turn data)) turnId
          then {| completedTurns := smap_delete turnId cache;
                  collected := collected c;
                  stage := Completing turnId (tc_turn data) |}
          else {| completedTurns := cache; collected := collected c;
                  stage := Waiting turnId |}
      | _ => {| completedTurns := cache; collected := listen ev (collected c);
                stage := Waiting turnId |}
      end
  | other => {| completedTurns := cache; collected := listen ev (collected c);
                stage := other |}
  end.

Definition step (ev : event) (c : run_turn) : run_turn :=
  match ev with
  | Delivered message =>
      match handleMessage message with
      | inr (Some internal) => on_internal internal c
      | _ => c
      end
  | StartTurnSettled s =>
      match stage c with
      | Starting =>
          match s with
          | Rejected e =>
              {| completedTurns := completedTurns c; collected := collected c;
                 stage := Settled (RejectedWith e) |}
          | Fulfilled value =>
              match extractTurn value with
              | None =>
                  {| completedTurns := completedTurns c; collected := collected c;
                     stage := Settled (RejectedWith (js "Invalid turn response")) |}
              | Some t =>
                  let turnId := string_at "id" t in
                  match smap_get turnId (completedTurns c) with
                  | Some alreadyCompleted =>
                      {| completedTurns := smap_delete turnId (completedTurns c);
                         collected := collected c;
                         stage := Completing turnId alreadyCompleted |}
                  | None =>
                      {| completedTurns := completedTurns c; collected := collected c;
                         stage := Waiting turnId |}
                  end
              end
          end
      | _ => c
      end
  | WaitTimedOut =>
      match stage c with
      | Waiting turnId =>
          {| completedTurns := completedTurns c; collected := collected c;
             stage := Settled (RejectedWith (wait_timeout_error turnId)) |}
      | _ => c
      end
  | Resumed =>
      match stage c with
      | Completing turnId completedTurn =>
          {| completedTurns := completedTurns c; collected := collected c;
             stage := Settled (finish turnId completedTurn (collected c)) |}
      | _ => c
      end
  end.

Definition run (evs : list event) (c : run_turn) : run_turn :=
  fold_left (fun c ev => step ev c) evs c.

(** The messages the listeners of the call were handed. *)
Definition delivered (evs : list event) : list json :=
  flat_map (fun ev => match ev with Delivered m => [m] | _ => [] end) evs.

(** *** The other shape checks and extractors of [client.ts] *)

Definition isThread (value : option json) : bool :=
  isObject value && is_some (as_string (oprop "id" value)).

(** [extractThread]; [None] is the thrown "Invalid thread response". *)
Definition extractThread (result : option json) : option json :=
  match result with
  | Some r =>
      if isObject result && isThread result then Some r
      else match prop "thread" r with
           | Some t => if isObject result && isThread (Some t) then Some t else None
           | None => None
           end
  | None => None
  end.

(** [typeof v === "string" || v === null ? v : undefined]. *)
Definition cursor (v : option json) : option json :=
  match v with
  | Some (JStr s) => Some (JStr s)
  | Some JNull => Some JNull
  | _ => None
  end.

(** [ThreadListResult] and [ModelListResult]. *)
Record ListResult := {
  list_data : list json;
  list_nextCursor : option json
}.

(** The filter of [extractModelList]. *)
Definition isModel (model : json) : bool :=
  isObject (Some model)
  && is_some (as_string (prop "id" model))
  && is_some (as_string (prop "model" model))
  && is_some (as_string (prop "displayName" model)).

(** [extractThreadList] and [extractModelList]; [None] is the thrown
    "Invalid thread list response" or "Invalid model list response". *)
Definition extractList (keep : json -> bool) (result : option json)
    : option ListResult :=
  if isObject result then
    match oprop "data" result with
    | Some (JArr items) =>
        Some {| list_data := filter keep items;
                list_nextCursor := cursor (oprop "nextCursor" result) |}
    | _ => None
    end
  else None.

Definition extractThreadList (result : option json) : option ListResult :=
  extractList (fun value => isThread (Some value)) result.

Definition extractModelList (result : option json) : option ListResult :=
  extractList isModel result.

Record ExecCommandResult := {
  exitCode : Q;
  stdout : jsstring;
  stderr : jsstring
}.

(** [extractExecCommandResult]; [None] is the thrown "Invalid command
    execution response". *)
Definition extractExecCommandResult (result : option json)
    : option ExecCommandResult :=
  if isObject result then
    match oprop "exitCode" result, as_string (oprop "stdout" result),
          as_string (oprop "stderr" result) with
    | Some (JNum code), Some out, Some err =>
        Some {| exitCode := code; stdout := out; stderr := err |}
    | _, _, _ => None
    end
  else None.

(** What [steerTurn] makes of the result of turn/steer; [None] is the
    thrown "Missing turnId in turn/steer result". *)
Definition steeredTurnId (result : option json) : option jsstring :=
  if isObject result then
    match as_string (oprop "turnId" result) with
    | Some turnId => Some turnId
    | None =>
        if isObject (oprop "turn" result)
        then as_string (oprop "id" (oprop "turn" result))
        else None
    end
  else None.

(** *** [runReview] *)

(** What [startReview] returns for the result of review/start: the result
    when it is an object, and [{}] otherwise. *)
Definition startReviewResult (result : option json) : json :=
  match result with
  | Some r => if isObject result then r else JObj []
  | None => JObj []
  end.

(** [reviewTurnId], as the tests [reviewTurnId ? ... : ...] and
    [reviewTurnId && ...] take it: the empty string counts as absent. *)
Definition reviewTurnId_of (result : json) : option jsstring :=
  match as_string (prop "turnId" result) with
  | Some (c :: turnId) => Some (c :: turnId)
  | _ => None
  end.













End WithHost.
End Client.

(** ** A reference platform

    An executable [Host] on which the examples run: the UTF-8 decoder of the
    Encoding standard, and JSON text per ECMA-404.  Numbers are kept exact,
    where the real platform rounds to a double; the two agree on the
    integers below 2^53, which is all the examples use.  A number that is not
    an integer is printed as a quotient. *)

Module Reference.

(** *** UTF-8, streaming *)

Record utf8_state := {
  code_point : N;
  bytes_seen : N;
  bytes_needed : N;
  lower : N;
  upper : N;
  bom_seen : bool
}.

Definition utf8_start : utf8_state :=
  {| code_point := 0; bytes_seen := 0; bytes_needed := 0;
     lower := 128; upper := 191; bom_seen := false |}.

Definition utf8_reset (s : utf8_state) : utf8_state :=
  {| code_point := 0; bytes_seen := 0; bytes_needed := 0;
     lower := 128; upper := 191; bom_seen := bom_seen s |}.

Definition utf8_lead (cp needed lo up : N) (s : utf8_state) : utf8_state :=
  {| code_point := cp; bytes_seen := 0; bytes_needed := needed;
     lower := lo; upper := up; bom_seen := bom_seen s |}.

(** A scalar value as UTF-16; a leading U+FEFF of the stream is dropped. *)
Definition emit (cp : N) (s : utf8_state) : utf8_state * jsstring :=
  let s' := {| code_point := 0; bytes_seen := 0; bytes_needed := 0;
               lower := 128; upper := 191; bom_seen := true |} in
  if negb (bom_seen s) && N.eqb cp 65279 then (s', [])
  else if N.ltb cp 65536 then (s', [cp])
  else (s', [55296 + N.shiftr (cp - 65536) 10;
             56320 + N.land (cp - 65536) 1023])%N.

Definition utf8_first (b : N) (s : utf8_state) : utf8_state * jsstring :=
  (if N.leb b 127 then emit b s
   else if N.leb 194 b && N.leb b 223 then (utf8_lead (N.land b 31) 1 128 191 s, [])
   else if N.leb 224 b && N.leb b 239 then
     (utf8_lead (N.land b 15) 2 (if N.eqb b 224 then 160 else 128)
                (if N.eqb b 237 then 159 else 191) s, [])
   else if N.leb 240 b && N.leb b 244 then
     (utf8_lead (N.land b 7) 3 (if N.eqb b 240 then 144 else 128)
                (if N.eqb b 244 then 143 else 191) s, [])
   else emit 65533 s)%N.

Definition utf8_byte (s : utf8_state) (byte : Byte.byte) : utf8_state * jsstring :=
  let b := Byte.to_N byte in
  (if N.eqb (bytes_needed s) 0 then utf8_first b s
   else if N.leb (lower s) b && N.leb b (upper s) then
     let cp := N.lor (N.shiftl (code_point s) 6) (N.land b 63) in
     let seen := bytes_seen s + 1 in
     if N.eqb seen (bytes_needed s) then emit cp s
     else ({| code_point := cp; bytes_seen := seen;
              bytes_needed := bytes_needed s;
              lower := 128; upper := 191; bom_seen := bom_seen s |}, [])
   else
     (* an ill-formed sequence: U+FFFD, then the byte is read afresh *)
     let (s1, out1) := emit 65533 s in
     let (s2, out2) := utf8_first b s1 in
     (s2, out1 ++ out2))%N.

(** *** JSON text *)

Definition ch (c : string) : char16 :=
  match c with
  | String a _ => N_of_ascii a
  | EmptyString => 0%N
  end.

Definition dquote : char16 := 34%N.

Definition is_json_space (c : char16) : bool :=
  N.eqb c 32 || N.eqb c 9 || N.eqb c 10 || N.eqb c 13.

Fixpoint skip_space (s : jsstring) : jsstring :=
  match s with
  | c :: s' => if is_json_space c then skip_space s' else s
  | [] => []
  end.

Definition digit_of (c : char16) : option Z :=
  if (N.leb 48 c && N.leb c 57)%N then Some (Z.of_N c - 48) else None.

Definition hex_of (c : char16) : option N :=
  (if N.leb 48 c && N.leb c 57 then Some (c - 48)
   else if N.leb 65 c && N.leb c 70 then Some (c - 55)
   else if N.leb 97 c && N.leb c 102 then Some (c - 87)
   else None)%N.

(** Digits: the value of [acc] followed by them, how many, and the rest. *)
Fixpoint read_digits (acc : Z) (count : nat) (s : jsstring) : Z * nat * jsstring :=
  match s with
  | c :: s' =>
      match digit_of c with
      | Some d => read_digits (10 * acc + d) (S count) s'
      | None => (acc, count, s)
      end
  | [] => (acc, count, [])
  end.

Definition scale (m e : Z) : Q :=
  if 0 <=? e then inject_Z (m * 10 ^ e)
  else Qred (Qmake m (Z.to_pos (10 ^ (- e)))).

Definition read_exponent (s : jsstring) : option (Z * jsstring) :=
  match s with
  | c :: s' =>
      if N.eqb c (ch "e") || N.eqb c (ch "E") then
        let '(sign, s2) :=
          match s' with
          | d :: s'' => if N.eqb d (ch "-") then (-1, s'')
                        else if N.eqb d (ch "+") then (1, s'') else (1, s')
          | [] => (1, s')
          end in
        match read_digits 0 O s2 with
        | (_, O, _) => None
        | (e, _, rest) => Some (sign * e, rest)
        end
      else Some (0, s)
  | [] => Some (0, s)
  end.

Definition read_number (s : jsstring) : option (Q * jsstring) :=
  let '(sign, s1) :=
    match s with
    | c :: s' => if N.eqb c (ch "-") then (-1, s') else (1, s)
    | [] => (1, s)
    end in
  match s1 with
  | c :: _ =>
      match read_digits 0 O s1 with
      | (_, O, _) => None
      | (int_part, count, s2) =>
          if N.eqb c (ch "0") && negb (Nat.eqb count 1) then None
          else
            let frac :=
              match s2 with
              | d :: s3 =>
                  if N.eqb d (ch ".") then
                    match read_digits int_part O s3 with
                    | (_, O, _) => None
                    | (m, k, s4) => Some (m, Z.of_nat k, s4)
                    end
                  else Some (int_part, 0, s2)
              | [] => Some (int_part, 0, s2)
              end in
            match frac with
            | None => None
            | Some (m, k, s4) =>
                match read_exponent s4 with
                | None => None
                | Some (e, rest) => Some (scale (sign * m) (e - k), rest)
                end
            end
      end
  | [] => None
  end.

(** The characters of a string literal after its opening quote. *)
Fixpoint read_string (s : jsstring) : option (jsstring * jsstring) :=
  match s with
  | [] => None
  | c :: s' =>
      if N.eqb c dquote then Some ([], s')
      else if N.ltb c 32 then None
      else if N.eqb c (ch "\") then
        match s' with
        | e :: s'' =>
            let simple (x : N) :=
              match read_string s'' with
              | Some (t, rest) => Some (x :: t, rest)
              | None => None
              end in
            if N.eqb e dquote then simple dquote
            else if N.eqb e (ch "\") then simple (ch "\")
            else if N.eqb e (ch "/") then simple (ch "/")
            else if N.eqb e (ch "b") then simple 8%N
            else if N.eqb e (ch "f") then simple 12%N
            else if N.eqb e (ch "n") then simple 10%N
            else if N.eqb e (ch "r") then simple 13%N
            else if N.eqb e (ch "t") then simple 9%N
            else if N.eqb e (ch "u") then
              match s'' with
              | h1 :: h2 :: h3 :: h4 :: s3 =>
                  match hex_of h1, hex_of h2, hex_of h3, hex_of h4, read_string s3 with
                  | Some a, Some b, Some c', Some d, Some (t, rest) =>
                      Some ((4096 * a + 256 * b + 16 * c' + d)%N :: t, rest)
                  | _, _, _, _, _ => None
                  end
              | _ => None
              end
            else None
        | [] => None
        end
      else
        match read_string s' with
        | Some (t, rest) => Some (c :: t, rest)
        | None => None
        end
  end.

Fixpoint starts_with (p s : jsstring) : option jsstring :=
  match p, s with
  | [], _ => Some s
  | x :: p', y :: s' => if N.eqb x y then starts_with p' s' else None
  | _ :: _, [] => None
  end.

(** A later member with the same name replaces the value of the earlier. *)
Fixpoint put_member (k : jsstring) (v : json) (fields : list (jsstring * json)) :=
  match fields with
  | [] => [(k, v)]
  | (k', v') :: rest =>
      if str_eqb k' k then (k, v) :: rest else (k', v') :: put_member k v rest
  end.

Fixpoint read_value (depth : nat) (s : jsstring) {struct depth}
    : option (json * jsstring) :=
  match depth with
  | O => None
  | S depth' =>
      let read_elements :=
        fix read_elements (n : nat) (acc : list json) (s : jsstring) {struct n}
            : option (json * jsstring) :=
          match n with
          | O => None
          | S n' =>
              match read_value depth' s with
              | Some (v, rest) =>
                  match skip_space rest with
                  | c :: rest' =>
                      if N.eqb c (ch ",") then read_elements n' (acc ++ [v]) rest'
                      else if N.eqb c (ch "]") then Some (JArr (acc ++ [v]), rest')
                      else None
                  | [] => None
                  end
              | None => None
              end
          end in
      let read_members :=
        fix read_members (n : nat) (acc : list (jsstring * json)) (s : jsstring)
            {struct n} : option (json * jsstring) :=
          match n with
          | O => None
          | S n' =>
              match skip_space s with
              | q :: s1 =>
                  if N.eqb q dquote then
                    match read_string s1 with
                    | Some (k, s2) =>
                        match skip_space s2 with
                        | colon :: s3 =>
                            if N.eqb colon (ch ":") then
                              match read_value depth' s3 with
                              | Some (v, rest) =>
                                  match skip_space rest with
                                  | c :: rest' =>
                                      if N.eqb c (ch ",")
                                      then read_members n' (put_member k v acc) rest'
                                      else if N.eqb c (ch "}")
                                      then Some (JObj (put_member k v acc), rest')
                                      else None
                                  | [] => None
                                  end
                              | None => None
                              end
                            else None
                        | [] => None
                        end
                    | None => None
                    end
                  else None
              | [] => None
              end
          end in
      match skip_space s with
      | [] => None
      | c :: s' =>
          if N.eqb c (ch "{") then
            match skip_space s' with
            | d :: s'' => if N.eqb d (ch "}") then Some (JObj [], s'')
                          else read_members (length s') [] s'
            | [] => None
            end
          else if N.eqb c (ch "[") then
            match skip_space s' with
            | d :: s'' => if N.eqb d (ch "]") then Some (JArr [], s'')
                          else read_elements (length s') [] s'
            | [] => None
            end
          else if N.eqb c dquote then
            match read_string s' with
            | Some (t, rest) => Some (JStr t, rest)
            | None => None
            end
          else if N.eqb c (ch "t") then
            option_map (fun r => (JBool true, r)) (starts_with (js "true") (c :: s'))
          else if N.eqb c (ch "f") then
            option_map (fun r => (JBool false, r)) (starts_with (js "false") (c :: s'))
          else if N.eqb c (ch "n") then
            option_map (fun r => (JNull, r)) (starts_with (js "null") (c :: s'))
          else
            match read_number (c :: s') with
            | Some (q, rest) => Some (JNum q, rest)
            | None => None
            end
      end
  end.

Definition parse (s : jsstring) : option json :=
  match read_value (S (length s)) s with
  | Some (v, rest) => match skip_space rest with [] => Some v | _ => None end
  | None => None
  end.

(** *** Printing *)

Definition decimal (z : Z) : jsstring :=
  js (DecimalString.NilZero.string_of_int (Z.to_int z)).

Definition print_number (q : Q) : jsstring :=
  if Qeq_bool q (inject_Z (Qfloor q)) then decimal (Qfloor q)
  else decimal (Qnum q) ++ js "/" ++ decimal (Zpos (Qden q)).

Definition hex_digit (n : N) : char16 :=
  (if N.ltb n 10 then 48 + n else 87 + n)%N.

Definition escape (c : char16) : jsstring :=
  (if N.eqb c dquote then [ch "\"; dquote]
   else if N.eqb c (ch "\") then [ch "\"; ch "\"]
   else if N.eqb c 8 then js "\b"
   else if N.eqb c 12 then js "\f"
   else if N.eqb c 10 then js "\n"
   else if N.eqb c 13 then js "\r"
   else if N.eqb c 9 then js "\t"
   else if N.ltb c 32 then js "\u00" ++ [hex_digit (c / 16); hex_digit (c mod 16)]
   else [c])%N.

Definition quote (s : jsstring) : jsstring :=
  [dquote] ++ flat_map escape s ++ [dquote].

Fixpoint join (sep : jsstring) (parts : list jsstring) : jsstring :=
  match parts with
  | [] => []
  | [p] => p
  | p :: rest => p ++ sep ++ join sep rest
  end.

Fixpoint stringify (v : json) : jsstring :=
  match v with
  | JNull => js "null"
  | JBool true => js "true"
  | JBool false => js "false"
  | JNum q => print_number q
  | JStr s => quote s
  | JArr items => js "[" ++ join (js ",") (map stringify items) ++ js "]"
  | JObj fields =>
      js "{"
      ++ join (js ",")
           (map (fun kv => quote (fst kv) ++ js ":" ++ stringify (snd kv)) fields)
      ++ js "}"
  end.

(** *** Conversion to string

    A primitive converts by its type.  An object is converted by the first
    of its methods [toString] and [valueOf] that is callable and returns a
    primitive.  A plain object inherits both: [Object.prototype.toString]
    gives "[object Object]".  A member [toString] of its own, which in a
    value made by [JSON.parse] is never callable, hides the inherited one;
    [valueOf], its own or inherited, gives no primitive, and the conversion
    throws a TypeError.  An array joins the conversions of its elements,
    null as the empty string, and throws when one of them does. *)

Definition conversion_error : jserror :=
  js "TypeError: Cannot convert object to primitive value".

(** The conversions in order, up to the first that throws. *)
Fixpoint all_converted (parts : list (jserror + jsstring))
    : jserror + list jsstring :=
  match parts with
  | [] => inr []
  | inl e :: _ => inl e
  | inr p :: rest =>
      match all_converted rest with
      | inl e => inl e
      | inr ps => inr (p :: ps)
      end
  end.

Fixpoint to_string (v : json) : jserror + jsstring :=
  match v with
  | JNull => inr (js "null")
  | JBool true => inr (js "true")
  | JBool false => inr (js "false")
  | JNum q => inr (print_number q)
  | JStr s => inr s
  | JArr items =>
      match all_converted
              (map (fun x => match x with JNull => inr [] | _ => to_string x end)
                 items) with
      | inl e => inl e
      | inr parts => inr (join (js ",") parts)
      end
  | JObj fields =>
      match lookup_field (js "toString") fields with
      | Some _ => inl conversion_error
      | None => inr (js "[object Object]")
      end
  end.

#[global] Instance host : Host := {|
  decoder_state := utf8_state;
  decoder_init := utf8_start;
  decode_byte := utf8_byte;
  JSON_parse := parse;
  JSON_stringify := stringify;
  ToString := fun v => match v with
                       | Some w => to_string w
                       | None => inr (js "undefined")
                       end;
  NumberToString := print_number;
  ToString_string := fun s => eq_refl;
  ToString_number := fun q => eq_refl
|}.

(** JSON text written with ['] where the text has a double quote and with
    [|] where it has a line feed. *)
Definition text (s : string) : jsstring :=
  map (fun c => if N.eqb c 39 then dquote else if N.eqb c 124 then LF else c) (js s).

(** The UTF-8 bytes of such a text, for ASCII. *)
Definition wire (s : string) : list Byte.byte :=
  flat_map (fun c => match Byte.of_N c with Some b => [b] | None => [] end) (text s).

Definition value (s : string) : json :=
  match parse (text s) with
  | Some v => v
  | None => JNull
  end.

(** Callbacks given by a table: callback [h] runs the commands listed for
    it, whatever it is handed; a callback not listed does nothing. *)
Fixpoint script_of (h : handler) (table : list (handler * list command))
    : list command :=
  match table with
  | [] => []
  | (h', body) :: rest => if Nat.eqb h' h then body else script_of h rest
  end.

Definition scripted (table : list (handler * list command)) : Callbacks :=
  {| on_message_body := fun h _ _ => script_of h table;
     on_error_body := fun h _ _ => script_of h table |}.

End Reference.

(** ** The vocabulary of the properties of the transport *)

Section TransportVocabulary.
Context {host : Host} {callbacks : Callbacks}.
Import Transport.

(** The line that [request] writes for a call. *)
Definition request_line (method : jsstring) (id : Z) (params : option json) :=
  JSON_stringify (request_object method id params) ++ [LF].

Record wf (st : transport) : Prop := {
  wf_keys : NoDup (map fst (pending st));
  wf_pending : forall k pr,
    map_get k (pending st) = Some pr ->
    exists c tm,
      nth_error (promises st) (settles pr) = Some c
      /\ made_id c = k /\ settle_calls c = []
      /\ find_timer (timeout pr) (timers st) = Some tm
      /\ tm_promise tm = settles pr /\ tm_id tm = k;
  wf_timers : forall t tm,
    find_timer t (timers st) = Some tm ->
    (t < timer_count st)%nat
    /\ exists c,
         nth_error (promises st) (tm_promise tm) = Some c
         /\ made_id c = tm_id tm /\ made_method c = tm_method tm
         /\ settle_calls c = [];
  wf_timer_inj : forall t1 t2 tm1 tm2,
    find_timer t1 (timers st) = Some tm1 ->
    find_timer t2 (timers st) = Some tm2 ->
    tm_promise tm1 = tm_promise tm2 -> t1 = t2;
  wf_once : forall p c,
    nth_error (promises st) p = Some c -> (length (settle_calls c) <= 1)%nat;
  wf_counter : 0 <= nextRequestId st <= 2 ^ 53;
  wf_ids : forall p c,
    nth_error (promises st) p = Some c ->
    made_id c < nextRequestId st \/ nextRequestId st = 2 ^ 53
}.

(** The common end of a pending request: its timer is cleared, its entry
    deleted, and its promise gets one call. *)
Definition retire (t : nat) (k : Z) (p : nat) (s : settlement) (st : transport) :=
  settle p s (with_pending (map_delete k (pending st)) (clearTimeout t st)).

(** Every pending request was written to the subprocess under its id. *)
Definition sent (st : transport) : Prop :=
  forall k pr,
    map_get k (pending st) = Some pr ->
    exists c params,
      nth_error (promises st) (settles pr) = Some c
      /\ In (request_line (made_method c) k params) (stdin st).

Definition inv (st : transport) : Prop := wf st /\ sent st.

(** A promise keeps its index, its id and its method; once a call has
    reached it, it gets no other. *)
Definition keeps_settled (st st' : transport) : Prop :=
  forall p c,
    nth_error (promises st) p = Some c ->
    exists c',
      nth_error (promises st') p = Some c'
      /\ made_id c' = made_id c /\ made_method c' = made_method c
      /\ (settle_calls c <> [] -> c' = c).

(** The counter does not go back, a closed transport stays closed, and an
    id below the counter that is out of the registry stays out. *)
Definition keeps_absent (st st' : transport) : Prop :=
  nextRequestId st <= nextRequestId st'
  /\ (closed st = true -> closed st' = true)
  /\ forall k, k < nextRequestId st ->
       map_get k (pending st) = None -> map_get k (pending st') = None.

Definition evolves (st st' : transport) : Prop :=
  inv st -> inv st' /\ keeps_settled st st' /\ keeps_absent st st'.

(** [request] after [this.pending.set], before [this.send]. *)
Definition registered (method : jsstring) (ms : Z) (st : transport) : transport :=
  let id := nextRequestId st in
  let p := length (promises st) in
  let t := timer_count st in
  with_pending (map_set id {| settles := p; timeout := t |} (pending st))
    (with_timers
       (timers st ++ [(t, {| tm_id := id; tm_method := method;
                             tm_promise := p; tm_ms := ms |})]) (S t)
       (with_promises
          (promises st ++ [{| made_id := id; made_method := method;
                              settle_calls := [] |}])
          (with_nextRequestId (js_increment id) st))).

(** What a response settles its request with; [inl] is the TypeError that
    [formatJsonRpcError] throws. *)
Definition verdict (response : json) : jserror + settlement :=
  match prop "error" response with
  | Some error =>
      if truthy (Some error)
      then match formatJsonRpcError error with
           | inr message => inr (Rejected message)
           | inl type_error => inl type_error
           end
      else inr (Fulfilled (prop "result" response))
  | None => inr (Fulfilled (prop "result" response))
  end.

(** A pending request leaves the registry with its timer cleared and its
    promise left alone. *)
Definition dropped (t : nat) (k : Z) (st : transport) : transport :=
  with_pending (map_delete k (pending st)) (clearTimeout t st).

Definition outcome_evolves (st : transport) (o : outcome) : Prop :=
  match o with
  | Returns st' | Throws _ st' => evolves st st'
  | Diverges => True
  end.

(** An entry list after more [add] and [delete]: it is at least as long,
    and an old entry is as it was or is a hole. *)
Definition grows (H H' : list (option handler)) : Prop :=
  (length H <= length H')%nat
  /\ forall i e, nth_error H i = Some e ->
       nth_error H' i = Some e \/ nth_error H' i = Some None.

(** What the code that runs while a line is handled by callbacks leaves
    alone. *)
Record quiet (st st' : transport) : Prop := {
  q_readLoop : readLoop st' = readLoop st;
  q_exited : exited st' = exited st;
  q_closing : closing st' = closing st \/ closing st' = AwaitReadLoop;
  q_messageHandlers : grows (messageHandlers st) (messageHandlers st');
  q_errorHandlers : grows (errorHandlers st) (errorHandlers st');
  q_counter : nextRequestId st <= nextRequestId st';
  q_pending : forall k pr, k < nextRequestId st ->
                map_get k (pending st) = Some pr ->
                map_get k (pending st') = Some pr
}.

Definition outcome_quiet (st : transport) (o : outcome) : Prop :=
  match o with
  | Returns st' | Throws _ st' => quiet st st'
  | Diverges => True
  end.

(** The channels of the transport. *)
Definition proper (ch : channel) : Prop :=
  entries ch = messageHandlers \/ entries ch = errorHandlers.

(** One run of the loop that returns: the callbacks were called at the
    positions [js], in increasing order, each with the entry found there. *)
Definition served (ch : channel) (i : nat) (st st' : transport)
    (js : list nat) (ds : list observation) : Prop :=
  seen st' = seen st ++ ds
  /\ StronglySorted lt js
  /\ Forall (fun j => (i <= j)%nat) js
  /\ Forall2
       (fun j d =>
          exists h,
            d = observe ch h
            /\ (nth_error (entries ch st) j = Some (Some h)
                \/ (length (entries ch st) <= j)%nat)
            /\ (nth_error (entries ch st') j = Some (Some h)
                \/ nth_error (entries ch st') j = Some None))
       js ds
  /\ (forall j h, (i <= j)%nat ->
        nth_error (entries ch st') j = Some (Some h) -> In j js)
  /\ grows (entries ch st) (entries ch st').

(** *** The framer, as a function of the bytes alone *)

(** A buffer cut at every line feed: the raw lines, and what follows the
    last line feed. *)
Fixpoint cut (s : jsstring) : list jsstring * jsstring :=
  match s with
  | [] => ([], [])
  | c :: s' =>
      let (lines, tail) := cut s' in
      if N.eqb c LF then ([] :: lines, tail)
      else match lines with
           | [] => ([], c :: tail)
           | l :: lines' => ((c :: l) :: lines', tail)
           end
  end.

(** The units handed on: the raw lines trimmed, the empty ones dropped. *)
Definition frames (raw : list jsstring) : list jsstring :=
  filter (fun line => (0 <? length line)%nat) (map trim raw).

Definition reader : Type := decoder_state * jsstring.

Definition feed (r : reader) (value : list Byte.byte) : list jsstring * reader :=
  let (dec', text) := decode (fst r) value in
  let (raw, rest) := cut (snd r ++ text) in
  (frames raw, (dec', rest)).

Fixpoint feed_all (r : reader) (chunks : list (list Byte.byte))
    : list jsstring * reader :=
  match chunks with
  | [] => ([], r)
  | value :: rest =>
      let (units1, r1) := feed r value in
      let (units2, r2) := feed_all r1 rest in
      (units1 ++ units2, r2)
  end.

(** At the end of input the remainder is one more unit, unless it trims to
    nothing. *)
Definition flush (r : reader) : list jsstring := frames [snd r].

(** The messages decoded from a stream that comes in the chunks given:
    [None] is a unit that does not parse. *)
Definition decoded (chunks : list (list Byte.byte)) : list (option json) :=
  let (units, r) := feed_all (decoder_init, []) chunks in
  map JSON_parse (units ++ flush r).

(** [handleLine] on each unit in turn, up to the first that throws. *)
Fixpoint handle_all (fuel : nat) (units : list jsstring) (st : transport) : outcome :=
  match units with
  | [] => Returns st
  | line :: rest =>
      match handleLine fuel line st with
      | Returns st' => handle_all fuel rest st'
      | o => o
      end
  end.

Definition lift (f : transport -> transport) (o : outcome) : outcome :=
  match o with
  | Returns st => Returns (f st)
  | Throws e st => Throws e (f st)
  | Diverges => Diverges
  end.

(** What handling a line leaves alone. *)
Definition calm (st st' : transport) : Prop :=
  readLoop st' = readLoop st
  /\ exited st' = exited st
  /\ (closing st' = closing st \/ closing st' = AwaitReadLoop).

Definition outcome_calm (st : transport) (o : outcome) : Prop :=
  match o with
  | Returns st' | Throws _ st' => calm st st'
  | Diverges => True
  end.

End TransportVocabulary.

(** ** The vocabulary of the properties of the client *)

Section ClientVocabulary.
Context {host : Host}.
Import Client.

(** What one message contributes to the aggregation of the turn [turnId]:
    a completed item, a diff, a piece of agent-message text for an item. *)
Definition item_of (turnId : jsstring) (message : json) : list json :=
  match handleMessage message with
  | inr (Some (ItemCompleted d)) =>
      if str_eqb (it_turnId d) turnId then [it_item d] else []
  | _ => []
  end.

Definition diff_of (turnId : jsstring) (message : json) : list jsstring :=
  match handleMessage message with
  | inr (Some (TurnDiff d)) =>
      if str_eqb (du_turnId d) turnId then [du_diff d] else []
  | _ => []
  end.

Definition text_of (turnId : jsstring) (message : json)
    : list (jsstring * jsstring) :=
  match handleMessage message with
  | inr (Some (AgentDelta d)) =>
      if str_eqb (ad_turnId d) turnId then [(ad_itemId d, ad_text d)] else []
  | inr (Some (ItemCompleted d)) =>
      if str_eqb (it_turnId d) turnId && type_is "agentMessage" (it_item d)
      then [(string_at "id" (it_item d),
             or_default (as_string (prop "text" (it_item d))) [])]
      else []
  | _ => []
  end.

Definition items_for (turnId : jsstring) (messages : list json) : list json :=
  flat_map (item_of turnId) messages.

Definition last_opt {A} (l : list A) : option A :=
  match rev l with
  | x :: _ => Some x
  | [] => None
  end.

Definition last_diff (turnId : jsstring) (messages : list json) : option jsstring :=
  last_opt (flat_map (diff_of turnId) messages).

Definition texts_for (turnId : jsstring) (messages : list json) :=
  flat_map (text_of turnId) messages.

(** The distinct ids of a list, in the order of their first occurrence. *)
Fixpoint first_ids (ids : list jsstring) : list jsstring :=
  match ids with
  | [] => []
  | id :: rest => id :: filter (fun x => negb (str_eqb x id)) (first_ids rest)
  end.

(** All the text received for one item, in the order received. *)
Definition text_of_item (id : jsstring) (pieces : list (jsstring * jsstring))
    : jsstring :=
  concat (map snd (filter (fun p => str_eqb (fst p) id) pieces)).

(** The accumulated texts: per item, items in the order of first receipt. *)
Definition grouped (pieces : list (jsstring * jsstring))
    : list (jsstring * jsstring) :=
  map (fun id => (id, text_of_item id pieces)) (first_ids (map fst pieces)).

(** An item of kind agentMessage whose text is a non-empty string. *)
Definition has_agent_text (item : json) : bool :=
  type_is "agentMessage" item
  && match as_string (prop "text" item) with
     | Some (_ :: _) => true
     | _ => false
     end.

Definition text_field (item : json) : jsstring :=
  or_default (as_string (prop "text" item)) [].

(** The aggregation after the listeners were handed the messages. *)
Definition collect (messages : list json) : aggregation :=
  fold_left
    (fun agg m =>
       match handleMessage m with
       | inr (Some ev) => listen ev agg
       | _ => agg
       end)
    messages no_aggregation.

(** The agent message as the specification words it: the final text of the
    first item of kind agentMessage when there is one, otherwise the
    accumulated delta texts. *)
Definition agentMessage_as_specified (items : list json)
    (deltas : list (jsstring * jsstring)) : jsstring :=
  match find (type_is "agentMessage") items with
  | Some item => text_field item
  | None => concat (map snd deltas)
  end.

(** The map from item id to text, as [append_text] builds it. *)
Definition accumulate_step (m : list (jsstring * jsstring))
    (p : jsstring * jsstring) : list (jsstring * jsstring) :=
  smap_set (fst p) (or_default (smap_get (fst p) m) [] ++ snd p) m.

Definition accumulate (pieces : list (jsstring * jsstring)) :=
  fold_left accumulate_step pieces [].

Definition mem (id : jsstring) (ids : list jsstring) : bool :=
  existsb (fun i => str_eqb i id) ids.

(** The message is a turn/completed notification for the turn [turnId]. *)
Definition completes (turnId : jsstring) (message : json) : bool :=
  match handleMessage message with
  | inr (Some (TurnCompleted d)) => str_eqb (string_at "id" (tc_turn d)) turnId
  | _ => false
  end.

(** Messages arrive, none of which completes the turn [turnId]. *)
Definition others (turnId : jsstring) (evs : list event) : Prop :=
  Forall (fun ev => exists m, ev = Delivered m /\ completes turnId m = false) evs.






End ClientVocabulary.

(** ** More vocabulary: shutdown, identifiers, subscriptions *)

Section LifecycleVocabulary.
Context {host : Host} {callbacks : Callbacks}.
Import Transport.

(** [readLoopPromise] is still pending. *)
Definition reading (st : transport) : bool :=
  match readLoop st with
  | Reading _ _ => true
  | _ => false
  end.

(** How far the first call of [close()] has come, against the flags it
    sets and the two promises it awaits. *)
Record shutdown (st : transport) : Prop := {
  sd_closed : closed st = true <-> closing st <> NotClosing;
  sd_initiated : closeInitiated st = closed st;
  sd_stdin : stdin_ended st = closed st;
  sd_loop : closing st = AwaitExited \/ closing st = CloseReturned ->
            reading st = false;
  sd_exited : closing st = CloseReturned -> exited st = true;
  sd_empty : closing st = CloseReturned -> pending st = []
}.

(** The id that the call number [n] of [request] takes, counting from 0:
    the counter stops at 2^53. *)
Definition nth_id (n : nat) : Z := Z.min (Z.of_nat n) (2 ^ 53).

(** The promises made so far carry the ids 0, 1, 2, ... in the order of
    the calls, and the counter holds the next one. *)
Definition numbered (st : transport) : Prop :=
  nextRequestId st = nth_id (length (promises st))
  /\ forall p c, nth_error (promises st) p = Some c -> made_id c = nth_id p.

(** Nothing is written to the subprocess any more. *)
Definition silenced (lines : list jsstring) (st : transport) : Prop :=
  closed st = true /\ stdin st = lines.

(** Callback [h] is not in the set of message callbacks, and it has been
    handed nothing since the observations [before]. *)
Definition unsubscribed (h : handler) (before : list observation)
    (st : transport) : Prop :=
  ~ In (Some h) (messageHandlers st)
  /\ exists ds, seen st = before ++ ds
                /\ forall m, ~ In (GotMessage h m) ds.

(** The callbacks of a set, in the order in which a loop over it meets
    them. *)
Definition live (entries : list (option handler)) : list handler :=
  flat_map (fun e => match e with Some h => [h] | None => [] end) entries.

(** A call that is not [onMessage(h)]. *)
Definition leaves_out (h : handler) (c : command) : Prop :=
  c <> CallOnMessage h.

Definition event_leaves_out (h : handler) (ev : event) : Prop :=
  forall c, ev = Call c -> leaves_out h c.

(** What the callback does that is called for the observation [d], given
    what the callbacks had been handed before. *)
Definition body_at (before : list observation) (d : observation) : list command :=
  match d with
  | GotMessage h m => on_message_body h before m
  | GotError h e => on_error_body h before e
  end.

(** The log of the state is a beginning of [log]. *)
Definition within (log : list observation) (st : transport) : Prop :=
  exists rest, log = seen st ++ rest.

(** Of the calls of callbacks that [log] records from position [from] on,
    none makes the call [onMessage(h)]. *)
Definition not_resubscribed (h : handler) (from : nat) (log : list observation)
    : Prop :=
  forall before d rest,
    log = before ++ d :: rest -> (from <= length before)%nat ->
    Forall (leaves_out h) (body_at before d).

Definition any_command (c : command) : Prop := True.

(** A value other than an object or an array: a number, a string, a
    boolean or null. *)
Definition primitive (v : json) : bool :=
  match v with
  | JObj _ | JArr _ => false
  | _ => true
  end.

(** A unit as the read loop hands it on: not empty, trimmed, on one line. *)
Definition proper_unit (u : jsstring) : Prop :=
  u <> [] /\ trim u = u /\ ~ In LF u.

(** Promise [p] is out of reach: no call has reached it, and neither an
    entry of the registry nor an armed timer holds its functions. *)
Definition abandoned (p : nat) (st : transport) : Prop :=
  (exists c, nth_error (promises st) p = Some c /\ settle_calls c = [])
  /\ (forall k pr, In (k, pr) (pending st) -> settles pr <> p)
  /\ (forall t tm, find_timer t (timers st) = Some tm -> tm_promise tm <> p).

End LifecycleVocabulary.

(** ** Example runs *)

Module Examples.
Import Reference.

(** No callback does anything. *)
Definition plain : Callbacks := scripted [].

(** The state after the events, from a fresh transport with a stdout. *)
Definition after (cb : Callbacks) (fuel : nat) (evs : list Transport.event)
    : Transport.transport :=
  match @Transport.run host cb fuel evs (Transport.create true) with
  | Some st => st
  | None => Transport.create true
  end.

(** The state one more event leads to, and the state a dispatch returns
    with. *)
Definition next (cb : Callbacks) (fuel : nat) (ev : Transport.event)
    (st : Transport.transport) : Transport.transport :=
  match @Transport.step host cb fuel ev st with
  | Some st' => st'
  | None => st
  end.

Definition returned (o : Transport.outcome) (st : Transport.transport)
    : Transport.transport :=
  match o with
  | Transport.Returns st' => st'
  | _ => st
  end.

Definition is_some {A : Type} (o : option A) : bool :=
  match o with Some _ => true | None => false end.

Definition returns (o : Transport.outcome) : bool :=
  match o with Transport.Returns _ => true | _ => false end.

(** The error the read loop's promise was rejected with, if it was. *)
Definition read_failure (st : Transport.transport) : option thrown :=
  match Transport.readLoop st with
  | Transport.ReadRejected e => Some e
  | _ => None
  end.

Definition list_request : Transport.event :=
  Transport.Call (CallRequest (js "thread/list") None 30000).

(** One request pending: id 0, promise 0, timer 0. *)
Definition one_pending : Transport.transport := after plain 0 [list_request].

Definition good_response : json := value "{'id':0,'result':{'data':[]}}".

Definition closed_down : Transport.transport :=
  after plain 0 [Transport.Call CallClose].

(** The read stream fails while a request is pending. *)
Definition stream_broke : list Transport.event :=
  [list_request; Transport.StdoutError (ErrorObject (js "read failed"))].

(** Callback 1, when invoked, subscribes callback 2 to messages. *)
Definition recruiting : Callbacks := scripted [(1%nat, [CallOnMessage 2%nat])].

Definition subscribed_1 : Transport.transport :=
  after recruiting 0 [Transport.Call (CallOnMessage 1%nat)].

Definition notification : json := value "{'method':'turn/started'}".

(** Error callback 1 throws; callback 2 listens to messages. *)
Definition throwing : Callbacks :=
  scripted [(1%nat, [Throw (ErrorObject (js "Unhandled error"))])].

Definition bad_then_good : list Transport.event :=
  [Transport.Call (CallOnError 1%nat); Transport.Call (CallOnMessage 2%nat);
   Transport.StdoutChunk (wire "not json|{'method':'turn/started'}|")].

Definition error_listener : Transport.transport :=
  after plain 0 [Transport.Call (CallOnError 1%nat)].

(** A turn whose first agent-message item has an empty text. *)
Definition turn_events (status : string) : list Client.event :=
  [Client.StartTurnSettled
     (Fulfilled (Some (value
        "{'turn':{'id':'turn-1','status':'inProgress','items':[]}}")));
   Client.Delivered (value
     "{'method':'item/completed','params':{'threadId':'th','turnId':'turn-1','item':{'type':'agentMessage','id':'item-1','text':''}}}");
   Client.Delivered (value
     "{'method':'item/completed','params':{'threadId':'th','turnId':'turn-1','item':{'type':'agentMessage','id':'item-2','text':'hello world'}}}");
   Client.Delivered (value
     "{'method':'turn/diff/updated','params':{'threadId':'th','turnId':'turn-1','diff':'d1'}}");
   Client.Delivered
     (JObj [(js "method", JStr (js "turn/completed"));
            (js "params",
             JObj [(js "threadId", JStr (js "th"));
                   (js "turn",
                    JObj [(js "id", JStr (js "turn-1"));
                          (js "status", JStr (js status));
                          (js "items", JArr []);
                          (js "error", JObj [(js "message", JStr (js "boom"))])])])])].

Definition ended_turn (status : string) : json :=
  JObj [(js "id", JStr (js "turn-1")); (js "status", JStr (js status));
        (js "items", JArr []);
        (js "error", JObj [(js "message", JStr (js "boom"))])].

(** The state a run leads to from the state [st]. *)
Definition later (cb : Callbacks) (fuel : nat) (evs : list Transport.event)
    (st : Transport.transport) : Transport.transport :=
  match @Transport.run host cb fuel evs st with
  | Some st' => st'
  | None => st
  end.

(** [close()] was called, stdout ended and the subprocess exited. *)
Definition wound_down : Transport.transport :=
  after plain 0
    [Transport.Call CallClose; Transport.StdoutEnd; Transport.ProcessExited 0].

(** Callback 1 listens to messages; it does nothing. *)
Definition listening_1 : Transport.transport :=
  after plain 0 [Transport.Call (CallOnMessage 1%nat)].

Definition a_request_then_shutdown : list Transport.event :=
  [list_request; Transport.Call CallClose; Transport.StdoutEnd;
   Transport.ProcessExited 0].

Definition turn_started : json :=
  value "{'turn':{'id':'turn-1','status':'inProgress','items':[]}}".

Definition turn_completed : json :=
  value "{'method':'turn/completed','params':{'threadId':'th','turn':{'id':'turn-1','status':'completed','items':[]}}}".


(** A response to request 0 whose error has a code that does not convert
    to a string, followed in the same chunk by a notification; then the
    timer of the request, and a well-formed response to it. *)
Definition lost_request : list Transport.event :=
  [Transport.Call (CallOnMessage 1%nat); list_request;
   Transport.StdoutChunk
     (wire "{'id':0,'error':{'code':{'toString':0},'message':'x'}}|{'method':'turn/started'}|");
   Transport.TimerFired 0;
   Transport.StdoutChunk (wire "{'id':0,'result':1}|")].

(** Callbacks 2 and 3 listen to messages.  Callback 1, which would
    subscribe callback 2, is not subscribed. *)
Definition listening_2_3 : Transport.transport :=
  after recruiting 0
    [Transport.Call (CallOnMessage 2%nat); Transport.Call (CallOnMessage 3%nat)].

End Examples.

(** * Properties *)

(** ** Strings and maps *)

Lemma str_eqb_spec (a b : jsstring) : str_eqb a b = true <-> a = b.
Proof.
  revert b; induction a as [|x a IH]; intros [|y b]; simpl; split;
    try congruence; try reflexivity.
  - intros H. apply andb_true_iff in H as [Hx Hr].
    apply N.eqb_eq in Hx. apply IH in Hr. congruence.
  - intros H. injection H as -> ->. rewrite N.eqb_refl. simpl. now apply IH.
Qed.

Lemma str_eqb_refl (a : jsstring) : str_eqb a a = true.
Proof. now apply str_eqb_spec. Qed.

Lemma str_eqb_neq (a b : jsstring) : a <> b -> str_eqb a b = false.
Proof.
  intros H. destruct (str_eqb a b) eqn:E; [|reflexivity].
  apply str_eqb_spec in E. contradiction.
Qed.

Section NumberMapFacts.
Variable V : Type.
Implicit Types (m : list (Z * V)) (k : Z) (v : V).

Lemma map_get_set k k' v m :
  map_get k (map_set k' v m) = if k' =? k then Some v else map_get k m.
Proof.
  induction m as [|[k0 v0] m IH]; simpl.
  - reflexivity.
  - destruct (k0 =? k') eqn:E0; simpl.
    + apply Z.eqb_eq in E0; subst k0. destruct (k' =? k); reflexivity.
    + rewrite IH. destruct (k0 =? k) eqn:E1; [|reflexivity].
      apply Z.eqb_eq in E1; subst k0. now rewrite Z.eqb_sym, E0.
Qed.

Lemma map_get_delete k k' m :
  map_get k (map_delete k' m) = if k' =? k then None else map_get k m.
Proof.
  unfold map_delete. induction m as [|[k0 v0] m IH]; simpl.
  - now destruct (k' =? k).
  - destruct (k0 =? k') eqn:E0; simpl.
    + apply Z.eqb_eq in E0; subst k0. rewrite IH. destruct (k' =? k); reflexivity.
    + rewrite IH. destruct (k0 =? k) eqn:E1; [|reflexivity].
      apply Z.eqb_eq in E1; subst k0. now rewrite Z.eqb_sym, E0.
Qed.

Lemma map_get_In k v m : map_get k m = Some v -> In (k, v) m.
Proof.
  induction m as [|[k0 v0] m IH]; simpl; [discriminate|].
  destruct (k0 =? k) eqn:E.
  - apply Z.eqb_eq in E. intros [= ->]. left; congruence.
  - auto.
Qed.

Lemma In_map_get k v m :
  NoDup (map fst m) -> In (k, v) m -> map_get k m = Some v.
Proof.
  induction m as [|[k0 v0] m IH]; simpl; [tauto|].
  intros Hnd [H|H]; inversion Hnd as [|? ? Hnotin Hnd']; subst.
  - injection H as -> ->. now rewrite Z.eqb_refl.
  - destruct (k0 =? k) eqn:E; [|auto].
    apply Z.eqb_eq in E; subst k0. exfalso. apply Hnotin.
    change k with (fst (k, v)). now apply in_map.
Qed.

Lemma map_get_None_notin k m :
  map_get k m = None -> ~ In k (map fst m).
Proof.
  induction m as [|[k0 v0] m IH]; simpl; [tauto|].
  destruct (k0 =? k) eqn:E; [discriminate|].
  apply Z.eqb_neq in E. intros H [H'|H']; [congruence|]. now apply IH.
Qed.

Lemma In_delete k k' v m :
  In (k, v) (map_delete k' m) <-> In (k, v) m /\ k <> k'.
Proof.
  unfold map_delete. rewrite filter_In. simpl.
  rewrite negb_true_iff, Z.eqb_neq. tauto.
Qed.

Lemma keys_delete k m :
  map fst (map_delete k m) = filter (fun x => negb (x =? k)) (map fst m).
Proof.
  unfold map_delete. induction m as [|[k0 v0] m IH]; simpl; [reflexivity|].
  destruct (k0 =? k); simpl; now rewrite IH.
Qed.

Lemma keys_set_In k k' v m :
  In k (map fst (map_set k' v m)) -> k = k' \/ In k (map fst m).
Proof.
  induction m as [|[k0 v0] m IH]; simpl.
  - intros [<-|[]]. now left.
  - destruct (k0 =? k') eqn:E; simpl.
    + apply Z.eqb_eq in E; subst k0. tauto.
    + intros [H|H]; [tauto|]. apply IH in H. tauto.
Qed.

Lemma NoDup_keys_set k v m :
  NoDup (map fst m) -> NoDup (map fst (map_set k v m)).
Proof.
  induction m as [|[k0 v0] m IH]; simpl; intros Hnd.
  - constructor; [tauto|constructor].
  - inversion Hnd as [|? ? Hnotin Hnd']; subst.
    destruct (k0 =? k) eqn:E; simpl.
    + apply Z.eqb_eq in E; subst k0. now constructor.
    + constructor; [|auto]. intros H. apply keys_set_In in H as [H|H]; [|tauto].
      apply Z.eqb_neq in E. congruence.
Qed.

Lemma NoDup_keys_delete k m :
  NoDup (map fst m) -> NoDup (map fst (map_delete k m)).
Proof. intros H. rewrite keys_delete. now apply NoDup_filter. Qed.

Lemma map_delete_set_fresh k v m :
  map_get k m = None -> map_delete k (map_set k v m) = m.
Proof.
  unfold map_delete. induction m as [|[k0 v0] m IH]; simpl.
  - now rewrite Z.eqb_refl.
  - destruct (k0 =? k) eqn:E; [discriminate|]. intros H. simpl.
    rewrite E. simpl. now rewrite IH.
Qed.
End NumberMapFacts.

(** ** The correlator: an invariant of the transport *)

Arguments map_delete : simpl never.
Arguments map_set : simpl never.
Arguments map_get : simpl never.

Section TransportFacts.
Context {host : Host} {callbacks : Callbacks}.
Import Transport.

Lemma find_timer_clear t t0 (l : list (nat * timer)) :
  find_timer t (filter (fun e => negb (Nat.eqb (fst e) t0)) l)
  = if Nat.eqb t0 t then None else find_timer t l.
Proof.
  induction l as [|[t1 c] l IH]; simpl.
  - now destruct (Nat.eqb t0 t).
  - destruct (Nat.eqb t1 t0) eqn:E0; simpl.
    + apply Nat.eqb_eq in E0; subst t1. rewrite IH.
      destruct (Nat.eqb t0 t); reflexivity.
    + rewrite IH. destruct (Nat.eqb t1 t) eqn:E1; [|reflexivity].
      apply Nat.eqb_eq in E1; subst t1. now rewrite Nat.eqb_sym, E0.
Qed.

Lemma find_timer_app t l t0 tm :
  find_timer t (l ++ [(t0, tm)])
  = match find_timer t l with
    | Some x => Some x
    | None => if Nat.eqb t0 t then Some tm else None
    end.
Proof.
  induction l as [|[t1 c] l IH]; simpl; [reflexivity|].
  destruct (Nat.eqb t1 t); [reflexivity|apply IH].
Qed.

Lemma nth_error_update_nth {A} p q (f : A -> A) (l : list A) :
  nth_error (update_nth p f l) q
  = if Nat.eqb p q then option_map f (nth_error l q) else nth_error l q.
Proof.
  revert p q; induction l as [|x l IH]; intros [|p] [|q]; simpl;
    try reflexivity.
  - now destruct (Nat.eqb p q).
  - apply IH.
Qed.

Lemma length_update_nth {A} p (f : A -> A) (l : list A) :
  length (update_nth p f l) = length l.
Proof.
  revert p; induction l as [|x l IH]; intros [|p]; simpl; auto.
Qed.

Lemma wf_retire st t tm s :
  wf st -> find_timer t (timers st) = Some tm ->
  wf (retire t (tm_id tm) (tm_promise tm) s st).
Proof.
  intros W Ht.
  assert (Hother : forall t2 tm2, find_timer t2 (timers st) = Some tm2 ->
            t2 <> t -> tm_promise tm2 <> tm_promise tm).
  { intros t2 tm2 H2 Hne Heq. apply Hne. eapply wf_timer_inj; eauto. }
  constructor; cbn.
  - apply NoDup_keys_delete, W.
  - intros k pr. rewrite map_get_delete.
    destruct (tm_id tm =? k) eqn:Ek; [discriminate|]. intros Hk.
    destruct (wf_pending W _ Hk) as (c & tm2 & Hc & Hid & Hs & Htm2 & Hp & Hi).
    assert (Hne : timeout pr <> t).
    { intros E. rewrite E, Ht in Htm2. injection Htm2 as <-.
      apply Z.eqb_neq in Ek. congruence. }
    exists c, tm2. rewrite nth_error_update_nth, find_timer_clear.
    destruct (Nat.eqb (tm_promise tm) (settles pr)) eqn:Ep.
    { apply Nat.eqb_eq in Ep. exfalso. apply (Hother _ _ Htm2 Hne). congruence. }
    destruct (Nat.eqb t (timeout pr)) eqn:Et.
    { apply Nat.eqb_eq in Et. congruence. }
    repeat split; auto.
  - intros t2 tm2. rewrite find_timer_clear.
    destruct (Nat.eqb t t2) eqn:Et; [discriminate|]. intros H2.
    apply Nat.eqb_neq in Et.
    destruct (wf_timers W _ H2) as (Hlt & c & Hc & Hid & Hm & Hs).
    split; [exact Hlt|]. exists c. rewrite nth_error_update_nth.
    destruct (Nat.eqb (tm_promise tm) (tm_promise tm2)) eqn:Ep.
    { apply Nat.eqb_eq in Ep. exfalso. apply (Hother _ _ H2); auto. }
    auto.
  - intros t1 t2 tm1 tm2. rewrite !find_timer_clear.
    destruct (Nat.eqb t t1); [discriminate|].
    destruct (Nat.eqb t t2); [discriminate|]. apply W.
  - intros p c. rewrite nth_error_update_nth.
    destruct (Nat.eqb (tm_promise tm) p) eqn:Ep.
    + apply Nat.eqb_eq in Ep; subst p.
      destruct (wf_timers W _ Ht) as (_ & c0 & Hc0 & _ & _ & Hs).
      rewrite Hc0. simpl. intros [= <-]. simpl. rewrite Hs. simpl. lia.
    + apply W.
  - apply W.
  - intros p c. rewrite nth_error_update_nth.
    destruct (Nat.eqb (tm_promise tm) p).
    + destruct (nth_error (promises st) p) as [c0|] eqn:Hc0; [|discriminate].
      simpl. intros [= <-]. simpl. eapply wf_ids; eauto.
    + apply W.
Qed.

Lemma evolves_refl st : evolves st st.
Proof.
  intros I. split; [exact I|]. split.
  - intros p c Hc. exists c. auto.
  - split; [lia|]. split; auto.
Qed.

Lemma evolves_trans st1 st2 st3 :
  evolves st1 st2 -> evolves st2 st3 -> evolves st1 st3.
Proof.
  intros H12 H23 I1.
  destruct (H12 I1) as (I2 & K12 & (L12 & C12 & A12)).
  destruct (H23 I2) as (I3 & K23 & (L23 & C23 & A23)).
  split; [exact I3|]. split.
  - intros p c Hc.
    destruct (K12 _ _ Hc) as (c2 & Hc2 & Hid2 & Hm2 & Hs2).
    destruct (K23 _ _ Hc2) as (c3 & Hc3 & Hid3 & Hm3 & Hs3).
    exists c3. repeat split; try congruence.
    intros Hne. specialize (Hs2 Hne). subst c2. auto.
  - split; [lia|]. split; [auto|].
    intros k Hk Hnone. apply A23; [lia|]. now apply A12.
Qed.

(** A change outside the registry, the promises, the timers, the counter
    and the lines already written. *)
Lemma evolves_frame st st' :
  pending st' = pending st -> promises st' = promises st ->
  timers st' = timers st -> timer_count st' = timer_count st ->
  nextRequestId st' = nextRequestId st ->
  (forall line, In line (stdin st) -> In line (stdin st')) ->
  (closed st = true -> closed st' = true) ->
  evolves st st'.
Proof.
  intros Hp Hq Ht Hn Hi Hs Hcl [W S]. split; [split|split].
  - destruct W as [W1 W2 W3 W4 W5 W6 W7].
    constructor; rewrite ?Hp, ?Hq, ?Ht, ?Hn, ?Hi; assumption.
  - unfold sent. intros k pr. rewrite Hp, Hq. intros Hk.
    destruct (S _ _ Hk) as (c & params & Hc & Hl). eauto.
  - unfold keeps_settled. intros p c Hc. exists c. rewrite Hq. auto.
  - unfold keeps_absent. rewrite Hp, Hi. split; [lia|]. split; auto.
Qed.

Ltac frame :=
  apply evolves_frame; try reflexivity;
  cbn; intros; try assumption; try reflexivity;
  try (apply in_or_app; now left).

Lemma evolves_retire st t tm s :
  find_timer t (timers st) = Some tm ->
  evolves st (retire t (tm_id tm) (tm_promise tm) s st).
Proof.
  intros Ht [W S]. split; [split|split].
  - now apply wf_retire.
  - unfold sent. intros k pr. cbn. rewrite map_get_delete.
    destruct (tm_id tm =? k) eqn:Ek; [discriminate|]. intros Hk.
    destruct (S _ _ Hk) as (c & params & Hc & Hl).
    rewrite nth_error_update_nth, Hc.
    destruct (Nat.eqb (tm_promise tm) (settles pr)); simpl;
      eexists; exists params; (split; [reflexivity|exact Hl]).
  - unfold keeps_settled. intros p c Hc. cbn.
    rewrite nth_error_update_nth, Hc.
    destruct (Nat.eqb (tm_promise tm) p) eqn:Ep; simpl.
    + apply Nat.eqb_eq in Ep; subst p.
      destruct (wf_timers W _ Ht) as (_ & c0 & Hc0 & _ & _ & Hs0).
      assert (c0 = c) by congruence; subst c0.
      exists (settle_cell s c). repeat (split; [reflexivity|]). congruence.
    + exists c. repeat (split; [reflexivity|]). reflexivity.
  - unfold keeps_absent. cbn. split; [lia|]. split; [auto|].
    intros k _ Hk. rewrite map_get_delete, Hk.
    now destruct (tm_id tm =? k).
Qed.

Lemma wf_dropped st t tm :
  wf st -> find_timer t (timers st) = Some tm -> wf (dropped t (tm_id tm) st).
Proof.
  intros W Ht. constructor; cbn; try apply W.
  - apply NoDup_keys_delete, W.
  - intros k pr. rewrite map_get_delete.
    destruct (tm_id tm =? k) eqn:Ek; [discriminate|]. intros Hk.
    destruct (wf_pending W _ Hk) as (c & tm2 & Hc & Hid & Hs & Htm2 & Hp & Hi).
    assert (Hne : timeout pr <> t).
    { intros E. rewrite E, Ht in Htm2. injection Htm2 as <-.
      apply Z.eqb_neq in Ek. congruence. }
    exists c, tm2. rewrite find_timer_clear.
    destruct (Nat.eqb t (timeout pr)) eqn:Et.
    { apply Nat.eqb_eq in Et. congruence. }
    repeat split; auto.
  - intros t2 tm2. rewrite find_timer_clear.
    destruct (Nat.eqb t t2); [discriminate|]. apply W.
  - intros t1 t2 tm1 tm2. rewrite !find_timer_clear.
    destruct (Nat.eqb t t1); [discriminate|].
    destruct (Nat.eqb t t2); [discriminate|]. apply W.
Qed.

Lemma evolves_dropped st t tm :
  find_timer t (timers st) = Some tm -> evolves st (dropped t (tm_id tm) st).
Proof.
  intros Ht [W S]. split; [split|split].
  - now apply wf_dropped.
  - unfold sent. intros k pr. cbn. rewrite map_get_delete.
    destruct (tm_id tm =? k) eqn:Ek; [discriminate|]. intros Hk.
    destruct (S _ _ Hk) as (c & params & Hc & Hl). eauto.
  - unfold keeps_settled. intros p c Hc. cbn. exists c. auto.
  - unfold keeps_absent. cbn. split; [lia|]. split; [auto|].
    intros k _ Hk. rewrite map_get_delete, Hk.
    now destruct (tm_id tm =? k).
Qed.

Lemma request_unfold method params ms st :
  request method params ms st
  = (length (promises st),
     if closed st
     then retire (timer_count st) (nextRequestId st) (length (promises st))
            (Rejected (js "transport is closed")) (registered method ms st)
     else with_stdin (stdin st ++ [request_line method (nextRequestId st) params])
            (registered method ms st)).
Proof.
  unfold request, send. cbn. destruct (closed st); reflexivity.
Qed.

Lemma js_increment_bounds n :
  0 <= n <= 2 ^ 53 ->
  0 <= js_increment n <= 2 ^ 53 /\ n <= js_increment n
  /\ (n < js_increment n \/ js_increment n = 2 ^ 53).
Proof.
  unfold js_increment. intros H. destruct (n <? 2 ^ 53) eqn:E.
  - apply Z.ltb_lt in E. lia.
  - apply Z.ltb_ge in E. lia.
Qed.

Lemma fresh_timer st : wf st -> find_timer (timer_count st) (timers st) = None.
Proof.
  intros W. destruct (find_timer (timer_count st) (timers st)) eqn:E; [|reflexivity].
  apply (wf_timers W) in E. lia.
Qed.

Lemma nth_error_snoc {A} (l : list A) x p :
  nth_error (l ++ [x]) p
  = if Nat.eqb p (length l) then Some x else nth_error l p.
Proof.
  destruct (Nat.eqb p (length l)) eqn:E.
  - apply Nat.eqb_eq in E; subst p.
    rewrite nth_error_app2, Nat.sub_diag by lia. reflexivity.
  - apply Nat.eqb_neq in E. destruct (Nat.lt_ge_cases p (length l)).
    + now apply nth_error_app1.
    + rewrite (proj2 (nth_error_None l p)) by lia.
      apply nth_error_None. rewrite length_app. simpl. lia.
Qed.

Lemma nth_error_lt {A} (l : list A) p c : nth_error l p = Some c -> (p < length l)%nat.
Proof. intros H. apply nth_error_Some. congruence. Qed.

Lemma wf_registered method ms st : wf st -> wf (registered method ms st).
Proof.
  intros W. pose proof (fresh_timer W) as Hfresh.
  pose proof (js_increment_bounds (wf_counter W)) as (Hb & Hle & Hlt).
  constructor; cbn.
  - apply NoDup_keys_set, W.
  - intros k pr. rewrite map_get_set.
    destruct (nextRequestId st =? k) eqn:Ek.
    + apply Z.eqb_eq in Ek; subst k. intros [= <-]. cbn.
      eexists; eexists. rewrite nth_error_snoc, Nat.eqb_refl.
      rewrite find_timer_app, Hfresh, Nat.eqb_refl.
      repeat (split; [reflexivity|]). reflexivity.
    + intros Hk.
      destruct (wf_pending W _ Hk) as (c & tm & Hc & Hid & Hs & Htm & Hp & Hi).
      exists c, tm. rewrite nth_error_snoc, find_timer_app, Htm.
      pose proof (nth_error_lt _ _ Hc) as Hl.
      destruct (Nat.eqb (settles pr) (length (promises st))) eqn:E.
      { apply Nat.eqb_eq in E. lia. }
      repeat split; assumption.
  - intros t tm. rewrite find_timer_app.
    destruct (find_timer t (timers st)) as [tm0|] eqn:E.
    + intros [= <-]. destruct (wf_timers W _ E) as (Hlt' & c & Hc & Hrest).
      split; [lia|]. exists c. rewrite nth_error_snoc.
      pose proof (nth_error_lt _ _ Hc) as Hl.
      destruct (Nat.eqb (tm_promise tm0) (length (promises st))) eqn:E'.
      { apply Nat.eqb_eq in E'. lia. }
      split; [exact Hc|exact Hrest].
    + destruct (Nat.eqb (timer_count st) t) eqn:Et; [|discriminate].
      apply Nat.eqb_eq in Et; subst t. intros [= <-]. cbn.
      split; [lia|]. eexists. rewrite nth_error_snoc, Nat.eqb_refl.
      repeat (split; [reflexivity|]). reflexivity.
  - intros t1 t2 tm1 tm2. rewrite !find_timer_app.
    destruct (find_timer t1 (timers st)) as [a|] eqn:E1;
      destruct (find_timer t2 (timers st)) as [b|] eqn:E2.
    + intros [= <-] [= <-]. eapply wf_timer_inj; eauto.
    + destruct (Nat.eqb (timer_count st) t2); [|discriminate].
      intros [= <-] [= <-]. cbn. intros Hp.
      destruct (wf_timers W _ E1) as (_ & c & Hc & _).
      apply nth_error_lt in Hc. lia.
    + destruct (Nat.eqb (timer_count st) t1); [|discriminate].
      intros [= <-] [= <-]. cbn. intros Hp.
      destruct (wf_timers W _ E2) as (_ & c & Hc & _).
      apply nth_error_lt in Hc. lia.
    + destruct (Nat.eqb (timer_count st) t1) eqn:Ea; [|discriminate].
      destruct (Nat.eqb (timer_count st) t2) eqn:Eb; [|discriminate].
      apply Nat.eqb_eq in Ea, Eb. congruence.
  - intros p c. rewrite nth_error_snoc.
    destruct (Nat.eqb p (length (promises st))).
    + intros [= <-]. simpl. lia.
    + apply W.
  - exact Hb.
  - intros p c. rewrite nth_error_snoc.
    destruct (Nat.eqb p (length (promises st))).
    + intros [= <-]. cbn. exact Hlt.
    + intros Hc. destruct (wf_ids W _ Hc) as [H|H]; [left; lia|].
      right. unfold js_increment. rewrite H. reflexivity.
Qed.

Lemma wf_frame st st' :
  pending st' = pending st -> promises st' = promises st ->
  timers st' = timers st -> timer_count st' = timer_count st ->
  nextRequestId st' = nextRequestId st -> wf st -> wf st'.
Proof.
  intros Hp Hq Ht Hn Hi [W1 W2 W3 W4 W5 W6 W7].
  constructor; rewrite ?Hp, ?Hq, ?Ht, ?Hn, ?Hi; assumption.
Qed.

Lemma nth_error_snoc_old {A} (l : list A) x p c :
  nth_error l p = Some c -> nth_error (l ++ [x]) p = Some c.
Proof.
  intros H. rewrite nth_error_app1; [exact H|]. eapply nth_error_lt; eauto.
Qed.

Lemma evolves_request method params ms st :
  evolves st (snd (request method params ms st)).
Proof.
  rewrite request_unfold. cbn [snd]. intros [W S].
  pose proof (wf_registered method ms W) as Wr.
  pose proof (js_increment_bounds (wf_counter W)) as (Hb & Hle & Hlt).
  assert (Hold : forall p c x, nth_error (promises st) p = Some c ->
            Nat.eqb (length (promises st)) p = false
            /\ nth_error (promises st ++ [x]) p = Some c).
  { intros p c x Hc. split; [|now apply nth_error_snoc_old].
    apply Nat.eqb_neq. apply nth_error_lt in Hc. lia. }
  destruct (closed st).
  - assert (Ht : find_timer (timer_count st) (timers (registered method ms st))
                 = Some {| tm_id := nextRequestId st; tm_method := method;
                           tm_promise := length (promises st); tm_ms := ms |}).
    { cbn. now rewrite find_timer_app, (fresh_timer W), Nat.eqb_refl. }
    split; [split|split].
    + eapply wf_retire in Ht; [exact Ht|exact Wr].
    + unfold sent. intros k pr. cbn. rewrite map_get_delete, map_get_set.
      destruct (nextRequestId st =? k); [discriminate|]. intros Hk.
      destruct (S _ _ Hk) as (c & ps & Hc & Hl). exists c, ps.
      rewrite nth_error_update_nth.
      destruct (Hold _ _ {| made_id := nextRequestId st; made_method := method;
                            settle_calls := [] |} Hc) as [-> ->].
      split; [reflexivity|exact Hl].
    + unfold keeps_settled. intros p c Hc. cbn. exists c.
      rewrite nth_error_update_nth.
      destruct (Hold _ _ {| made_id := nextRequestId st; made_method := method;
                            settle_calls := [] |} Hc) as [-> ->].
      repeat (split; [reflexivity|]). reflexivity.
    + unfold keeps_absent. cbn. split; [exact Hle|]. split; [auto|].
      intros k Hk Hnone.
      rewrite map_get_delete, map_get_set, Hnone.
      now destruct (nextRequestId st =? k).
  - split; [split|split].
    + revert Wr. apply wf_frame; reflexivity.
    + unfold sent. intros k pr. cbn. rewrite map_get_set.
      destruct (nextRequestId st =? k) eqn:Ek.
      * apply Z.eqb_eq in Ek; subst k. intros [= <-]. cbn.
        eexists; exists params. rewrite nth_error_snoc, Nat.eqb_refl.
        split; [reflexivity|]. cbn. apply in_or_app. right. now left.
      * intros Hk. destruct (S _ _ Hk) as (c & ps & Hc & Hl). exists c, ps.
        split; [now apply nth_error_snoc_old|]. apply in_or_app. now left.
    + unfold keeps_settled. intros p c Hc. cbn. exists c.
      split; [now apply nth_error_snoc_old|].
      repeat (split; [reflexivity|]). reflexivity.
    + unfold keeps_absent. cbn. split; [exact Hle|]. split; [auto|].
      intros k Hk Hnone.
      rewrite map_get_set, Hnone.
      destruct (nextRequestId st =? k) eqn:Ek; [|reflexivity].
      apply Z.eqb_eq in Ek. lia.
Qed.

Lemma resolvePending_unfold response st :
  resolvePending response st
  = match as_integer (prop "id" response) with
    | None => Returns st
    | Some id =>
        match map_get id (pending st) with
        | None => Returns st
        | Some p =>
            match verdict response with
            | inr s => Returns (retire (timeout p) id (settles p) s st)
            | inl type_error =>
                Throws (ErrorObject type_error) (dropped (timeout p) id st)
            end
        end
    end.
Proof.
  unfold resolvePending, verdict, retire, dropped.
  destruct (as_integer (prop "id" response)); [|reflexivity].
  destruct (map_get z (pending st)); [|reflexivity].
  destruct (prop "error" response); [|reflexivity].
  destruct (truthy (Some j)); [|reflexivity].
  destruct (formatJsonRpcError j); reflexivity.
Qed.

Lemma evolves_pending_retire st k pr s :
  map_get k (pending st) = Some pr ->
  evolves st (retire (timeout pr) k (settles pr) s st).
Proof.
  intros Hk I.
  destruct (wf_pending (proj1 I) _ Hk) as (c & tm & _ & _ & _ & Htm & Hp & Hi).
  rewrite <- Hp, <- Hi. now apply evolves_retire.
Qed.

Lemma evolves_pending_dropped st k pr :
  map_get k (pending st) = Some pr ->
  evolves st (dropped (timeout pr) k st).
Proof.
  intros Hk I.
  destruct (wf_pending (proj1 I) _ Hk) as (c & tm & _ & _ & _ & Htm & Hp & Hi).
  rewrite <- Hi. now apply evolves_dropped.
Qed.

Lemma evolves_resolvePending response st :
  outcome_evolves st (resolvePending response st).
Proof.
  rewrite resolvePending_unfold.
  destruct (as_integer (prop "id" response)); [|apply evolves_refl].
  destruct (map_get z (pending st)) eqn:Hk; [|apply evolves_refl].
  destruct (verdict response); simpl.
  - now apply evolves_pending_dropped.
  - now apply evolves_pending_retire.
Qed.

Lemma evolves_timer_fires t st : evolves st (timer_fires t st).
Proof.
  unfold timer_fires. destruct (find_timer t (timers st)) as [tm|] eqn:Ht.
  - change (evolves st (retire t (tm_id tm) (tm_promise tm)
                          (Rejected (timeout_error (tm_method tm))) st)).
    apply evolves_retire. exact Ht.
  - apply evolves_refl.
Qed.

Lemma evolves_reject_each error entries :
  forall st,
    (forall k pr, In (k, pr) entries -> map_get k (pending st) = Some pr) ->
    NoDup (map fst entries) ->
    evolves st (reject_each error entries st).
Proof.
  induction entries as [|[id p] rest IH]; intros st Hin Hnd; simpl.
  - apply evolves_refl.
  - inversion Hnd as [|? ? Hnotin Hnd']; subst.
    change (evolves st
              (reject_each error rest
                 (retire (timeout p) id (settles p) (Rejected error) st))).
    eapply evolves_trans.
    + apply evolves_pending_retire. apply Hin. now left.
    + apply IH; [|exact Hnd']. intros k pr Hk. cbn. rewrite map_get_delete.
      destruct (id =? k) eqn:E.
      * apply Z.eqb_eq in E; subst k. exfalso. apply Hnotin.
        change id with (fst (id, pr)). now apply in_map.
      * apply Hin. now right.
Qed.

Lemma evolves_rejectAllPending error st : evolves st (rejectAllPending error st).
Proof.
  intros I. apply evolves_reject_each; [|apply I|exact I].
  intros k pr. apply In_map_get, I.
Qed.

Lemma evolves_close st : evolves st (close st).
Proof.
  unfold close. destruct (closed st); [apply evolves_refl|].
  frame.
Qed.

Lemma evolves_close_resume st : evolves st (close_resume st).
Proof.
  unfold close_resume. eapply evolves_trans with (st2 := close_after_readLoop st).
  - unfold close_after_readLoop.
    destruct (closing st), (readLoop st);
      (apply evolves_refl || frame).
  - generalize (close_after_readLoop st) as st1. intros st1.
    unfold close_after_exited.
    destruct (closing st1); try apply evolves_refl.
    destruct (exited st1); [|apply evolves_refl].
    eapply evolves_trans; [apply evolves_rejectAllPending|].
    frame.
Qed.

Lemma outcome_evolves_trans st st1 o :
  evolves st st1 -> outcome_evolves st1 o -> outcome_evolves st o.
Proof. destruct o; simpl; eauto using evolves_trans. Qed.

Lemma evolves_call c st : outcome_evolves st (call c st).
Proof.
  destruct c; simpl; try (frame; fail);
    try apply evolves_refl.
  - apply evolves_request.
  - unfold send. destruct (closed st); simpl; [apply evolves_refl|].
    frame.
  - apply evolves_close.
Qed.

Lemma evolves_run_body body : forall st, outcome_evolves st (run_body body st).
Proof.
  induction body as [|c rest IH]; intros st; simpl.
  - apply evolves_refl.
  - pose proof (evolves_call c st) as Hc.
    destruct (call c st) as [st'| |]; simpl in *; auto.
    eapply outcome_evolves_trans; eauto.
Qed.

Lemma evolves_invoke ch h st : outcome_evolves st (invoke ch h st).
Proof.
  unfold invoke.
  eapply outcome_evolves_trans; [|apply evolves_run_body].
  frame.
Qed.

Lemma evolves_emit_from ch fuel :
  forall i st, outcome_evolves st (emit_from ch fuel i st).
Proof.
  induction fuel as [|fuel IH]; intros i st; simpl;
    destruct (nth_error (entries ch st) i) as [[h|]|]; simpl;
    try apply evolves_refl; try exact I; auto.
  pose proof (evolves_invoke ch h st) as Hh.
  destruct (invoke ch h st); simpl in *; auto.
  eapply outcome_evolves_trans; eauto.
Qed.

Lemma evolves_handleLine fuel line st : outcome_evolves st (handleLine fuel line st).
Proof.
  unfold handleLine. destruct (JSON_parse line) as [message|].
  - destruct (isJsonRpcResponse message) as [e|[|]]; simpl.
    + apply evolves_refl.
    + pose proof (evolves_resolvePending message st) as Hr.
      destruct (resolvePending message st) as [s1|e s1|]; simpl in *; auto.
      eapply outcome_evolves_trans; [exact Hr|]. apply evolves_emit_from.
    + apply evolves_emit_from.
  - apply evolves_emit_from.
Qed.

Lemma evolves_read_lines n fuel dec :
  forall buffer st, outcome_evolves st (read_lines n fuel dec buffer st).
Proof.
  induction n as [|n IH]; intros buffer st; simpl;
    destruct (indexOf LF buffer) as [newline|]; simpl; try exact I;
    try (frame; fail).
  destruct (0 <? length (trim (slice_to newline buffer)))%nat.
  - pose proof (evolves_handleLine fuel (trim (slice_to newline buffer)) st) as H.
    destruct (handleLine fuel (trim (slice_to newline buffer)) st);
      simpl in *; auto.
    eapply outcome_evolves_trans; eauto.
  - apply IH.
Qed.

Lemma evolves_state_of st o st' :
  outcome_evolves st o -> state_of o = Some st' -> evolves st st'.
Proof. destruct o; simpl; intros H [= <-] || discriminate; exact H. Qed.

Lemma evolves_settle_readLoop st final o st' :
  outcome_evolves st o -> settle_readLoop final o = Some st' -> evolves st st'.
Proof.
  destruct o; simpl; intros H E; try discriminate; injection E as <-;
    (eapply evolves_trans; [exact H|frame]).
Qed.

Lemma evolves_on_chunk fuel value st st' :
  on_chunk fuel value st = Some st' -> evolves st st'.
Proof.
  unfold on_chunk. destruct (readLoop st) as [dec buffer| |].
  - destruct (decode dec value) as [dec' text].
    pose proof (evolves_read_lines (length (buffer ++ text)) fuel dec'
                  (buffer ++ text) st) as H.
    destruct (read_lines _ fuel dec' (buffer ++ text) st); simpl in *;
      intros E; try discriminate; injection E as <-; auto.
    eapply evolves_trans; [exact H|frame].
  - intros [= <-]. apply evolves_refl.
  - intros [= <-]. apply evolves_refl.
Qed.

Lemma evolves_on_end fuel st st' : on_end fuel st = Some st' -> evolves st st'.
Proof.
  unfold on_end. destruct (readLoop st) as [dec buffer| |];
    try (intros [= <-]; apply evolves_refl).
  apply evolves_settle_readLoop.
  destruct (0 <? length (trim buffer))%nat.
  - apply evolves_handleLine.
  - apply evolves_refl.
Qed.

Lemma evolves_exited_then fuel code st : outcome_evolves st (exited_then fuel code st).
Proof.
  unfold exited_then. destruct (closeInitiated st); [apply evolves_refl|].
  eapply outcome_evolves_trans; [apply evolves_rejectAllPending|].
  apply evolves_emit_from.
Qed.

Lemma evolves_exited_catch fuel e st : outcome_evolves st (exited_catch fuel e st).
Proof.
  unfold exited_catch. destruct (toError e); simpl; [apply evolves_refl|].
  eapply outcome_evolves_trans; [apply evolves_rejectAllPending|].
  apply evolves_emit_from.
Qed.

Lemma evolves_with_exited st : evolves st (with_exited st).
Proof. frame. Qed.

Lemma evolves_close_after_exited st : evolves st (close_after_exited st).
Proof.
  unfold close_after_exited.
  destruct (closing st); try apply evolves_refl.
  destruct (exited st); [|apply evolves_refl].
  eapply evolves_trans; [apply evolves_rejectAllPending|]. frame.
Qed.

Theorem evolves_step fuel ev st st' : step fuel ev st = Some st' -> evolves st st'.
Proof.
  unfold step.
  match goal with
  | |- option_map_state _ ?o = _ -> _ =>
      destruct o as [st1|] eqn:E; simpl; [|discriminate]
  end.
  intros [= <-]. eapply evolves_trans; [|apply evolves_close_resume].
  destruct ev.
  - eapply evolves_state_of; [apply evolves_call|exact E].
  - eapply evolves_on_chunk; exact E.
  - eapply evolves_on_end; exact E.
  - injection E as <-. unfold on_read_error.
    destruct (readLoop st); (apply evolves_refl || frame).
  - destruct (exited st); [injection E as <-; apply evolves_refl|].
    eapply evolves_trans; [apply evolves_with_exited|].
    pose proof (evolves_exited_then fuel code (with_exited st)) as H.
    destruct (exited_then fuel code (with_exited st)) as [s1|e s1|];
      simpl in *; try discriminate.
    + now injection E as <-.
    + eapply evolves_trans; [exact H|].
      eapply evolves_state_of; [apply evolves_exited_catch|exact E].
  - destruct (exited st); [injection E as <-; apply evolves_refl|].
    eapply evolves_trans; [apply evolves_with_exited|].
    eapply evolves_trans; [apply evolves_close_after_exited|].
    eapply evolves_state_of; [apply evolves_exited_catch|exact E].
  - injection E as <-. apply evolves_timer_fires.
Qed.

Lemma evolves_run fuel evs : forall st st', run fuel evs st = Some st' -> evolves st st'.
Proof.
  induction evs as [|ev evs IH]; intros st st'; simpl.
  - intros [= <-]. apply evolves_refl.
  - destruct (step fuel ev st) as [st1|] eqn:E; [|discriminate].
    intros H. eapply evolves_trans; [eapply evolves_step; exact E|eauto].
Qed.

Lemma inv_create stdout_present : inv (create stdout_present).
Proof.
  split; [constructor|]; cbn; try discriminate.
  - constructor.
  - intros [|p] c; discriminate.
  - lia.
  - intros [|p] c; discriminate.
Qed.

Theorem reachable_inv st : reachable st -> inv st.
Proof.
  induction 1 as [b|fuel ev st st' _ IH Hstep].
  - apply inv_create.
  - eapply evolves_step in Hstep. exact (proj1 (Hstep IH)).
Qed.

Lemma reachable_run fuel evs :
  forall st st', reachable st -> run fuel evs st = Some st' -> reachable st'.
Proof.
  induction evs as [|ev evs IH]; intros st st' R; simpl.
  - now intros [= <-].
  - destruct (step fuel ev st) as [st1|] eqn:E; [|discriminate].
    apply IH. eapply reachable_step; eauto.
Qed.

(** ** The request correlator *)

Lemma settled_stays st st' p c :
  inv st -> evolves st st' ->
  nth_error (promises st) p = Some c -> settle_calls c <> [] ->
  nth_error (promises st') p = Some c.
Proof.
  intros I E Hc Hne. destruct (E I) as (_ & K & _).
  destruct (K _ _ Hc) as (c' & Hc' & _ & _ & Heq). now rewrite Hc', Heq.
Qed.

Lemma settle_cell_settled s c : settle_calls (settle_cell s c) <> [].
Proof. simpl. now destruct (settle_calls c). Qed.

(** C6. A request whose timer fires while it is still armed, that is before
    any response with its id was handled, is rejected with the error
    "Request timed out for method M" for its own method M, and its id [k]
    leaves the pending registry.  Whatever happens later, a response with
    id [k] finds no entry: [resolvePending] returns the state unchanged, so
    it settles nothing, and the promise keeps the one rejection it got.
    (An id is a JavaScript number: the statement is for ids below 2^53,
    where the counter of the transport still grows.) *)
Theorem timeout_then_late_response st t tm fuel st1 :
  reachable st ->
  find_timer t (timers st) = Some tm ->
  tm_id tm < 2 ^ 53 ->
  step fuel (TimerFired t) st = Some st1 ->
  let timed_out := Rejected (js "Request timed out for method " ++ tm_method tm) in
  exists c,
    nth_error (promises st) (tm_promise tm) = Some c
    /\ made_id c = tm_id tm /\ made_method c = tm_method tm
    /\ settle_calls c = []
    /\ nth_error (promises st1) (tm_promise tm) = Some (settle_cell timed_out c)
    /\ promise_state (tm_promise tm) st1 = Some timed_out
    /\ map_get (tm_id tm) (pending st1) = None
    /\ forall fuel' evs st2 response,
         run fuel' evs st1 = Some st2 ->
         as_integer (prop "id" response) = Some (tm_id tm) ->
         resolvePending response st2 = Returns st2
         /\ nth_error (promises st2) (tm_promise tm)
            = Some (settle_cell timed_out c).
Proof.
  intros R Ht Hsmall Hstep timed_out.
  pose proof (reachable_inv R) as I. destruct I as [W S].
  destruct (wf_timers W _ Ht) as (_ & c & Hc & Hid & Hm & Hs).
  exists c. repeat (split; [assumption|]).
  unfold step in Hstep. simpl in Hstep. injection Hstep as <-.
  set (sta := timer_fires t st).
  assert (Ea : sta = retire t (tm_id tm) (tm_promise tm) timed_out st).
  { unfold sta, timer_fires. now rewrite Ht. }
  assert (Ia : inv sta).
  { rewrite Ea. apply (@evolves_retire st t tm timed_out Ht). now split. }
  assert (Hca : nth_error (promises sta) (tm_promise tm)
                = Some (settle_cell timed_out c)).
  { rewrite Ea. cbn. now rewrite nth_error_update_nth, Nat.eqb_refl, Hc. }
  assert (Hka : tm_id tm < nextRequestId sta
                /\ map_get (tm_id tm) (pending sta) = None).
  { rewrite Ea. cbn. rewrite map_get_delete, Z.eqb_refl. split; [|reflexivity].
    destruct (wf_ids W _ Hc) as [H|H]; lia. }
  pose proof (@evolves_close_resume sta) as E1.
  destruct (E1 Ia) as (I1 & _ & (L1 & _ & A1)).
  assert (Hc1 : nth_error (promises (close_resume sta)) (tm_promise tm)
                = Some (settle_cell timed_out c)).
  { apply (@settled_stays sta (close_resume sta) _ _ Ia E1 Hca).
    apply settle_cell_settled. }
  split; [exact Hc1|]. split.
  { unfold promise_state. rewrite Hc1. simpl. now rewrite Hs. }
  split; [apply A1; tauto|].
  intros fuel' evs st2 response Hrun Hresp.
  pose proof (evolves_run _ _ Hrun) as E2.
  destruct (E2 I1) as (_ & _ & (_ & _ & A2)).
  split.
  - rewrite resolvePending_unfold, Hresp, A2; [reflexivity|lia|].
    apply A1; tauto.
  - apply (@settled_stays (close_resume sta) st2 _ _ I1 E2 Hc1).
    apply settle_cell_settled.
Qed.

Lemma find_timer_In t x (l : list (nat * timer)) :
  In (t, x) l -> exists y, find_timer t l = Some y.
Proof.
  induction l as [|[t1 c] l IH]; simpl; [tauto|].
  intros [H|H].
  - injection H as -> ->. rewrite Nat.eqb_refl. eauto.
  - destruct (Nat.eqb t1 t); eauto.
Qed.

Lemma filter_all {A} (f : A -> bool) (l : list A) :
  (forall x, In x l -> f x = true) -> filter f l = l.
Proof.
  induction l as [|x l IH]; simpl; intros H; [reflexivity|].
  rewrite (H x) by now left. f_equal. apply IH. intros y Hy. apply H. now right.
Qed.

Lemma update_nth_snoc {A} (f : A -> A) (l : list A) x :
  update_nth (length l) f (l ++ [x]) = l ++ [f x].
Proof. induction l as [|y l IH]; simpl; [reflexivity|now rewrite IH]. Qed.

Lemma fresh_id st :
  wf st -> nextRequestId st < 2 ^ 53 ->
  map_get (nextRequestId st) (pending st) = None.
Proof.
  intros W Hlt. destruct (map_get (nextRequestId st) (pending st)) as [pr|] eqn:E;
    [|reflexivity].
  destruct (wf_pending W _ E) as (c & _ & Hc & Hid & _).
  destruct (wf_ids W _ Hc); lia.
Qed.

(** C10. On a transport that has been closed, [request], for any method and
    params, returns a promise that it rejects with "transport is closed";
    the timer it armed is cleared and the entry it added is deleted, so the
    timers and the pending registry are as before the call.  Of the state of
    the transport only the id counter has moved; besides it the runtime has
    one more (rejected) promise and has used one timer handle.
    (The counter is a JavaScript number: the statement is for a counter
    below 2^53.) *)
Theorem request_on_closed_transport st method params ms :
  reachable st -> closed st = true -> nextRequestId st < 2 ^ 53 ->
  let p := fst (request method params ms st) in
  let st' := snd (request method params ms st) in
  let rejected := {| made_id := nextRequestId st; made_method := method;
                     settle_calls := [Rejected (js "transport is closed")] |} in
  p = length (promises st)
  /\ promise_state p st' = Some (Rejected (js "transport is closed"))
  /\ timers st' = timers st
  /\ pending st' = pending st
  /\ nextRequestId st' = nextRequestId st + 1
  /\ st' = with_timers (timers st) (S (timer_count st))
             (with_promises (promises st ++ [rejected])
                (with_nextRequestId (nextRequestId st + 1) st)).
Proof.
  intros R Hclosed Hlt p st' rejected. subst p st'.
  destruct (reachable_inv R) as [W _].
  rewrite request_unfold, Hclosed. cbn [fst snd].
  assert (Hp : map_delete (nextRequestId st)
                 (map_set (nextRequestId st)
                    {| settles := length (promises st); timeout := timer_count st |}
                    (pending st)) = pending st).
  { apply map_delete_set_fresh, fresh_id; assumption. }
  assert (Ht : forall tm,
             filter (fun e => negb (Nat.eqb (fst e) (timer_count st)))
               (timers st ++ [(timer_count st, tm)]) = timers st).
  { intros tm. rewrite filter_app. simpl. rewrite Nat.eqb_refl. simpl.
    rewrite app_nil_r. apply filter_all. intros [t x] Hin. simpl.
    destruct (find_timer_In _ _ _ Hin) as [y Hy].
    apply (wf_timers W) in Hy. apply negb_true_iff, Nat.eqb_neq. lia. }
  assert (Hi : js_increment (nextRequestId st) = nextRequestId st + 1).
  { unfold js_increment. now rewrite (proj2 (Z.ltb_lt _ _) Hlt). }
  assert (Hst : retire (timer_count st) (nextRequestId st) (length (promises st))
                  (Rejected (js "transport is closed")) (registered method ms st)
                = with_timers (timers st) (S (timer_count st))
                    (with_promises (promises st ++ [rejected])
                       (with_nextRequestId (nextRequestId st + 1) st))).
  { unfold retire, registered, settle, clearTimeout. cbn.
    rewrite Hp, Ht, Hi, update_nth_snoc. reflexivity. }
  rewrite Hst. unfold promise_state. cbn.
  rewrite nth_error_snoc, Nat.eqb_refl. simpl.
  repeat (split; [reflexivity|]). reflexivity.
Qed.

(** ** Shutdown *)

Lemma close_resume_idem st : close_resume (close_resume st) = close_resume st.
Proof.
  unfold close_resume, close_after_readLoop, close_after_exited.
  destruct (closing st) eqn:Ec; destruct (readLoop st) eqn:Er;
    destruct (exited st) eqn:Ee; cbn; rewrite ?Ec, ?Er, ?Ee; cbn;
    rewrite ?Ec, ?Er, ?Ee; reflexivity.
Qed.

Lemma step_quiescent fuel ev st st' :
  step fuel ev st = Some st' -> close_resume st' = st'.
Proof.
  unfold step.
  match goal with
  | |- option_map_state _ ?o = _ -> _ => destruct o; simpl; [|discriminate]
  end.
  intros [= <-]. apply close_resume_idem.
Qed.

Lemma reachable_quiescent st : reachable st -> close_resume st = st.
Proof.
  destruct 1 as [b|fuel ev st st' _ Hstep].
  - now destruct b.
  - eapply step_quiescent; eauto.
Qed.

Lemma closed_stays st st' :
  inv st -> evolves st st' -> closed st = true -> closed st' = true.
Proof. intros I E. destruct (E I) as (_ & _ & (_ & C & _)). exact C. Qed.

(** C9. Once [close()] has been called, whatever happened since (so also
    when that first call has completed), the transport is marked closed
    and another call of [close()] returns at its first test: the state
    after it is the state before it.  It touches neither the subprocess nor
    the registries, and no promise gets a further call of [reject]. *)
Theorem second_close_is_noop st0 fuel st1 evs st fuel' :
  reachable st0 ->
  step fuel (Call CallClose) st0 = Some st1 ->
  run fuel evs st1 = Some st ->
  closed st = true /\ step fuel' (Call CallClose) st = Some st.
Proof.
  intros R0 Hfirst Hrun.
  assert (R1 : reachable st1) by (eapply reachable_step; eauto).
  assert (R : reachable st) by (eapply reachable_run; eauto).
  assert (C1 : closed st1 = true).
  { unfold step in Hfirst. simpl in Hfirst. injection Hfirst as <-.
    assert (Hc : closed (close st0) = true).
    { unfold close. destruct (closed st0) eqn:E; [exact E|reflexivity]. }
    refine (closed_stays _ (@evolves_close_resume (close st0)) Hc).
    apply (@evolves_close st0), reachable_inv, R0. }
  assert (C : closed st = true).
  { exact (closed_stays (reachable_inv R1) (evolves_run _ _ Hrun) C1). }
  split; [exact C|].
  unfold step. simpl. unfold close. rewrite C. simpl.
  now rewrite (reachable_quiescent R).
Qed.

(** ** Transport failure *)

Lemma reject_each_pending_In error entries :
  forall st k pr,
    In (k, pr) (pending (reject_each error entries st)) ->
    In (k, pr) (pending st) /\ ~ In k (map fst entries).
Proof.
  induction entries as [|[id p] rest IH]; intros st k pr; simpl.
  - tauto.
  - intros H. apply IH in H as [H Hrest]. cbn in H.
    apply In_delete in H as [H Hne]. split; [exact H|]. intros [E|E]; auto.
Qed.

Lemma rejectAllPending_empties error st : pending (rejectAllPending error st) = [].
Proof.
  unfold rejectAllPending.
  destruct (pending (reject_each error (pending st) st)) as [|[k pr] l] eqn:E;
    [reflexivity|].
  assert (H : In (k, pr) (pending (reject_each error (pending st) st))).
  { rewrite E. now left. }
  apply reject_each_pending_In in H as [H Hnot]. exfalso. apply Hnot.
  change k with (fst (k, pr)). now apply in_map.
Qed.

Lemma reject_each_settles error entries :
  forall st,
    inv st ->
    (forall k pr, In (k, pr) entries -> map_get k (pending st) = Some pr) ->
    NoDup (map fst entries) ->
    forall k pr c,
      In (k, pr) entries ->
      nth_error (promises st) (settles pr) = Some c ->
      nth_error (promises (reject_each error entries st)) (settles pr)
      = Some (settle_cell (Rejected error) c).
Proof.
  induction entries as [|[id p] rest IH]; intros st I Hin Hnd k pr c; simpl;
    [tauto|].
  inversion Hnd as [|? ? Hnotin Hnd']; subst.
  change (reject_each error rest
            (settle (settles p) (Rejected error)
               (with_pending (map_delete id (pending (clearTimeout (timeout p) st)))
                  (clearTimeout (timeout p) st))))
    with (reject_each error rest
            (retire (timeout p) id (settles p) (Rejected error) st)).
  set (st1 := retire (timeout p) id (settles p) (Rejected error) st).
  assert (Hhead : map_get id (pending st) = Some p) by (apply Hin; now left).
  pose proof (@evolves_pending_retire st id p (Rejected error) Hhead) as E1.
  fold st1 in E1. destruct (E1 I) as (I1 & _).
  assert (Hin1 : forall k pr, In (k, pr) rest -> map_get k (pending st1) = Some pr).
  { intros k' pr' H. unfold st1. cbn. rewrite map_get_delete.
    destruct (id =? k') eqn:E.
    - apply Z.eqb_eq in E; subst k'. exfalso. apply Hnotin.
      change id with (fst (id, pr')). now apply in_map.
    - apply Hin. now right. }
  intros [H|H] Hc.
  - injection H as -> ->.
    apply (@settled_stays st1 (reject_each error rest st1)
             (settles pr) (settle_cell (Rejected error) c) I1).
    + now apply evolves_reject_each.
    + unfold st1. cbn. now rewrite nth_error_update_nth, Nat.eqb_refl, Hc.
    + apply settle_cell_settled.
  - apply (IH st1 I1 Hin1 Hnd' k pr c H).
    destruct (wf_pending (proj1 I1) _ (Hin1 _ _ H)) as (c1 & _ & Hc1 & _ & Hs1 & _).
    revert Hc1. unfold st1. cbn. rewrite nth_error_update_nth, Hc.
    destruct (Nat.eqb (settles p) (settles pr)); simpl; [|reflexivity].
    intros [= <-]. exfalso. revert Hs1. apply settle_cell_settled.
Qed.

Lemma step_exited_evolves st fuel code st' :
  closeInitiated st = false -> exited st = false ->
  step fuel (ProcessExited code) st = Some st' ->
  evolves (rejectAllPending (exit_error code) (with_exited st)) st'.
Proof.
  intros Hci Hex. unfold step, exited_then. rewrite Hex. cbn [closeInitiated with_exited].
  rewrite Hci.
  set (str := rejectAllPending (exit_error code) (with_exited st)).
  pose proof (evolves_emit_from (error_channel (exit_error code)) fuel 0 str) as H.
  fold (emitError fuel (exit_error code) str) in H.
  destruct (emitError fuel (exit_error code) str) as [s1|e s1|]; simpl in *;
    try discriminate.
  - intros [= <-]. eapply evolves_trans; [exact H|apply evolves_close_resume].
  - destruct (state_of (exited_catch fuel e s1)) as [s2|] eqn:E2; simpl;
      [|discriminate].
    intros [= <-]. eapply evolves_trans; [exact H|].
    eapply evolves_trans; [|apply evolves_close_resume].
    eapply evolves_state_of; [apply evolves_exited_catch|exact E2].
Qed.

(** ** What callbacks can and cannot change *)

Lemma grows_refl H : grows H H.
Proof. split; [lia|auto]. Qed.

Lemma grows_trans H1 H2 H3 : grows H1 H2 -> grows H2 H3 -> grows H1 H3.
Proof.
  intros [L12 G12] [L23 G23]. split; [lia|]. intros i e Hi.
  destruct (G12 _ _ Hi) as [H|H]; apply G23 in H; tauto.
Qed.

Lemma grows_add h H : grows H (set_add h H).
Proof.
  unfold set_add. destruct (existsb (entry_is h) H); [apply grows_refl|].
  split; [rewrite length_app; simpl; lia|]. intros i e Hi. left.
  rewrite nth_error_app1; [exact Hi|]. eapply nth_error_lt; eauto.
Qed.

Lemma grows_delete h H : grows H (set_delete h H).
Proof.
  unfold set_delete. split; [now rewrite length_map|]. intros i e Hi.
  rewrite nth_error_map, Hi. simpl. destruct (entry_is h e); auto.
Qed.

Lemma quiet_refl st : quiet st st.
Proof. constructor; auto using grows_refl. lia. Qed.

Lemma quiet_trans st1 st2 st3 : quiet st1 st2 -> quiet st2 st3 -> quiet st1 st3.
Proof.
  intros [R1 E1 C1 M1 H1 N1 P1] [R2 E2 C2 M2 H2 N2 P2]. constructor.
  - congruence.
  - congruence.
  - destruct C1 as [C1|C1], C2 as [C2|C2]; try (left; congruence);
      try (right; congruence).
  - eapply grows_trans; eauto.
  - eapply grows_trans; eauto.
  - lia.
  - intros k pr Hk Hp. apply P2; [lia|]. now apply P1.
Qed.

Lemma outcome_quiet_trans st st1 o :
  quiet st st1 -> outcome_quiet st1 o -> outcome_quiet st o.
Proof. destruct o; simpl; eauto using quiet_trans. Qed.

Lemma quiet_request method params ms st :
  wf st -> quiet st (snd (request method params ms st)).
Proof.
  intros W. rewrite request_unfold. cbn [snd].
  pose proof (js_increment_bounds (wf_counter W)) as (_ & Hle & _).
  destruct (closed st); constructor; cbn; auto using grows_refl.
  - intros k pr Hk Hp. rewrite map_get_delete, map_get_set.
    destruct (nextRequestId st =? k) eqn:E; [|exact Hp].
    apply Z.eqb_eq in E. lia.
  - intros k pr Hk Hp. rewrite map_get_set.
    destruct (nextRequestId st =? k) eqn:E; [|exact Hp].
    apply Z.eqb_eq in E. lia.
Qed.

Lemma quiet_call c st : wf st -> outcome_quiet st (call c st).
Proof.
  intros W. destruct c; simpl; try apply quiet_refl.
  - constructor; cbn; auto using grows_refl, grows_add. lia.
  - constructor; cbn; auto using grows_refl, grows_delete. lia.
  - constructor; cbn; auto using grows_refl, grows_add. lia.
  - constructor; cbn; auto using grows_refl, grows_delete. lia.
  - now apply quiet_request.
  - unfold send. destruct (closed st); simpl; [apply quiet_refl|].
    constructor; cbn; auto using grows_refl. lia.
  - unfold close. destruct (closed st); [apply quiet_refl|].
    constructor; cbn; auto using grows_refl; try lia.
Qed.

Lemma inv_after st o st' :
  inv st -> outcome_evolves st o -> state_of o = Some st' -> inv st'.
Proof.
  intros I E H. apply (proj1 (evolves_state_of _ E H I)).
Qed.

Lemma quiet_run_body body :
  forall st, inv st -> outcome_quiet st (run_body body st).
Proof.
  induction body as [|c rest IH]; intros st I; simpl.
  - apply quiet_refl.
  - pose proof (quiet_call c (proj1 I)) as Hq.
    pose proof (evolves_call c st) as He.
    destruct (call c st) as [st'| |]; simpl in *; auto.
    eapply outcome_quiet_trans; [exact Hq|]. apply IH. now apply He.
Qed.

Lemma seen_call c st st' : state_of (call c st) = Some st' -> seen st' = seen st.
Proof.
  destruct c; simpl; try (intros [= <-]; reflexivity).
  - rewrite request_unfold. cbn [snd]. destruct (closed st); intros [= <-]; reflexivity.
  - unfold send. destruct (closed st); simpl; intros [= <-]; reflexivity.
  - unfold close. destruct (closed st); intros [= <-]; reflexivity.
Qed.

Lemma seen_run_body body :
  forall st st', state_of (run_body body st) = Some st' -> seen st' = seen st.
Proof.
  induction body as [|c rest IH]; intros st st'; simpl.
  - now intros [= <-].
  - destruct (call c st) as [s1|e s1|] eqn:E; simpl; try discriminate.
    + intros H. rewrite (IH _ _ H). apply (@seen_call c st s1). now rewrite E.
    + intros [= <-]. apply (@seen_call c st s1). now rewrite E.
Qed.

Lemma quiet_invoke ch h st : inv st -> outcome_quiet st (invoke ch h st).
Proof.
  intros I. unfold invoke.
  eapply outcome_quiet_trans; [|apply quiet_run_body].
  - constructor; cbn; auto using grows_refl. lia.
  - revert I. apply evolves_frame; try reflexivity; cbn; auto.
Qed.

Lemma seen_invoke ch h st st' :
  state_of (invoke ch h st) = Some st' -> seen st' = seen st ++ [observe ch h].
Proof. unfold invoke. intros H. now rewrite (seen_run_body _ _ H). Qed.

Lemma quiet_entries ch st st' :
  proper ch -> quiet st st' -> grows (entries ch st) (entries ch st').
Proof. intros [E|E] Q; rewrite E; apply Q. Qed.

Lemma quiet_emit_from ch fuel :
  forall i st, inv st -> outcome_quiet st (emit_from ch fuel i st).
Proof.
  induction fuel as [|fuel IH]; intros i st I; simpl;
    destruct (nth_error (entries ch st) i) as [[h|]|]; simpl;
    try apply quiet_refl; try exact Logic.I; auto.
  pose proof (quiet_invoke ch h I) as Hq.
  pose proof (evolves_invoke ch h st) as He.
  destruct (invoke ch h st) as [s1|e s1|]; simpl in *; auto.
  eapply outcome_quiet_trans; [exact Hq|]. apply IH. now apply He.
Qed.

Lemma served_nil ch i st :
  nth_error (entries ch st) i = None -> served ch i st st [] [].
Proof.
  intros E. unfold served. rewrite app_nil_r.
  split; [reflexivity|]. split; [constructor|]. split; [constructor|].
  split; [constructor|]. split; [|apply grows_refl].
  intros j h Hj Hn. apply nth_error_None in E. apply nth_error_lt in Hn. lia.
Qed.

Lemma emit_from_served ch fuel :
  proper ch ->
  forall i st st',
    inv st -> emit_from ch fuel i st = Returns st' ->
    exists js ds, served ch i st st' js ds.
Proof.
  intros P. induction fuel as [|fuel IH]; intros i st st' I; simpl.
  - destruct (nth_error (entries ch st) i) eqn:E; [discriminate|].
    intros [= <-]. exists [], []. now apply served_nil.
  - destruct (nth_error (entries ch st) i) as [[h|]|] eqn:E.
    + pose proof (quiet_invoke ch h I) as Hq.
      pose proof (evolves_invoke ch h st) as He.
      pose proof (@seen_invoke ch h st) as Hs.
      destruct (invoke ch h st) as [s1|e s1|]; simpl in *; try discriminate.
      intros Hrec. specialize (Hs s1 eq_refl).
      pose proof (quiet_entries P Hq) as G1.
      destruct (IH (S i) s1 st' (proj1 (He I)) Hrec)
        as (js & ds & Hseen & Hsort & Hge & Hall & Hcov & G2).
      pose proof (grows_trans G1 G2) as G.
      exists (i :: js), (observe ch h :: ds). unfold served.
      split. { rewrite Hseen, Hs, <- app_assoc. reflexivity. }
      split. { constructor; [exact Hsort|].
               eapply Forall_impl; [|exact Hge]. simpl. intros; lia. }
      split. { constructor; [lia|]. eapply Forall_impl; [|exact Hge].
               simpl. intros; lia. }
      split.
      { constructor.
        - exists h. split; [reflexivity|]. split; [now left|].
          destruct G as [_ G]. apply (G _ _ E).
        - eapply Forall2_impl; [|exact Hall]. simpl.
          intros j d (h' & Hd & Hfrom & Hto). exists h'.
          split; [exact Hd|]. split; [|exact Hto].
          destruct Hfrom as [Hfrom|Hfrom]; [|right; destruct G1; lia].
          destruct (nth_error (entries ch st) j) as [e|] eqn:Ej.
          + left. destruct G1 as [_ G1]. destruct (G1 _ _ Ej) as [H1|H1];
              congruence.
          + right. now apply nth_error_None. }
      split; [|exact G].
      intros j h' Hj Hn. destruct (Nat.eq_dec j i) as [->|Hne]; [now left|].
      right. apply (Hcov j h'); [lia|exact Hn].
    + intros Hrec.
      destruct (IH (S i) st st' I Hrec)
        as (js & ds & Hseen & Hsort & Hge & Hall & Hcov & G).
      exists js, ds. unfold served.
      repeat (split; [assumption|]).
      split. { eapply Forall_impl; [|exact Hge]. simpl. intros; lia. }
      split; [exact Hall|]. split; [|exact G].
      intros j h' Hj Hn. destruct (Nat.eq_dec j i) as [->|Hne].
      * destruct G as [_ G]. destruct (G _ _ E); congruence.
      * apply (Hcov j h'); [lia|exact Hn].
    + intros [= <-]. exists [], []. now apply served_nil.
Qed.

(** ** The framer *)

Lemma cut_no_LF s : indexOf LF s = None -> cut s = ([], s).
Proof.
  induction s as [|c s IH]; simpl; [reflexivity|].
  destruct (N.eqb c LF); [discriminate|].
  destruct (indexOf LF s); [discriminate|]. intros _. now rewrite IH.
Qed.

Lemma cut_at s : forall i,
  indexOf LF s = Some i ->
  cut s = (firstn i s :: fst (cut (skipn (S i) s)), snd (cut (skipn (S i) s))).
Proof.
  induction s as [|c s IH]; simpl; [discriminate|]. intros i.
  destruct (N.eqb c LF) eqn:E.
  - intros [= <-]. simpl. now destruct (cut s).
  - destruct (indexOf LF s) as [k|] eqn:Ek; [|discriminate].
    intros [= <-]. rewrite (IH k eq_refl). reflexivity.
Qed.

Lemma indexOf_lt c s : forall i, indexOf c s = Some i -> (i < length s)%nat.
Proof.
  induction s as [|x s IH]; simpl; [discriminate|]. intros i.
  destruct (N.eqb x c); [intros [= <-]; lia|].
  destruct (indexOf c s) as [k|]; [|discriminate].
  intros [= <-]. specialize (IH k eq_refl). lia.
Qed.

Lemma cut_tail_no_LF s : indexOf LF (snd (cut s)) = None.
Proof.
  induction s as [|c s IH]; simpl; [reflexivity|].
  destruct (cut s) as [lines tail]. simpl in IH.
  destruct (N.eqb c LF) eqn:E; [exact IH|].
  destruct lines; simpl; [|exact IH]. now rewrite E, IH.
Qed.

Lemma cut_app x y :
  cut (x ++ y)
  = (fst (cut x) ++ fst (cut (snd (cut x) ++ y)), snd (cut (snd (cut x) ++ y))).
Proof.
  induction x as [|c x IH]; simpl.
  - now destruct (cut y).
  - rewrite IH. destruct (cut x) as [l1 r1]. simpl.
    destruct (cut (r1 ++ y)) as [l2 r2] eqn:E2. simpl.
    destruct (N.eqb c LF) eqn:E; simpl.
    + now rewrite E2.
    + destruct l1 as [|l l1]; simpl.
      * rewrite E2, E. now destruct l2.
      * now rewrite E2.
Qed.

Lemma frames_app a b : frames (a ++ b) = frames a ++ frames b.
Proof. unfold frames. now rewrite map_app, filter_app. Qed.

Lemma decode_app a b : forall dec,
  decode dec (a ++ b)
  = (fst (decode (fst (decode dec a)) b),
     snd (decode dec a) ++ snd (decode (fst (decode dec a)) b)).
Proof.
  induction a as [|x a IH]; intros dec; simpl.
  - now destruct (decode dec b).
  - destruct (decode_byte dec x) as [d1 o1]. rewrite IH.
    destruct (decode d1 a) as [d2 o2]. simpl.
    destruct (decode d2 b) as [d3 o3]. simpl. now rewrite app_assoc.
Qed.

Lemma handle_all_app fuel a b : forall st,
  handle_all fuel (a ++ b) st
  = match handle_all fuel a st with
    | Returns st' => handle_all fuel b st'
    | o => o
    end.
Proof.
  induction a as [|l a IH]; intros st; simpl; [reflexivity|].
  destruct (handleLine fuel l st); auto.
Qed.

(** The inner loop of [readLoop] hands on the units of its buffer. *)
Lemma read_lines_cut fuel dec n : forall buffer st,
  (length buffer <= n)%nat ->
  read_lines n fuel dec buffer st
  = match handle_all fuel (frames (fst (cut buffer))) st with
    | Returns st' => Returns (with_readLoop (Reading dec (snd (cut buffer))) st')
    | o => o
    end.
Proof.
  induction n as [|n IH]; intros buffer st Hlen.
  - destruct buffer; [reflexivity|simpl in Hlen; lia].
  - simpl. destruct (indexOf LF buffer) as [newline|] eqn:E.
    + rewrite (cut_at _ E). cbn [fst snd]. unfold frames at 1. simpl.
      fold (frames (fst (cut (skipn (S newline) buffer)))).
      unfold slice_to, slice_from.
      assert (Hl : (length (skipn (S newline) buffer) <= n)%nat).
      { rewrite length_skipn. apply indexOf_lt in E. lia. }
      destruct (0 <? length (trim (firstn newline buffer)))%nat; simpl.
      * destruct (handleLine fuel (trim (firstn newline buffer)) st); auto.
      * now apply IH.
    + now rewrite (cut_no_LF _ E).
Qed.

Lemma on_chunk_feed fuel value st dec buffer :
  readLoop st = Reading dec buffer ->
  on_chunk fuel value st
  = settle_readLoop
      (Reading (fst (snd (feed (dec, buffer) value)))
               (snd (snd (feed (dec, buffer) value))))
      (handle_all fuel (fst (feed (dec, buffer) value)) st).
Proof.
  intros Hr. unfold on_chunk, feed. rewrite Hr. cbn [fst snd].
  destruct (decode dec value) as [dec' text].
  rewrite read_lines_cut by lia.
  destruct (cut (buffer ++ text)) as [raw rest]. cbn [fst snd].
  destruct (handle_all fuel (frames raw) st); reflexivity.
Qed.

(** The callbacks do not see the locals of the read loop. *)

Lemma comm_call r c st :
  call c (with_readLoop r st) = lift (with_readLoop r) (call c st).
Proof.
  destruct c; simpl; try reflexivity.
  - unfold request, send. cbn. destruct (closed st); reflexivity.
  - unfold send. cbn. destruct (closed st); reflexivity.
  - unfold close. cbn. destruct (closed st); reflexivity.
Qed.

Lemma comm_run_body r body : forall st,
  run_body body (with_readLoop r st) = lift (with_readLoop r) (run_body body st).
Proof.
  induction body as [|c rest IH]; intros st; simpl; [reflexivity|].
  rewrite comm_call. destruct (call c st); simpl; auto.
Qed.

Lemma comm_invoke r ch h st :
  invoke ch h (with_readLoop r st) = lift (with_readLoop r) (invoke ch h st).
Proof.
  unfold invoke.
  exact (comm_run_body r (body_of ch h (seen st))
           (with_seen (seen st ++ [observe ch h]) st)).
Qed.

Lemma comm_emit_from r ch fuel :
  proper ch ->
  forall i st,
    emit_from ch fuel i (with_readLoop r st)
    = lift (with_readLoop r) (emit_from ch fuel i st).
Proof.
  intros P.
  assert (He : forall st, entries ch (with_readLoop r st) = entries ch st).
  { intros st. destruct P as [E|E]; rewrite E; reflexivity. }
  induction fuel as [|fuel IH]; intros i st; simpl; rewrite He;
    destruct (nth_error (entries ch st) i) as [[h|]|]; simpl; auto.
  rewrite comm_invoke. destruct (invoke ch h st); simpl; auto.
Qed.

Lemma comm_resolvePending r response st :
  resolvePending response (with_readLoop r st)
  = lift (with_readLoop r) (resolvePending response st).
Proof.
  rewrite !resolvePending_unfold.
  change (pending (with_readLoop r st)) with (pending st).
  destruct (as_integer (prop "id" response)); [|reflexivity].
  destruct (map_get z (pending st)); [|reflexivity].
  destruct (verdict response); reflexivity.
Qed.

Lemma proper_message message : proper (message_channel message).
Proof. now left. Qed.

Lemma proper_error error : proper (error_channel error).
Proof. now right. Qed.

Lemma comm_handleLine r fuel line st :
  handleLine fuel line (with_readLoop r st)
  = lift (with_readLoop r) (handleLine fuel line st).
Proof.
  unfold handleLine, emitMessage, emitError.
  destruct (JSON_parse line) as [message|].
  - destruct (isJsonRpcResponse message) as [e|[|]]; simpl; try reflexivity.
    + rewrite comm_resolvePending.
      destruct (resolvePending message st); simpl; try reflexivity.
      apply comm_emit_from, proper_message.
    + apply comm_emit_from, proper_message.
  - apply comm_emit_from, proper_error.
Qed.

Lemma comm_handle_all r fuel units : forall st,
  handle_all fuel units (with_readLoop r st)
  = lift (with_readLoop r) (handle_all fuel units st).
Proof.
  induction units as [|l units IH]; intros st; simpl; [reflexivity|].
  rewrite comm_handleLine. destruct (handleLine fuel l st); simpl; auto.
Qed.

Lemma calm_refl st : calm st st.
Proof. unfold calm. auto. Qed.

Lemma calm_trans st1 st2 st3 : calm st1 st2 -> calm st2 st3 -> calm st1 st3.
Proof.
  unfold calm. intros (R1 & E1 & C1) (R2 & E2 & C2).
  split; [congruence|]. split; [congruence|].
  destruct C1, C2; try (left; congruence); right; congruence.
Qed.

Lemma quiet_calm st st' : quiet st st' -> calm st st'.
Proof. intros Q. unfold calm. split; [|split]; apply Q. Qed.

Lemma calm_resolvePending response st :
  outcome_calm st (resolvePending response st).
Proof.
  rewrite resolvePending_unfold.
  destruct (as_integer (prop "id" response)); [|apply calm_refl].
  destruct (map_get z (pending st)); [|apply calm_refl].
  destruct (verdict response); simpl; unfold calm; cbn; auto.
Qed.

Lemma calm_handleLine fuel line st :
  inv st -> outcome_calm st (handleLine fuel line st).
Proof.
  intros I. unfold handleLine, emitMessage, emitError.
  destruct (JSON_parse line) as [message|].
  - destruct (isJsonRpcResponse message) as [e|[|]]; simpl.
    + apply calm_refl.
    + pose proof (calm_resolvePending message st) as C1.
      pose proof (evolves_resolvePending message st) as E1.
      destruct (resolvePending message st) as [s1|e s1|]; simpl in *; auto.
      assert (I1 : inv s1) by now apply E1.
      pose proof (quiet_emit_from (message_channel message) fuel 0 I1) as Q.
      destruct (emit_from _ fuel 0 s1); simpl in *;
        auto; eapply calm_trans; eauto using quiet_calm.
    + pose proof (quiet_emit_from (message_channel message) fuel 0 I) as Q.
      destruct (emit_from _ fuel 0 st); simpl in *; auto using quiet_calm.
  - pose proof (quiet_emit_from (error_channel (parse_failure line)) fuel 0 I) as Q.
    destruct (emit_from _ fuel 0 st); simpl in *; auto using quiet_calm.
Qed.

Lemma evolves_handle_all fuel units : forall st,
  outcome_evolves st (handle_all fuel units st).
Proof.
  induction units as [|l units IH]; intros st; simpl; [apply evolves_refl|].
  pose proof (evolves_handleLine fuel l st) as H.
  destruct (handleLine fuel l st); simpl in *; auto.
  eapply outcome_evolves_trans; eauto.
Qed.

Lemma calm_handle_all fuel units : forall st,
  inv st -> outcome_calm st (handle_all fuel units st).
Proof.
  induction units as [|l units IH]; intros st I; simpl; [apply calm_refl|].
  pose proof (calm_handleLine fuel l I) as C.
  pose proof (evolves_handleLine fuel l st) as E.
  destruct (handleLine fuel l st) as [s1|e s1|]; simpl in *; auto.
  specialize (IH s1 (proj1 (E I))).
  destruct (handle_all fuel units s1); simpl in *; auto;
    eapply calm_trans; eauto.
Qed.

Lemma feed_app r a b :
  feed r (a ++ b)
  = (fst (feed r a) ++ fst (feed (snd (feed r a)) b),
     snd (feed (snd (feed r a)) b)).
Proof.
  unfold feed. rewrite decode_app.
  destruct (decode (fst r) a) as [da ta]. cbn [fst snd].
  rewrite app_assoc, cut_app.
  destruct (cut (snd r ++ ta)) as [l1 r1]. cbn [fst snd].
  destruct (decode da b) as [db tb]. cbn [fst snd].
  destruct (cut (r1 ++ tb)) as [l2 r2]. cbn [fst snd].
  now rewrite frames_app.
Qed.

Lemma feed_tail_no_LF r value :
  cut (snd (snd (feed r value))) = ([], snd (snd (feed r value))).
Proof.
  apply cut_no_LF. unfold feed.
  destruct (decode (fst r) value) as [dec' text].
  pose proof (cut_tail_no_LF (snd r ++ text)) as H.
  now destruct (cut (snd r ++ text)).
Qed.

Lemma feed_all_concat chunks : forall r,
  cut (snd r) = ([], snd r) -> feed_all r chunks = feed r (concat chunks).
Proof.
  induction chunks as [|c chunks IH]; intros [dec buffer] Hr; simpl in *.
  - unfold feed. simpl. rewrite app_nil_r, Hr. reflexivity.
  - rewrite feed_app.
    pose proof (feed_tail_no_LF (dec, buffer) c) as Ht.
    destruct (feed (dec, buffer) c) as [u1 r1]. cbn [fst snd] in *.
    rewrite (IH r1 Ht). now destruct (feed r1 (concat chunks)).
Qed.

Lemma reject_each_readLoop error entries : forall st,
  readLoop (reject_each error entries st) = readLoop st.
Proof.
  induction entries as [|[id p] rest IH]; intros st; simpl; [reflexivity|].
  now rewrite IH.
Qed.

Lemma close_resume_readLoop st : readLoop (close_resume st) = readLoop st.
Proof.
  unfold close_resume, close_after_readLoop, close_after_exited.
  destruct (closing st) eqn:Ec; destruct (readLoop st) eqn:Er; cbn;
    rewrite ?Ec, ?Er; try reflexivity;
    destruct (exited st); cbn; rewrite ?Er; try reflexivity;
    unfold rejectAllPending; rewrite reject_each_readLoop; cbn; now rewrite ?Er.
Qed.

Lemma close_resume_reading st dec buffer :
  readLoop st = Reading dec buffer ->
  (closing st = AwaitExited -> exited st = false) ->
  close_resume st = st.
Proof.
  intros Hr Hc. unfold close_resume, close_after_readLoop, close_after_exited.
  rewrite Hr. destruct (closing st) eqn:Ec; cbn; rewrite ?Ec; try reflexivity.
  rewrite Hc; reflexivity.
Qed.

Lemma quiescent_reading st dec buffer :
  close_resume st = st -> readLoop st = Reading dec buffer ->
  closing st = AwaitExited -> exited st = false.
Proof.
  intros Hq Hr Hc. destruct (exited st) eqn:E; [|reflexivity].
  apply (f_equal closing) in Hq. revert Hq.
  unfold close_resume, close_after_readLoop, close_after_exited.
  rewrite Hc. cbn. rewrite Hc, E. cbn. discriminate.
Qed.

(** Two chunks one after the other, or joined. *)
Lemma chunks_join fuel a b st :
  reachable st ->
  match step fuel (StdoutChunk a) st with
  | Some st1 => step fuel (StdoutChunk b) st1
  | None => None
  end = step fuel (StdoutChunk (a ++ b)) st.
Proof.
  intros R. pose proof (reachable_inv R) as I.
  pose proof (reachable_quiescent R) as Hq.
  unfold step. destruct (readLoop st) as [dec buffer| |] eqn:Hr.
  - rewrite !(on_chunk_feed _ _ _ Hr), feed_app.
    destruct (feed (dec, buffer) a) as [u1 [da r1]]. cbn [fst snd].
    rewrite handle_all_app.
    pose proof (calm_handle_all fuel u1 I) as C.
    destruct (handle_all fuel u1 st) as [s1|e s1|]; simpl in *.
    + destruct C as (C1 & C2 & C3).
      rewrite (@close_resume_reading _ da r1); [|reflexivity|].
      2:{ cbn. intros Hc. rewrite C2.
          apply (quiescent_reading Hq Hr). destruct C3; congruence. }
      rewrite (@on_chunk_feed fuel b _ da r1) by reflexivity.
      rewrite comm_handle_all.
      destruct (feed (da, r1) b) as [u2 [db r2]]. cbn [fst snd].
      destruct (handle_all fuel u2 s1); reflexivity.
    + unfold on_chunk. rewrite close_resume_readLoop. cbn.
      now rewrite close_resume_idem.
    + reflexivity.
  - unfold on_chunk. rewrite Hr. simpl. rewrite Hq, Hr. simpl. now rewrite Hq.
  - unfold on_chunk. rewrite Hr. simpl. rewrite Hq, Hr. simpl. now rewrite Hq.
Qed.

Lemma chunks_concat fuel chunks : forall c st,
  reachable st ->
  run fuel (map StdoutChunk (c :: chunks)) st
  = step fuel (StdoutChunk (concat (c :: chunks))) st.
Proof.
  induction chunks as [|c2 chunks IH]; intros c st R.
  - simpl. rewrite app_nil_r. now destruct (step fuel (StdoutChunk c) st).
  - change (run fuel (map StdoutChunk (c :: c2 :: chunks)) st)
      with (match step fuel (StdoutChunk c) st with
            | Some st1 => run fuel (map StdoutChunk (c2 :: chunks)) st1
            | None => None
            end).
    change (concat (c :: c2 :: chunks)) with (c ++ concat (c2 :: chunks)).
    rewrite <- chunks_join by exact R.
    destruct (step fuel (StdoutChunk c) st) as [st1|] eqn:E; [|reflexivity].
    apply IH. eapply reachable_step; eauto.
Qed.

Lemma run_app fuel evs1 evs2 : forall st,
  run fuel (evs1 ++ evs2) st
  = match run fuel evs1 st with
    | Some st1 => run fuel evs2 st1
    | None => None
    end.
Proof.
  induction evs1 as [|ev evs1 IH]; intros st; simpl; [reflexivity|].
  destruct (step fuel ev st); auto.
Qed.

Lemma on_end_flush fuel st dec buffer :
  readLoop st = Reading dec buffer ->
  on_end fuel st
  = settle_readLoop ReadReturned (handle_all fuel (flush (dec, buffer)) st).
Proof.
  intros Hr. unfold on_end, flush, frames. rewrite Hr. simpl.
  destruct (0 <? length (trim buffer))%nat; simpl; [|reflexivity].
  now destruct (handleLine fuel (trim buffer) st).
Qed.

Lemma decoded_concat chunks : decoded chunks = decoded [concat chunks].
Proof.
  unfold decoded. rewrite feed_all_concat by reflexivity.
  simpl. destruct (feed (decoder_init, []) (concat chunks)) as [units r].
  now rewrite app_nil_r.
Qed.

(** C3. For every byte stream and every way of cutting it into chunks
    [c :: chunks], also in the middle of a line or of a character:
    the messages decoded from the chunks are those decoded from the stream
    in one piece, in the same order; and from any state of the transport,
    feeding the chunks to the read loop one at a time leads to the very
    state that the stream in one chunk leads to, subscribers' observations
    and settled promises included (or in both cases to a callback loop that
    does not end within [fuel]); the same holds when the end of input
    follows.  At the end of input the buffered remainder, when it does not
    trim to nothing, is handled as one final unit.  Each round of the loop
    handles exactly the units that the pure framer [feed] gives. *)
Theorem chunking_is_invisible fuel st c chunks :
  reachable st ->
  decoded (c :: chunks) = decoded [concat (c :: chunks)]
  /\ run fuel (map StdoutChunk (c :: chunks)) st
     = step fuel (StdoutChunk (concat (c :: chunks))) st
  /\ run fuel (map StdoutChunk (c :: chunks) ++ [StdoutEnd]) st
     = run fuel [StdoutChunk (concat (c :: chunks)); StdoutEnd] st
  /\ (forall dec buffer value,
        readLoop st = Reading dec buffer ->
        on_chunk fuel value st
        = settle_readLoop
            (Reading (fst (snd (feed (dec, buffer) value)))
                     (snd (snd (feed (dec, buffer) value))))
            (handle_all fuel (fst (feed (dec, buffer) value)) st))
  /\ (forall dec buffer,
        readLoop st = Reading dec buffer ->
        on_end fuel st
        = settle_readLoop ReadReturned
            (handle_all fuel
               (if (0 <? length (trim buffer))%nat then [trim buffer] else [])
               st)).
Proof.
  intros R. split; [apply decoded_concat|].
  split; [now apply chunks_concat|]. split.
  - rewrite run_app, chunks_concat by exact R. reflexivity.
  - split.
    + intros dec buffer value. apply on_chunk_feed.
    + intros dec buffer Hr. rewrite (@on_end_flush fuel st dec buffer Hr).
      unfold flush, frames. simpl.
      now destruct (0 <? length (trim buffer))%nat.
Qed.

(** ** Subscribers *)

Lemma Forall2_In_left {A B} (R : A -> B -> Prop) l1 l2 x :
  Forall2 R l1 l2 -> In x l1 -> exists y, In y l2 /\ R x y.
Proof.
  induction 1 as [|a b l1 l2 Hab _ IH]; simpl; [tauto|].
  intros [<-|H]; [exists b; auto|].
  destruct (IH H) as (y & Hy & Hr). exists y. auto.
Qed.

Lemma served_live ch i st st' js ds :
  served ch i st st' js ds ->
  forall j h, (i <= j)%nat ->
    nth_error (entries ch st') j = Some (Some h) ->
    In j js /\ In (observe ch h) ds.
Proof.
  intros (_ & _ & _ & Hall & Hcov & _) j h Hj Hn.
  pose proof (Hcov j h Hj Hn) as Hin. split; [exact Hin|].
  destruct (@Forall2_In_left _ _ _ _ _ j Hall Hin)
    as (d & Hd & h' & -> & _ & [H|H]); congruence.
Qed.

(** C8, as the code has it.  A message is dispatched by a loop over the
    live set of message callbacks.  When the callbacks return, the message
    has been handed over once at each position [js] of the entry list, by
    increasing position, that is in the order of subscription, and the
    observations [ds] so made are appended, in this order, to what the
    callbacks had seen before (so the messages arrive in the order of
    dispatch).  A position served either holds a callback that was
    subscribed when the dispatch began, or lies beyond the list as it was
    then: it holds a callback that was subscribed during the dispatch.
    Every callback that is subscribed when the dispatch ends has been
    served: a callback that another callback registers during the dispatch
    does receive the message being dispatched.  Subscribing and
    unsubscribing during the dispatch only appends entries or turns
    entries into holes, so the order of the others is kept. *)
Theorem dispatch_serves_the_live_set fuel message st st' :
  reachable st ->
  emitMessage fuel message st = Returns st' ->
  exists js ds,
    seen st' = seen st ++ ds
    /\ StronglySorted lt js
    /\ Forall2
         (fun j d =>
            exists h,
              d = GotMessage h message
              /\ (nth_error (messageHandlers st) j = Some (Some h)
                  \/ (length (messageHandlers st) <= j)%nat)
              /\ (nth_error (messageHandlers st') j = Some (Some h)
                  \/ nth_error (messageHandlers st') j = Some None))
         js ds
    /\ (forall j h,
          nth_error (messageHandlers st') j = Some (Some h) ->
          In j js /\ In (GotMessage h message) ds)
    /\ grows (messageHandlers st) (messageHandlers st').
Proof.
  intros R He. unfold emitMessage in He.
  destruct (@emit_from_served (message_channel message) fuel
              (proper_message message) 0 st st' (reachable_inv R) He)
    as (js & ds & S).
  exists js, ds. pose proof (served_live S) as L.
  destruct S as (Hseen & Hsort & _ & Hall & _ & G).
  repeat (split; [assumption|]). split; [|exact G].
  intros j h Hn. apply (L j h); [lia|exact Hn].
Qed.

End TransportFacts.

(** ** The turn aggregator *)

Arguments smap_get : simpl never.
Arguments smap_set : simpl never.

Section StringMapFacts.
Variable V : Type.
Implicit Types (m : list (jsstring * V)) (k : jsstring) (v : V).

Lemma str_eqb_sym a b : str_eqb a b = str_eqb b a.
Proof.
  destruct (str_eqb a b) eqn:E.
  - apply str_eqb_spec in E. subst. now rewrite str_eqb_refl.
  - destruct (str_eqb b a) eqn:E'; [|reflexivity].
    apply str_eqb_spec in E'. subst. now rewrite str_eqb_refl in E.
Qed.

Lemma smap_get_nil k : smap_get k (@nil (jsstring * V)) = None.
Proof. reflexivity. Qed.

Lemma smap_get_cons k k0 v0 m :
  smap_get k ((k0, v0) :: m) = if str_eqb k0 k then Some v0 else smap_get k m.
Proof. reflexivity. Qed.

Lemma smap_set_nil k v : smap_set k v (@nil (jsstring * V)) = [(k, v)].
Proof. reflexivity. Qed.

Lemma smap_set_cons k v k0 v0 m :
  smap_set k v ((k0, v0) :: m)
  = if str_eqb k0 k then (k, v) :: m else (k0, v0) :: smap_set k v m.
Proof. reflexivity. Qed.

Lemma smap_get_set k k' v m :
  smap_get k (smap_set k' v m) = if str_eqb k' k then Some v else smap_get k m.
Proof.
  induction m as [|[k0 v0] m IH].
  - rewrite smap_set_nil, smap_get_cons. reflexivity.
  - rewrite smap_set_cons, (smap_get_cons k k0 v0 m).
    destruct (str_eqb k0 k') eqn:E0.
    + apply str_eqb_spec in E0; subst k0. rewrite smap_get_cons.
      destruct (str_eqb k' k); reflexivity.
    + rewrite smap_get_cons, IH.
      destruct (str_eqb k0 k) eqn:E1; [|reflexivity].
      apply str_eqb_spec in E1; subst k0.
      now rewrite str_eqb_sym, E0.
Qed.
End StringMapFacts.

Section ClientFacts.
Context {host : Host}.
Import Client.

Lemma mem_true id ids : mem id ids = true <-> In id ids.
Proof.
  unfold mem. rewrite existsb_exists. split.
  - intros (x & Hx & E). apply str_eqb_spec in E. now subst.
  - intros H. exists id. split; [exact H|apply str_eqb_refl].
Qed.

Lemma first_ids_In id ids : In id (first_ids ids) <-> In id ids.
Proof.
  induction ids as [|x ids IH]; simpl; [tauto|].
  rewrite filter_In, IH, negb_true_iff. split.
  - tauto.
  - intros [H|H]; [now left|].
    destruct (str_eqb id x) eqn:E; [|tauto].
    apply str_eqb_spec in E. now left.
Qed.

Lemma first_ids_NoDup ids : NoDup (first_ids ids).
Proof.
  induction ids as [|x ids IH]; simpl; constructor.
  - rewrite filter_In, negb_true_iff, str_eqb_refl. intros [_ H]. discriminate.
  - now apply NoDup_filter.
Qed.

Lemma first_ids_snoc ids id :
  first_ids (ids ++ [id])
  = if mem id ids then first_ids ids else first_ids ids ++ [id].
Proof.
  induction ids as [|x ids IH]; simpl; [reflexivity|].
  rewrite IH. unfold mem in *. simpl.
  destruct (str_eqb x id) eqn:E; simpl.
  - apply str_eqb_spec in E; subst x.
    destruct (existsb (fun i => str_eqb i id) ids); [reflexivity|].
    rewrite filter_app. simpl. rewrite str_eqb_refl. simpl.
    now rewrite app_nil_r.
  - destruct (existsb (fun i => str_eqb i id) ids); [reflexivity|].
    rewrite filter_app. simpl. rewrite str_eqb_sym, E. reflexivity.
Qed.

Lemma text_of_item_snoc id pieces p :
  text_of_item id (pieces ++ [p])
  = text_of_item id pieces ++ (if str_eqb (fst p) id then snd p else []).
Proof.
  unfold text_of_item. rewrite filter_app, map_app, concat_app. simpl.
  destruct (str_eqb (fst p) id); simpl; now rewrite ?app_nil_r.
Qed.

Lemma text_of_item_absent id pieces :
  mem id (map fst pieces) = false -> text_of_item id pieces = [].
Proof.
  unfold text_of_item, mem. induction pieces as [|[k t] pieces IH]; simpl;
    [reflexivity|].
  destruct (str_eqb k id); simpl; [discriminate|exact IH].
Qed.

(** Lookup and update in a map listed by distinct keys. *)
Lemma smap_get_keyed (g : jsstring -> jsstring) id keys :
  smap_get id (map (fun i => (i, g i)) keys)
  = if mem id keys then Some (g id) else None.
Proof.
  unfold mem. induction keys as [|k keys IH]; simpl; [reflexivity|].
  rewrite smap_get_cons. destruct (str_eqb k id) eqn:E; simpl; [|exact IH].
  apply str_eqb_spec in E. now subst.
Qed.

Lemma smap_set_keyed (g : jsstring -> jsstring) id v keys :
  NoDup keys ->
  smap_set id v (map (fun i => (i, g i)) keys)
  = if mem id keys
    then map (fun i => (i, if str_eqb i id then v else g i)) keys
    else map (fun i => (i, g i)) keys ++ [(id, v)].
Proof.
  unfold mem. induction keys as [|k keys IH]; intros Hnd; simpl; [reflexivity|].
  inversion Hnd as [|? ? Hnotin Hnd']; subst.
  rewrite smap_set_cons. destruct (str_eqb k id) eqn:E; simpl.
  - apply str_eqb_spec in E; subst k. f_equal.
    apply map_ext_in. intros i Hi.
    destruct (str_eqb i id) eqn:E'; [|reflexivity].
    apply str_eqb_spec in E'. subst. contradiction.
  - rewrite (IH Hnd').
    destruct (existsb (fun i => str_eqb i id) keys); reflexivity.
Qed.

Lemma grouped_snoc pieces p :
  grouped (pieces ++ [p]) = accumulate_step (grouped pieces) p.
Proof.
  destruct p as [id t]. unfold grouped, accumulate_step. cbn [fst snd].
  rewrite map_app. simpl. rewrite first_ids_snoc.
  rewrite (smap_get_keyed (fun i => text_of_item i pieces)).
  rewrite (smap_set_keyed (fun i => text_of_item i pieces))
    by apply first_ids_NoDup.
  assert (Hm : mem id (first_ids (map fst pieces)) = mem id (map fst pieces)).
  { destruct (mem id (map fst pieces)) eqn:E.
    - apply mem_true, first_ids_In. apply (proj1 (mem_true _ _) E).
    - destruct (mem id (first_ids (map fst pieces))) eqn:E'; [|reflexivity].
      apply (proj1 (mem_true _ _)) in E'. apply (proj1 (first_ids_In _ _)) in E'.
      apply (proj2 (mem_true _ _)) in E'. congruence. }
  rewrite Hm. destruct (mem id (map fst pieces)) eqn:E; simpl.
  - apply map_ext. intros i. rewrite text_of_item_snoc. cbn [fst snd].
    rewrite (str_eqb_sym id i).
    destruct (str_eqb i id) eqn:Ei; [|now rewrite app_nil_r].
    apply str_eqb_spec in Ei. now subst.
  - rewrite map_app. simpl. f_equal.
    + apply map_ext_in. intros i Hi. rewrite text_of_item_snoc. cbn [fst snd].
      destruct (str_eqb id i) eqn:Ei; [|now rewrite app_nil_r].
      apply str_eqb_spec in Ei; subst i.
      apply (proj1 (first_ids_In _ _)) in Hi.
      apply (proj2 (mem_true _ _)) in Hi. congruence.
    + rewrite text_of_item_snoc. cbn [fst snd].
      now rewrite str_eqb_refl, (text_of_item_absent _ _ E).
Qed.

Lemma accumulate_grouped pieces : accumulate pieces = grouped pieces.
Proof.
  induction pieces as [|p pieces IH] using rev_ind; [reflexivity|].
  unfold accumulate in *. now rewrite fold_left_app, IH, grouped_snoc.
Qed.

Lemma last_opt_snoc {A} (l : list A) x : last_opt (l ++ [x]) = Some x.
Proof. unfold last_opt. now rewrite rev_app_distr. Qed.

Lemma collect_snoc messages m :
  collect (messages ++ [m])
  = match handleMessage m with
    | inr (Some ev) => listen ev (collect messages)
    | _ => collect messages
    end.
Proof. unfold collect. now rewrite fold_left_app. Qed.

Lemma accumulate_snoc pieces p :
  accumulate (pieces ++ [p]) = accumulate_step (accumulate pieces) p.
Proof. unfold accumulate. now rewrite fold_left_app. Qed.

(** What the three maps of [runTurn] hold for a turn, in terms of the
    messages the listeners were handed. *)
Lemma collect_spec messages : forall turnId,
  or_default (smap_get turnId (itemsByTurn (collect messages))) []
  = items_for turnId messages
  /\ smap_get turnId (diffByTurn (collect messages)) = last_diff turnId messages
  /\ or_default (smap_get turnId (agentMessagesByTurn (collect messages))) []
     = accumulate (texts_for turnId messages).
Proof.
  induction messages as [|m messages IH] using rev_ind; intros turnId.
  - repeat split; reflexivity.
  - destruct (IH turnId) as (Hi & Hd & Ht).
    unfold items_for, last_diff, texts_for in *.
    rewrite collect_snoc, !flat_map_app. simpl. rewrite !app_nil_r.
    unfold item_of, diff_of, text_of.
    destruct (handleMessage m) as [e|[[d|d|d|d]|]];
      rewrite ?app_nil_r; try (repeat split; assumption).
    + (* item/completed *)
      simpl. unfold onItemCompleted.
      destruct (IH (it_turnId d)) as (Hi' & _ & Ht').
      unfold items_for, texts_for in Hi', Ht'.
      destruct (type_is "agentMessage" (it_item d)) eqn:Ea;
        unfold append_text; cbn [itemsByTurn diffByTurn agentMessagesByTurn];
        rewrite ?smap_get_set;
        destruct (str_eqb (it_turnId d) turnId) eqn:E; simpl;
        rewrite ?app_nil_r;
        try (apply str_eqb_spec in E; subst turnId);
        repeat split; try assumption; try (now rewrite Hi);
        try (now rewrite Hi').
      rewrite accumulate_snoc. unfold accumulate_step. cbn [fst snd].
      now rewrite Ht'.
    + (* item/agentMessage/delta *)
      simpl. unfold onAgentDelta, append_text.
      destruct (IH (ad_turnId d)) as (_ & _ & Ht').
      unfold texts_for in Ht'.
      cbn [itemsByTurn diffByTurn agentMessagesByTurn].
      rewrite ?smap_get_set.
      destruct (str_eqb (ad_turnId d) turnId) eqn:E; simpl;
        rewrite ?app_nil_r;
        try (apply str_eqb_spec in E; subst turnId);
        repeat split; try assumption.
      rewrite accumulate_snoc. unfold accumulate_step. cbn [fst snd].
      now rewrite Ht'.
    + (* turn/diff/updated *)
      simpl. unfold onDiff. cbn [itemsByTurn diffByTurn agentMessagesByTurn].
      rewrite ?smap_get_set.
      destruct (str_eqb (du_turnId d) turnId) eqn:E; simpl;
        rewrite ?app_nil_r; repeat split; try assumption.
      now rewrite last_opt_snoc.
Qed.

Lemma run_snoc evs ev c : run (evs ++ [ev]) c = step ev (run evs c).
Proof. unfold run. now rewrite fold_left_app. Qed.

Lemma settled_step ev c r : stage c = Settled r -> stage (step ev c) = Settled r.
Proof.
  intros H. destruct ev; simpl; rewrite ?H; auto.
  destruct (handleMessage message) as [e|[ev|]]; auto.
  unfold on_internal. now rewrite H.
Qed.

Lemma settled_run evs : forall c r,
  stage c = Settled r -> stage (run evs c) = Settled r.
Proof.
  induction evs as [|ev evs IH]; intros c r H; simpl; [exact H|].
  apply IH. now apply settled_step.
Qed.

Lemma collected_step ev c :
  (forall r, stage (step ev c) <> Settled r) ->
  collected (step ev c)
  = match ev with
    | Delivered m =>
        match handleMessage m with
        | inr (Some internal) => listen internal (collected c)
        | _ => collected c
        end
    | _ => collected c
    end.
Proof.
  intros Hn. destruct ev; simpl in *.
  - destruct (handleMessage message) as [e|[internal|]]; try reflexivity.
    unfold on_internal in *. destruct (stage c) eqn:Es; simpl in *;
      try reflexivity.
    + destruct internal; try reflexivity.
      destruct (str_eqb (string_at "id" (tc_turn data)) turnId); reflexivity.
    + exfalso. eapply Hn. reflexivity.
  - destruct (stage c); try reflexivity. destruct s; try reflexivity.
    destruct (extractTurn value); try reflexivity.
    destruct (smap_get (string_at "id" j) (completedTurns c)); reflexivity.
  - destruct (stage c); reflexivity.
  - destruct (stage c); reflexivity.
Qed.

Lemma collected_run evs cache :
  (forall r, stage (run evs (start cache)) <> Settled r) ->
  collected (run evs (start cache)) = collect (delivered evs).
Proof.
  induction evs as [|ev evs IH] using rev_ind; intros Hn; [reflexivity|].
  rewrite run_snoc in *.
  assert (Hprev : forall r, stage (run evs (start cache)) <> Settled r).
  { intros r Hr. apply (Hn r). now apply settled_step. }
  rewrite (collected_step _ _ Hn), (IH Hprev).
  unfold delivered. rewrite flat_map_app. simpl.
  destruct ev; rewrite ?app_nil_r; try reflexivity.
  now rewrite collect_snoc.
Qed.

Lemma first_agent_text_find items :
  first_agent_text items = option_map text_field (find has_agent_text items).
Proof.
  induction items as [|item items IH]; simpl; [reflexivity|].
  unfold has_agent_text, text_field.
  destruct (type_is "agentMessage" item); simpl; [|exact IH].
  destruct (as_string (prop "text" item)) as [[|c text]|] eqn:E; simpl;
    try exact IH. now rewrite E.
Qed.

Lemma completed_not_failed t : status_is "completed" t = true -> status_is "failed" t = false.
Proof.
  unfold status_is. destruct (as_string (prop "status" t)) as [s|]; [|discriminate].
  intros H. apply str_eqb_spec in H. subst s. reflexivity.
Qed.

(** C4, as the code has it.  When the turn that [runTurn] waits for has
    completed and [runTurn] resumes, it resolves with: the completed turn;
    the items of the item/completed notifications that its listeners were
    handed for that turn id, in the order of arrival; as agent message the
    text of the first of these items that is of kind agentMessage and has
    a non-empty string as text, and when there is none, the texts
    accumulated per item for that turn (streamed deltas, in the order
    received), concatenated item by item in the order in which the items
    were first heard of, which is the empty string when there are none;
    and as diff the diff of the last turn/diff/updated notification handed
    over for that turn id, absent when there was none. *)
Theorem completed_turn_result cache pre turnId t :
  stage (run pre (start cache)) = Completing turnId t ->
  status_is "completed" t = true ->
  let observed := delivered pre in
  let items := items_for turnId observed in
  let pieces := texts_for turnId observed in
  stage (run (pre ++ [Resumed]) (start cache))
  = Settled
      (Resolved
         {| turn := t;
            items := items;
            agentMessage :=
              match find has_agent_text items with
              | Some item => text_field item
              | None =>
                  concat (map (fun id => text_of_item id pieces)
                              (first_ids (map fst pieces)))
              end;
            diff := last_diff turnId observed |}).
Proof.
  intros Hs Hc observed items pieces.
  rewrite run_snoc. simpl. rewrite Hs. simpl. unfold finish.
  rewrite (completed_not_failed _ Hc).
  assert (Hn : forall r, stage (run pre (start cache)) <> Settled r).
  { intros r. rewrite Hs. discriminate. }
  rewrite (collected_run _ _ Hn).
  destruct (collect_spec (delivered pre) turnId) as (Hi & Hd & Ht).
  rewrite Hi, Hd, Ht, accumulate_grouped.
  unfold extractAgentMessage. rewrite first_agent_text_find.
  fold observed. fold items. fold pieces.
  destruct (find has_agent_text items); simpl; [reflexivity|].
  unfold grouped. rewrite map_map. reflexivity.
Qed.

(** C5. When the turn that [runTurn] waits for has ended with status
    "failed" and [runTurn] resumes, it rejects, and whatever follows it
    stays rejected: it never resolves with a value.  The error carries the
    message the peer supplied in [turn.error.message], and "Turn failed"
    when the peer supplied none. *)
Theorem failed_turn_rejects cache pre turnId t post :
  stage (run pre (start cache)) = Completing turnId t ->
  status_is "failed" t = true ->
  stage (run (pre ++ Resumed :: post) (start cache))
  = Settled (RejectedWith (failure_message t))
  /\ (forall s, oprop "message" (prop "error" t) = Some (JStr s) ->
        failure_message t = s)
  /\ (oprop "message" (prop "error" t) = None ->
        failure_message t = js "Turn failed").
Proof.
  intros Hs Hf. split; [|split].
  - unfold run. rewrite fold_left_app. simpl. apply settled_run.
    fold (run pre (start cache)). rewrite Hs. simpl. unfold finish.
    now rewrite Hf.
  - intros s H. unfold failure_message. rewrite H. now rewrite ToString_string.
  - intros H. unfold failure_message. now rewrite H.
Qed.

End ClientFacts.

(** ** The properties at work on the example runs *)

Section Runs.
Import Reference Examples Transport.

Lemma reachable_after cb fuel evs : @reachable host cb (after cb fuel evs).
Proof.
  unfold after.
  destruct (@run host cb fuel evs (create true)) as [st|] eqn:E.
  - eapply reachable_run; [apply reachable_create|exact E].
  - apply reachable_create.
Qed.

Lemma run_after cb fuel evs :
  is_some (@run host cb fuel evs (create true)) = true ->
  @run host cb fuel evs (create true) = Some (after cb fuel evs).
Proof.
  unfold after. destruct (@run host cb fuel evs (create true)); simpl;
    [reflexivity|discriminate].
Qed.

Lemma step_next cb fuel ev st :
  is_some (@step host cb fuel ev st) = true ->
  @step host cb fuel ev st = Some (next cb fuel ev st).
Proof.
  unfold next. destruct (@step host cb fuel ev st); simpl;
    [reflexivity|discriminate].
Qed.

Lemma step_after cb fuel ev :
  is_some (@step host cb fuel ev (create true)) = true ->
  @step host cb fuel ev (create true) = Some (after cb fuel [ev]).
Proof.
  unfold after. simpl. destruct (@step host cb fuel ev (create true)); simpl;
    [reflexivity|discriminate].
Qed.

Lemma returns_returned (o : @outcome host) st :
  returns o = true -> o = Returns (returned o st).
Proof. destruct o; simpl; [reflexivity|discriminate|discriminate]. Qed.

Lemma read_failure_rejected (st : @transport host) e :
  read_failure st = Some e -> readLoop st = ReadRejected e.
Proof.
  unfold read_failure. destruct (readLoop st); [discriminate| discriminate|].
  now intros [= ->].
Qed.

Lemma timeout_then_late_response_witness :
  exists tm,
    @reachable host plain one_pending
    /\ find_timer 0 (timers one_pending) = Some tm
    /\ tm_id tm < 2 ^ 53
    /\ @step host plain 0 (TimerFired 0) one_pending
       = Some (next plain 0 (TimerFired 0) one_pending)
    /\ map_get 0 (pending (next plain 0 (TimerFired 0) one_pending)) = None
    /\ resolvePending good_response (next plain 0 (TimerFired 0) one_pending)
       = Returns (next plain 0 (TimerFired 0) one_pending).
Proof.
  assert (R : @reachable host plain one_pending) by apply reachable_after.
  destruct (find_timer 0 (timers one_pending)) as [tm|] eqn:Ht;
    [|vm_compute in Ht; discriminate].
  assert (Hs : @step host plain 0 (TimerFired 0) one_pending
               = Some (next plain 0 (TimerFired 0) one_pending)).
  { apply step_next. vm_compute. reflexivity. }
  vm_compute in Ht. injection Ht as <-.
  assert (Ht : find_timer 0 (timers one_pending)
               = Some {| tm_id := 0; tm_method := js "thread/list";
                         tm_promise := 0; tm_ms := 30000 |}).
  { vm_compute. reflexivity. }
  assert (Hid : 0 < 2 ^ 53) by reflexivity.
  destruct (@timeout_then_late_response host plain one_pending 0 _ 0 _
              R Ht Hid Hs) as (c & _ & _ & _ & _ & _ & _ & Hgone & Hlate).
  eexists. split; [exact R|]. split; [exact Ht|]. split; [exact Hid|].
  split; [exact Hs|]. split; [exact Hgone|].
  apply (Hlate 0%nat [] _ good_response eq_refl).
  vm_compute. reflexivity.
Defined.

Lemma request_on_closed_transport_witness :
  @reachable host plain closed_down
  /\ closed closed_down = true
  /\ nextRequestId closed_down < 2 ^ 53
  /\ pending (snd (request (js "thread/list") None 30000 closed_down))
     = pending closed_down
  /\ promise_state 0 (snd (request (js "thread/list") None 30000 closed_down))
     = Some (Rejected (js "transport is closed")).
Proof.
  assert (R : @reachable host plain closed_down) by apply reachable_after.
  assert (H1 : closed closed_down = true) by (vm_compute; reflexivity).
  assert (H2 : nextRequestId closed_down < 2 ^ 53) by (vm_compute; reflexivity).
  repeat (split; [assumption|]).
  destruct (@request_on_closed_transport host plain closed_down
              (js "thread/list") None 30000 R H1 H2)
    as (Hp & Hst & _ & Hpend & _).
  split; [exact Hpend|]. rewrite Hp in Hst. exact Hst.
Defined.

Lemma second_close_is_noop_witness :
  @reachable host plain (create true)
  /\ @step host plain 0 (Call CallClose) (create true) = Some closed_down
  /\ @run host plain 0 [Call CallClose; StdoutEnd; ProcessExited 0] (create true)
     = Some (after plain 0 [Call CallClose; StdoutEnd; ProcessExited 0])
  /\ closed (after plain 0 [Call CallClose; StdoutEnd; ProcessExited 0]) = true
  /\ @step host plain 7 (Call CallClose)
       (after plain 0 [Call CallClose; StdoutEnd; ProcessExited 0])
     = Some (after plain 0 [Call CallClose; StdoutEnd; ProcessExited 0]).
Proof.
  assert (R : @reachable host plain (create true)) by apply reachable_create.
  assert (H1 : @step host plain 0 (Call CallClose) (create true)
               = Some closed_down).
  { apply step_after. vm_compute. reflexivity. }
  assert (H2 : @run host plain 0 [Call CallClose; StdoutEnd; ProcessExited 0]
                 (create true)
               = Some (after plain 0 [Call CallClose; StdoutEnd; ProcessExited 0])).
  { apply run_after. vm_compute. reflexivity. }
  assert (H3 : @run host plain 0 [StdoutEnd; ProcessExited 0] closed_down
               = Some (after plain 0 [Call CallClose; StdoutEnd; ProcessExited 0])).
  { rewrite <- H2. change (@run host plain 0 [Call CallClose; StdoutEnd; ProcessExited 0]
                             (create true))
      with (match @step host plain 0 (Call CallClose) (create true) with
            | Some st' => @run host plain 0 [StdoutEnd; ProcessExited 0] st'
            | None => None
            end).
    rewrite H1. reflexivity. }
  repeat (split; [assumption|]).
  exact (@second_close_is_noop host plain (create true) 0 closed_down
           [StdoutEnd; ProcessExited 0] _ 7 R H1 H3).
Defined.

Lemma chunking_is_invisible_witness :
  @reachable host plain (create true)
  /\ decoded [wire "{'method':'a'}|{'me"; wire "thod':'b'}|"]
     = decoded [wire "{'method':'a'}|{'method':'b'}|"]
  /\ @run host plain 3
       (map StdoutChunk [wire "{'method':'a'}|{'me"; wire "thod':'b'}|"])
       (create true)
     = @step host plain 3 (StdoutChunk (wire "{'method':'a'}|{'method':'b'}|"))
         (create true).
Proof.
  assert (R : @reachable host plain (create true)) by apply reachable_create.
  split; [exact R|].
  destruct (@chunking_is_invisible host plain 3 (create true)
              (wire "{'method':'a'}|{'me") [wire "thod':'b'}|"] R)
    as (H1 & H2 & _).
  split; [exact H1|exact H2].
Defined.

Lemma dispatch_serves_the_live_set_witness :
  @reachable host recruiting subscribed_1
  /\ returns (@emitMessage host recruiting 3 notification subscribed_1) = true
  /\ exists ds,
       seen (returned (@emitMessage host recruiting 3 notification subscribed_1)
               subscribed_1)
       = seen subscribed_1 ++ ds
       /\ In (GotMessage 2%nat notification) ds.
Proof.
  assert (R : @reachable host recruiting subscribed_1) by apply reachable_after.
  assert (H1 : returns (@emitMessage host recruiting 3 notification subscribed_1)
               = true) by (vm_compute; reflexivity).
  split; [exact R|]. split; [exact H1|].
  destruct (@dispatch_serves_the_live_set host recruiting 3 notification
              subscribed_1 _ R (returns_returned _ subscribed_1 H1))
    as (js & ds & Hseen & _ & _ & Hlive & _).
  exists ds. split; [exact Hseen|].
  apply (Hlive 1%nat 2%nat).
  vm_compute. reflexivity.
Defined.

Lemma completed_turn_result_witness :
  Client.stage (Client.run (turn_events "completed") (Client.start []))
  = Client.Completing (js "turn-1") (ended_turn "completed")
  /\ Client.status_is "completed" (ended_turn "completed") = true
  /\ exists r,
       Client.stage
         (Client.run (turn_events "completed" ++ [Client.Resumed]) (Client.start []))
       = Client.Settled (Client.Resolved r)
       /\ Client.agentMessage r = js "hello world"
       /\ length (Client.items r) = 2%nat
       /\ Client.diff r = Some (js "d1").
Proof.
  assert (H1 : Client.stage (Client.run (turn_events "completed") (Client.start []))
               = Client.Completing (js "turn-1") (ended_turn "completed")).
  { vm_compute. reflexivity. }
  assert (H2 : Client.status_is "completed" (ended_turn "completed") = true).
  { vm_compute. reflexivity. }
  repeat (split; [assumption|]).
  pose proof (@completed_turn_result host [] (turn_events "completed")
                (js "turn-1") (ended_turn "completed") H1 H2) as H.
  cbv zeta in H. eexists. split; [exact H|].
  vm_compute. repeat split; reflexivity.
Defined.

Lemma failed_turn_rejects_witness :
  Client.stage (Client.run (turn_events "failed") (Client.start []))
  = Client.Completing (js "turn-1") (ended_turn "failed")
  /\ Client.status_is "failed" (ended_turn "failed") = true
  /\ Client.stage
       (Client.run (turn_events "failed" ++ [Client.Resumed; Client.WaitTimedOut])
          (Client.start []))
     = Client.Settled (Client.RejectedWith (js "boom")).
Proof.
  assert (H1 : Client.stage (Client.run (turn_events "failed") (Client.start []))
               = Client.Completing (js "turn-1") (ended_turn "failed")).
  { vm_compute. reflexivity. }
  assert (H2 : Client.status_is "failed" (ended_turn "failed") = true).
  { vm_compute. reflexivity. }
  repeat (split; [assumption|]).
  destruct (@failed_turn_rejects host [] (turn_events "failed") (js "turn-1")
              (ended_turn "failed") [Client.WaitTimedOut] H1 H2)
    as (Hs & Hm & _).
  rewrite Hs, (Hm (js "boom")); [reflexivity|]. vm_compute. reflexivity.
Defined.

(** *** Where the specification says more than the code does *)

(** C2 as stated fails for an error of the read stream: the read loop
    ends, [close()] was not called, and the pending request stays in the
    registry with its promise unsettled. *)
Lemma stream_error_rejects_nothing :
  exists st,
    @run host plain 0 stream_broke (create true) = Some st
    /\ readLoop st = ReadRejected (ErrorObject (js "read failed"))
    /\ closeInitiated st = false
    /\ map_get 0 (pending st) = Some {| settles := 0; timeout := 0 |}
    /\ promise_state 0 st = None.
Proof.
  exists (after plain 0 stream_broke).
  split; [apply run_after; vm_compute; reflexivity|].
  split; [apply read_failure_rejected; vm_compute; reflexivity|].
  split; [vm_compute; reflexivity|].
  split; vm_compute; reflexivity.
Qed.

(** C7 as stated fails when an error callback throws: the exception ends
    the read loop, and the well-formed notification that follows the bad
    line in the same chunk reaches no message callback. *)
Lemma throwing_error_callback_ends_the_read_loop :
  exists st,
    @run host throwing 4 bad_then_good (create true) = Some st
    /\ readLoop st = ReadRejected (ErrorObject (js "Unhandled error"))
    /\ messageHandlers st = [Some 2%nat]
    /\ seen st = [GotError 1%nat (parse_failure (js "not json"))].
Proof.
  exists (after throwing 4 bad_then_good).
  split; [apply run_after; vm_compute; reflexivity|].
  split; [apply read_failure_rejected; vm_compute; reflexivity|].
  split; [vm_compute; reflexivity|].
  split; vm_compute; reflexivity.
Qed.

(** C8 as stated fails: callback 2, which callback 1 registers while it is
    invoked for a notification, was not subscribed when the dispatch began,
    and receives the notification being dispatched. *)
Lemma late_subscriber_receives_the_message_in_flight :
  messageHandlers subscribed_1 = [Some 1%nat]
  /\ exists st,
       @step host recruiting 3 (StdoutChunk (wire "{'method':'turn/started'}|"))
         subscribed_1 = Some st
       /\ seen st = [GotMessage 1%nat notification; GotMessage 2%nat notification].
Proof.
  split; [vm_compute; reflexivity|].
  eexists. split; [apply step_next; vm_compute; reflexivity|].
  vm_compute. reflexivity.
Qed.

(** C4 as stated fails: the first item of kind agentMessage has the empty
    text, which is what the specification's wording gives, and [runTurn]
    returns the text of the second. *)
Lemma first_agent_message_with_empty_text_is_skipped :
  exists r,
    Client.stage
      (Client.run (turn_events "completed" ++ [Client.Resumed]) (Client.start []))
    = Client.Settled (Client.Resolved r)
    /\ Client.agentMessage r = js "hello world"
    /\ forall deltas,
         agentMessage_as_specified (Client.items r) deltas = js ""
         /\ Client.agentMessage r
            <> agentMessage_as_specified (Client.items r) deltas.
Proof.
  eexists. split; [vm_compute; reflexivity|].
  split; [vm_compute; reflexivity|].
  intros deltas. split; [reflexivity|]. vm_compute. discriminate.
Qed.

End Runs.

(** * Further properties of the transport *)

(** ** What every path through the transport preserves *)

Section Preserved.
Context {host : Host} {callbacks : Callbacks}.
Import Transport.

Variable P : transport -> Prop.
Variable ok : command -> Prop.

Hypothesis P_call :
  forall c st st', ok c -> P st -> state_of (call c st) = Some st' -> P st'.

Lemma preserved_run_body body : forall st st',
  Forall ok body -> P st -> state_of (run_body body st) = Some st' -> P st'.
Proof.
  induction body as [|c rest IH]; intros st st' Hok HP; simpl.
  - now intros [= <-].
  - inversion Hok as [|? ? Hc Hrest]; subst.
    destruct (call c st) as [s1|e s1|] eqn:E; simpl; try discriminate.
    + intros H. apply (IH s1 st'); auto.
      eapply P_call; [exact Hc|exact HP|now rewrite E].
    + intros [= <-]. eapply P_call; [exact Hc|exact HP|now rewrite E].
Qed.

Section Channel.
Variable ch : channel.
Hypothesis ch_ok : forall h before, Forall ok (body_of ch h before).
Hypothesis P_observe :
  forall h j st,
    nth_error (entries ch st) j = Some (Some h) -> P st ->
    P (with_seen (seen st ++ [observe ch h]) st).

Lemma preserved_emit_from fuel : forall i st st',
  P st -> state_of (emit_from ch fuel i st) = Some st' -> P st'.
Proof.
  induction fuel as [|fuel IH]; intros i st st' HP; simpl;
    destruct (nth_error (entries ch st) i) as [[h|]|] eqn:E; simpl;
    try discriminate; try (intros [= <-]; exact HP).
  - unfold invoke.
    pose proof (fun s => @preserved_run_body (body_of ch h (seen st))
                           (with_seen (seen st ++ [observe ch h]) st) s
                           (ch_ok h (seen st)) (@P_observe h i st E HP)) as Hb.
    destruct (run_body (body_of ch h (seen st))
                (with_seen (seen st ++ [observe ch h]) st)) as [s1|e s1|];
      simpl in *; try discriminate.
    + apply IH. now apply Hb.
    + intros [= <-]. now apply Hb.
  - apply IH. exact HP.
Qed.
End Channel.

Hypothesis message_ok : forall h before m, Forall ok (on_message_body h before m).
Hypothesis error_ok : forall h before e, Forall ok (on_error_body h before e).
Hypothesis P_message :
  forall m h j st,
    nth_error (messageHandlers st) j = Some (Some h) -> P st ->
    P (with_seen (seen st ++ [GotMessage h m]) st).
Hypothesis P_error :
  forall e h j st,
    nth_error (errorHandlers st) j = Some (Some h) -> P st ->
    P (with_seen (seen st ++ [GotError h e]) st).

Lemma preserved_emitMessage fuel message st st' :
  P st -> state_of (emitMessage fuel message st) = Some st' -> P st'.
Proof.
  apply (@preserved_emit_from (message_channel message)); simpl.
  - intros h before. apply message_ok.
  - intros h j s. apply P_message.
Qed.

Lemma preserved_emitError fuel error st st' :
  P st -> state_of (emitError fuel error st) = Some st' -> P st'.
Proof.
  apply (@preserved_emit_from (error_channel error)); simpl.
  - intros h before. apply error_ok.
  - intros h j s. apply P_error.
Qed.

Hypothesis P_resolvePending :
  forall response st st',
    P st -> state_of (resolvePending response st) = Some st' -> P st'.

Lemma preserved_handleLine fuel line st st' :
  P st -> state_of (handleLine fuel line st) = Some st' -> P st'.
Proof.
  intros HP. unfold handleLine. destruct (JSON_parse line) as [message|].
  - destruct (isJsonRpcResponse message) as [e|[|]]; simpl.
    + now intros [= <-].
    + pose proof (@P_resolvePending message st) as Hr.
      destruct (resolvePending message st) as [s1|e s1|]; simpl in *;
        try discriminate.
      * apply preserved_emitMessage. now apply Hr.
      * intros [= <-]. now apply Hr.
    + now apply preserved_emitMessage.
  - now apply preserved_emitError.
Qed.

Lemma preserved_handle_all fuel units : forall st st',
  P st -> state_of (handle_all fuel units st) = Some st' -> P st'.
Proof.
  induction units as [|l units IH]; intros st st' HP; simpl.
  - now intros [= <-].
  - pose proof (@preserved_handleLine fuel l st) as H.
    destruct (handleLine fuel l st) as [s1|e s1|]; simpl in *; try discriminate.
    + apply IH. now apply H.
    + intros [= <-]. now apply H.
Qed.

Hypothesis P_readLoop :
  forall v st, reading st = true -> P st -> P (with_readLoop v st).
Hypothesis P_rejectAllPending :
  forall error st, P st -> P (rejectAllPending error st).
Hypothesis P_exited : forall st, P st -> P (with_exited st).
Hypothesis P_timer : forall t st, P st -> P (timer_fires t st).
Hypothesis P_close_after_readLoop : forall st, P st -> P (close_after_readLoop st).
Hypothesis P_close_after_exited : forall st, P st -> P (close_after_exited st).

Lemma preserved_settle_readLoop final fuel units st st' :
  inv st -> reading st = true -> P st ->
  settle_readLoop final (handle_all fuel units st) = Some st' -> P st'.
Proof.
  intros I Hr HP.
  pose proof (calm_handle_all fuel units I) as C.
  pose proof (@preserved_handle_all fuel units st) as H.
  assert (Hk : forall s1, calm st s1 -> reading s1 = true).
  { intros s1 (C1 & _). unfold reading in *. now rewrite C1. }
  destruct (handle_all fuel units st) as [s1|e s1|]; simpl in *;
    try discriminate; intros [= <-]; apply P_readLoop; auto.
Qed.

Lemma preserved_exited_catch fuel e st st' :
  P st -> state_of (exited_catch fuel e st) = Some st' -> P st'.
Proof.
  intros HP. unfold exited_catch. destruct (toError e); simpl.
  - now intros [= <-].
  - apply preserved_emitError. now apply P_rejectAllPending.
Qed.

Theorem preserved_step fuel ev st st' :
  inv st -> (forall c, ev = Call c -> ok c) -> P st ->
  step fuel ev st = Some st' -> P st'.
Proof.
  intros I Hok HP. unfold step.
  match goal with
  | |- option_map_state _ ?o = _ -> _ =>
      destruct o as [st1|] eqn:E; simpl; [|discriminate]
  end.
  intros [= <-]. unfold close_resume.
  apply P_close_after_exited, P_close_after_readLoop.
  destruct ev.
  - eapply P_call; [apply Hok; reflexivity|exact HP|exact E].
  - unfold on_chunk in E. destruct (readLoop st) as [dec buffer| |] eqn:Hr;
      try (injection E as <-; exact HP).
    assert (E' : on_chunk fuel value st = Some st1).
    { unfold on_chunk. now rewrite Hr. }
    rewrite (on_chunk_feed _ _ _ Hr) in E'.
    eapply preserved_settle_readLoop; eauto. unfold reading. now rewrite Hr.
  - destruct (readLoop st) as [dec buffer| |] eqn:Hr;
      try (unfold on_end in E; rewrite Hr in E; injection E as <-; exact HP).
    rewrite (@on_end_flush _ _ fuel st dec buffer Hr) in E.
    eapply preserved_settle_readLoop; eauto. unfold reading. now rewrite Hr.
  - injection E as <-. unfold on_read_error.
    destruct (readLoop st) eqn:Hr; auto.
    apply P_readLoop; auto. unfold reading. now rewrite Hr.
  - destruct (exited st); [injection E as <-; exact HP|].
    unfold exited_then in E. cbn [closeInitiated with_exited] in E.
    destruct (closeInitiated st).
    + injection E as <-. now apply P_exited.
    + pose proof (@preserved_emitError fuel (exit_error code)
                    (rejectAllPending (exit_error code) (with_exited st))) as H.
      destruct (emitError fuel (exit_error code)
                  (rejectAllPending (exit_error code) (with_exited st)))
        as [s1|e s1|]; simpl in *; try discriminate.
      * injection E as <-. apply H; auto.
      * eapply preserved_exited_catch; [|exact E]. apply H; auto.
  - destruct (exited st); [injection E as <-; exact HP|].
    eapply preserved_exited_catch; [|exact E].
    apply P_close_after_exited, P_exited, HP.
  - injection E as <-. now apply P_timer.
Qed.

Lemma preserved_run fuel evs : forall st st',
  inv st -> Forall (fun ev => forall c, ev = Call c -> ok c) evs -> P st ->
  run fuel evs st = Some st' -> P st'.
Proof.
  induction evs as [|ev evs IH]; intros st st' I Hok HP; simpl.
  - now intros [= <-].
  - inversion Hok as [|? ? H1 H2]; subst.
    destruct (step fuel ev st) as [s1|] eqn:E; [|discriminate].
    apply IH; auto.
    + apply (proj1 (@evolves_step _ _ fuel ev st s1 E I)).
    + eapply preserved_step; eauto.
Qed.

End Preserved.

(** A property that survives the common end of a request survives every
    way a request ends. *)
Section Retiring.
Context {host : Host} {callbacks : Callbacks}.
Import Transport.

Variable P : transport -> Prop.
Hypothesis P_retire : forall t k p s st, P st -> P (retire t k p s st).
Hypothesis P_closing : forall v st, P st -> P (with_closing v st).
Hypothesis P_dropped : forall t k st, P st -> P (dropped t k st).

Lemma retiring_resolvePending response st st' :
  P st -> state_of (resolvePending response st) = Some st' -> P st'.
Proof.
  intros HP. rewrite resolvePending_unfold.
  destruct (as_integer (prop "id" response)); [|now intros [= <-]].
  destruct (map_get z (pending st)); [|now intros [= <-]].
  destruct (verdict response); simpl; intros [= <-].
  - now apply P_dropped.
  - now apply P_retire.
Qed.

Lemma retiring_timer_fires t st : P st -> P (timer_fires t st).
Proof.
  intros HP. unfold timer_fires.
  destruct (find_timer t (timers st)) as [tm|]; [|exact HP].
  change (P (retire t (tm_id tm) (tm_promise tm)
               (Rejected (timeout_error (tm_method tm))) st)).
  now apply P_retire.
Qed.

Lemma retiring_reject_each error entries :
  forall st, P st -> P (reject_each error entries st).
Proof.
  induction entries as [|[id p] rest IH]; intros st HP; simpl; [exact HP|].
  change (P (reject_each error rest
               (retire (timeout p) id (settles p) (Rejected error) st))).
  now apply IH, P_retire.
Qed.

Lemma retiring_rejectAllPending error st : P st -> P (rejectAllPending error st).
Proof. apply retiring_reject_each. Qed.

Lemma retiring_close_after_readLoop st : P st -> P (close_after_readLoop st).
Proof.
  intros HP. unfold close_after_readLoop.
  destruct (closing st), (readLoop st); auto.
Qed.

Lemma retiring_close_after_exited st : P st -> P (close_after_exited st).
Proof.
  intros HP. unfold close_after_exited.
  destruct (closing st); auto. destruct (exited st); auto.
  now apply P_closing, retiring_rejectAllPending.
Qed.

End Retiring.

(** ** What the callbacks have been handed only grows *)

Section Log.
Context {host : Host} {callbacks : Callbacks}.
Import Transport.

Lemma seen_emit_from ch fuel : forall i st st',
  state_of (emit_from ch fuel i st) = Some st' ->
  exists ds,
    seen st' = seen st ++ ds
    /\ Forall (fun d => exists h, d = observe ch h) ds.
Proof.
  induction fuel as [|fuel IH]; intros i st st'; simpl;
    destruct (nth_error (entries ch st) i) as [[h|]|]; simpl;
    try discriminate;
    try (intros [= <-]; exists []; split; [now rewrite app_nil_r|constructor]).
  - pose proof (@seen_invoke _ ch h st) as Hi.
    destruct (invoke ch h st) as [s1|e s1|]; simpl in *; try discriminate.
    + intros H. destruct (IH _ _ _ H) as (ds & Hds & Hall).
      exists (observe ch h :: ds). split.
      * rewrite Hds, (Hi s1 eq_refl), <- app_assoc. reflexivity.
      * constructor; [now exists h|exact Hall].
    + intros [= <-]. exists [observe ch h]. split; [now apply Hi|].
      constructor; [now exists h|constructor].
  - apply IH.
Qed.

(** The log of the state extends the log [before]. *)
Lemma extends_step before fuel ev st st' :
  inv st -> (exists ds, seen st = before ++ ds) ->
  step fuel ev st = Some st' -> exists ds, seen st' = before ++ ds.
Proof.
  intros I HP.
  assert (Hf : forall s s', seen s' = seen s ->
                 (exists ds, seen s = before ++ ds) ->
                 exists ds, seen s' = before ++ ds).
  { intros s s' ->. auto. }
  assert (Hretire : forall t k p s s0,
            (exists ds, seen s0 = before ++ ds) ->
            exists ds, seen (retire t k p s s0) = before ++ ds).
  { intros t k p s s0. now apply Hf. }
  assert (Hclosing : forall v s0,
            (exists ds, seen s0 = before ++ ds) ->
            exists ds, seen (with_closing v s0) = before ++ ds).
  { intros v s0. now apply Hf. }
  refine (@preserved_step _ _ (fun s => exists ds, seen s = before ++ ds)
            any_command _ _ _ _ _ _ _ _ _ _ _ _ fuel ev st st' I _ HP).
  - intros c s s' _ H Hs. revert H. apply Hf. now apply (seen_call c s).
  - intros h before' m. apply Forall_forall. intros; exact Logic.I.
  - intros h before' e. apply Forall_forall. intros; exact Logic.I.
  - intros m h j s _ (ds & H). exists (ds ++ [GotMessage h m]).
    cbn. now rewrite H, app_assoc.
  - intros e h j s _ (ds & H). exists (ds ++ [GotError h e]).
    cbn. now rewrite H, app_assoc.
  - apply (@retiring_resolvePending _
             (fun s => exists ds, seen s = before ++ ds) Hretire).
    intros t k s. now apply Hf.
  - intros v s _. now apply Hf.
  - apply (@retiring_rejectAllPending _
             (fun s => exists ds, seen s = before ++ ds) Hretire).
  - intros s. now apply Hf.
  - apply (@retiring_timer_fires _
             (fun s => exists ds, seen s = before ++ ds) Hretire).
  - apply (@retiring_close_after_readLoop _
             (fun s => exists ds, seen s = before ++ ds) Hclosing).
  - apply (@retiring_close_after_exited _
             (fun s => exists ds, seen s = before ++ ds) Hretire Hclosing).
  - intros c _. exact Logic.I.
Qed.

Lemma seen_handle_all fuel units st st' :
  state_of (handle_all fuel units st) = Some st' ->
  exists ds, seen st' = seen st ++ ds.
Proof.
  assert (Hf : forall s s', seen s' = seen s ->
                 (exists ds, seen s = seen st ++ ds) ->
                 exists ds, seen s' = seen st ++ ds).
  { intros s s' ->. auto. }
  refine (@preserved_handle_all _ _ (fun s => exists ds, seen s = seen st ++ ds)
            any_command _ _ _ _ _ _ fuel units st st' _).
  - intros c s s' _ H Hs. revert H. apply Hf. now apply (seen_call c s).
  - intros h before' m. apply Forall_forall. intros; exact Logic.I.
  - intros h before' e. apply Forall_forall. intros; exact Logic.I.
  - intros m h j s _ (ds & H). exists (ds ++ [GotMessage h m]).
    cbn. now rewrite H, app_assoc.
  - intros e h j s _ (ds & H). exists (ds ++ [GotError h e]).
    cbn. now rewrite H, app_assoc.
  - apply (@retiring_resolvePending _
             (fun s => exists ds, seen s = seen st ++ ds)).
    + intros t k p x s. now apply Hf.
    + intros t k s. now apply Hf.
  - exists []. now rewrite app_nil_r.
Qed.

Lemma seen_exited_catch fuel e st st' :
  state_of (exited_catch fuel e st) = Some st' ->
  exists ds, seen st' = seen st ++ ds.
Proof.
  unfold exited_catch. destruct (toError e) as [x|normalized]; simpl.
  - intros [= <-]. exists []. now rewrite app_nil_r.
  - intros H.
    destruct (seen_emit_from (error_channel normalized) fuel 0 _ H)
      as (ds & Hds & _).
    exists ds. rewrite Hds. f_equal. unfold rejectAllPending.
    apply (@retiring_reject_each _ (fun s => seen s = seen st)); [|reflexivity].
    intros t k p x s Hs. exact Hs.
Qed.

Lemma seen_step fuel ev st st' :
  inv st -> step fuel ev st = Some st' -> exists ds, seen st' = seen st ++ ds.
Proof.
  intros I. apply extends_step; [exact I|]. exists []. now rewrite app_nil_r.
Qed.

Lemma seen_run fuel evs : forall st st',
  inv st -> run fuel evs st = Some st' -> exists ds, seen st' = seen st ++ ds.
Proof.
  induction evs as [|ev evs IH]; intros st st' I; simpl.
  - intros [= <-]. exists []. now rewrite app_nil_r.
  - destruct (step fuel ev st) as [s1|] eqn:E; [|discriminate].
    intros H. destruct (seen_step _ _ I E) as (ds1 & H1).
    destruct (IH s1 st' (proj1 (@evolves_step _ _ fuel ev st s1 E I)) H)
      as (ds2 & H2).
    exists (ds1 ++ ds2). now rewrite H2, H1, app_assoc.
Qed.

Lemma close_resume_seen st : seen (close_resume st) = seen st.
Proof.
  assert (H : forall s, seen (close_after_exited s) = seen s).
  { intros s. unfold close_after_exited.
    destruct (closing s); try reflexivity.
    destruct (exited s); [|reflexivity].
    cbn [seen with_closing]. unfold rejectAllPending.
    apply (@retiring_reject_each _ (fun s0 => seen s0 = seen s));
      [|reflexivity].
    intros t k p x s0 H. exact H. }
  unfold close_resume. rewrite H. unfold close_after_readLoop.
  destruct (closing st), (readLoop st); reflexivity.
Qed.

End Log.

(** ** What a run preserves, given what its callbacks did

    As [Preserved], for callbacks that are known by the log of the whole
    run only: what a callback does when it is called is read off the place
    of the call in that log. *)

Section Along.
Context {host : Host} {callbacks : Callbacks}.
Import Transport.

Variable P : transport -> Prop.
Variable ok : command -> Prop.
Variable log : list observation.

Hypothesis P_call :
  forall c st st', ok c -> P st -> state_of (call c st) = Some st' -> P st'.
Hypothesis called_ok :
  forall st d rest,
    P st -> log = seen st ++ d :: rest -> Forall ok (body_at (seen st) d).

Lemma within_app st ds st' :
  seen st' = seen st ++ ds -> within log st' -> within log st.
Proof.
  intros H (rest & HL). exists (ds ++ rest). now rewrite HL, H, app_assoc.
Qed.

Lemma within_frame st st' : seen st' = seen st -> within log st' -> within log st.
Proof. unfold within. now intros ->. Qed.

Section Channel.
Variable ch : channel.
Hypothesis ch_body :
  forall h before, body_of ch h before = body_at before (observe ch h).
Hypothesis P_observe :
  forall h j st,
    nth_error (entries ch st) j = Some (Some h) -> P st ->
    P (with_seen (seen st ++ [observe ch h]) st).

Lemma along_invoke h j st st' :
  nth_error (entries ch st) j = Some (Some h) -> P st ->
  state_of (invoke ch h st) = Some st' -> within log st' -> P st'.
Proof.
  intros E HP Hi W.
  pose proof (seen_invoke ch h st Hi) as Hs.
  destruct W as (rest & HL). rewrite Hs, <- app_assoc in HL. simpl in HL.
  unfold invoke in Hi.
  refine (@preserved_run_body _ P ok P_call _ _ _ _ _ Hi).
  - rewrite ch_body. eapply called_ok; [exact HP|exact HL].
  - eapply P_observe; [exact E|exact HP].
Qed.

Lemma along_emit_from fuel : forall i st st',
  P st -> state_of (emit_from ch fuel i st) = Some st' -> within log st' ->
  P st'.
Proof.
  induction fuel as [|fuel IH]; intros i st st' HP; simpl;
    destruct (nth_error (entries ch st) i) as [[h|]|] eqn:E; simpl;
    try discriminate; try (intros [= <-] _; exact HP).
  - pose proof (@along_invoke h i st) as Hi.
    destruct (invoke ch h st) as [s1|e s1|]; simpl in *; try discriminate.
    + intros H W. apply (IH (S i) s1 st'); [|exact H|exact W].
      apply Hi; auto.
      destruct (seen_emit_from ch fuel (S i) s1 H) as (ds & Hds & _).
      eapply within_app; [exact Hds|exact W].
    + intros [= <-] W. apply Hi; auto.
  - apply IH. exact HP.
Qed.
End Channel.

Hypothesis P_message :
  forall m h j st,
    nth_error (messageHandlers st) j = Some (Some h) -> P st ->
    P (with_seen (seen st ++ [GotMessage h m]) st).
Hypothesis P_error :
  forall e h j st,
    nth_error (errorHandlers st) j = Some (Some h) -> P st ->
    P (with_seen (seen st ++ [GotError h e]) st).

Lemma along_emitMessage fuel message st st' :
  P st -> state_of (emitMessage fuel message st) = Some st' -> within log st' ->
  P st'.
Proof.
  apply (@along_emit_from (message_channel message)); simpl.
  - reflexivity.
  - intros h j s. apply P_message.
Qed.

Lemma along_emitError fuel error st st' :
  P st -> state_of (emitError fuel error st) = Some st' -> within log st' ->
  P st'.
Proof.
  apply (@along_emit_from (error_channel error)); simpl.
  - reflexivity.
  - intros h j s. apply P_error.
Qed.

Hypothesis P_resolvePending :
  forall response st st',
    P st -> state_of (resolvePending response st) = Some st' -> P st'.

Lemma along_handleLine fuel line st st' :
  P st -> state_of (handleLine fuel line st) = Some st' -> within log st' ->
  P st'.
Proof.
  intros HP. unfold handleLine. destruct (JSON_parse line) as [message|].
  - destruct (isJsonRpcResponse message) as [e|[|]]; simpl.
    + now intros [= <-].
    + pose proof (@P_resolvePending message st) as Hr.
      destruct (resolvePending message st) as [s1|e s1|]; simpl in *;
        try discriminate.
      * apply along_emitMessage. now apply Hr.
      * intros [= <-] _. now apply Hr.
    + now apply along_emitMessage.
  - now apply along_emitError.
Qed.

Lemma along_handle_all fuel units : forall st st',
  P st -> state_of (handle_all fuel units st) = Some st' -> within log st' ->
  P st'.
Proof.
  induction units as [|l units IH]; intros st st' HP; simpl.
  - now intros [= <-].
  - pose proof (@along_handleLine fuel l st) as H.
    destruct (handleLine fuel l st) as [s1|e s1|]; simpl in *; try discriminate.
    + intros Hrest W. apply (IH s1 st'); [|exact Hrest|exact W].
      apply H; auto.
      destruct (seen_handle_all fuel units s1 Hrest) as (ds & Hds).
      eapply within_app; [exact Hds|exact W].
    + intros [= <-] W. now apply H.
Qed.

Hypothesis P_readLoop :
  forall v st, reading st = true -> P st -> P (with_readLoop v st).
Hypothesis P_rejectAllPending :
  forall error st, P st -> P (rejectAllPending error st).
Hypothesis P_exited : forall st, P st -> P (with_exited st).
Hypothesis P_timer : forall t st, P st -> P (timer_fires t st).
Hypothesis P_close_after_readLoop : forall st, P st -> P (close_after_readLoop st).
Hypothesis P_close_after_exited : forall st, P st -> P (close_after_exited st).

Lemma along_settle_readLoop final fuel units st st' :
  inv st -> reading st = true -> P st ->
  settle_readLoop final (handle_all fuel units st) = Some st' ->
  within log st' -> P st'.
Proof.
  intros I Hr HP.
  pose proof (calm_handle_all fuel units I) as C.
  pose proof (@along_handle_all fuel units st) as H.
  assert (Hk : forall s1, calm st s1 -> reading s1 = true).
  { intros s1 (C1 & _). unfold reading in *. now rewrite C1. }
  destruct (handle_all fuel units st) as [s1|e s1|]; simpl in *;
    try discriminate; intros [= <-] W; apply P_readLoop; auto;
    apply H; auto.
Qed.

Lemma along_exited_catch fuel e st st' :
  P st -> state_of (exited_catch fuel e st) = Some st' -> within log st' ->
  P st'.
Proof.
  intros HP. unfold exited_catch. destruct (toError e); simpl.
  - now intros [= <-].
  - apply along_emitError. now apply P_rejectAllPending.
Qed.

Theorem along_step fuel ev st st' :
  inv st -> (forall c, ev = Call c -> ok c) -> P st ->
  step fuel ev st = Some st' -> within log st' -> P st'.
Proof.
  intros I Hok HP. unfold step.
  match goal with
  | |- option_map_state _ ?o = _ -> _ =>
      destruct o as [st1|] eqn:E; simpl; [|discriminate]
  end.
  intros [= <-] W.
  assert (W1 : within log st1).
  { eapply within_frame; [apply close_resume_seen|exact W]. }
  clear W. rename W1 into W.
  unfold close_resume.
  apply P_close_after_exited, P_close_after_readLoop.
  destruct ev.
  - eapply P_call; [apply Hok; reflexivity|exact HP|exact E].
  - unfold on_chunk in E. destruct (readLoop st) as [dec buffer| |] eqn:Hr;
      try (injection E as <-; exact HP).
    assert (E' : on_chunk fuel value st = Some st1).
    { unfold on_chunk. now rewrite Hr. }
    rewrite (on_chunk_feed _ _ _ Hr) in E'.
    eapply along_settle_readLoop; eauto. unfold reading. now rewrite Hr.
  - destruct (readLoop st) as [dec buffer| |] eqn:Hr;
      try (unfold on_end in E; rewrite Hr in E; injection E as <-; exact HP).
    rewrite (@on_end_flush _ _ fuel st dec buffer Hr) in E.
    eapply along_settle_readLoop; eauto. unfold reading. now rewrite Hr.
  - injection E as <-. unfold on_read_error.
    destruct (readLoop st) eqn:Hr; auto.
    apply P_readLoop; auto. unfold reading. now rewrite Hr.
  - destruct (exited st); [injection E as <-; exact HP|].
    unfold exited_then in E. cbn [closeInitiated with_exited] in E.
    destruct (closeInitiated st).
    + injection E as <-. now apply P_exited.
    + pose proof (@along_emitError fuel (exit_error code)
                    (rejectAllPending (exit_error code) (with_exited st))) as H.
      destruct (emitError fuel (exit_error code)
                  (rejectAllPending (exit_error code) (with_exited st)))
        as [s1|e s1|]; simpl in *; try discriminate.
      * injection E as <-. apply H; auto.
      * eapply along_exited_catch; [|exact E|exact W]. apply H; auto.
        destruct (seen_exited_catch fuel e s1 E) as (ds & Hds).
        eapply within_app; [exact Hds|exact W].
  - destruct (exited st); [injection E as <-; exact HP|].
    eapply along_exited_catch; [|exact E|exact W].
    apply P_close_after_exited, P_exited, HP.
  - injection E as <-. now apply P_timer.
Qed.

Lemma along_run fuel evs : forall st st',
  inv st -> Forall (fun ev => forall c, ev = Call c -> ok c) evs -> P st ->
  run fuel evs st = Some st' -> within log st' -> P st'.
Proof.
  induction evs as [|ev evs IH]; intros st st' I Hok HP; simpl.
  - now intros [= <-].
  - inversion Hok as [|? ? H1 H2]; subst.
    destruct (step fuel ev st) as [s1|] eqn:E; [|discriminate].
    intros Hrest W.
    assert (I1 : inv s1) by apply (proj1 (@evolves_step _ _ fuel ev st s1 E I)).
    apply (IH s1 st'); auto.
    assert (W1 : within log s1).
    { destruct (seen_run fuel evs I1 Hrest) as (ds & Hds).
      eapply within_app; [exact Hds|exact W]. }
    eapply along_step; [exact I|exact H1|exact HP|exact E|exact W1].
Qed.

End Along.

(** ** Request ids *)

Section Identifiers.
Context {host : Host} {callbacks : Callbacks}.
Import Transport.

Lemma js_increment_nth_id n : js_increment (nth_id n) = nth_id (S n).
Proof.
  unfold js_increment, nth_id. rewrite Nat2Z.inj_succ.
  assert (H : 0 < 2 ^ 53) by reflexivity. revert H.
  generalize (2 ^ 53). intros M HM.
  destruct (Z.min (Z.of_nat n) M <? M) eqn:E.
  - apply Z.ltb_lt in E. lia.
  - apply Z.ltb_ge in E. lia.
Qed.

Lemma numbered_frame st st' :
  promises st' = promises st -> nextRequestId st' = nextRequestId st ->
  numbered st -> numbered st'.
Proof. unfold numbered. intros -> ->. auto. Qed.

Lemma numbered_retire t k p s st : numbered st -> numbered (retire t k p s st).
Proof.
  unfold numbered. cbn. rewrite length_update_nth. intros [Hn Hp].
  split; [exact Hn|]. intros q c. rewrite nth_error_update_nth.
  destruct (Nat.eqb p q); [|apply Hp].
  destruct (nth_error (promises st) q) as [c0|] eqn:E; [|discriminate].
  simpl. intros [= <-]. simpl. now apply Hp.
Qed.

Lemma numbered_registered method ms st :
  numbered st -> numbered (registered method ms st).
Proof.
  unfold numbered. cbn. intros [Hn Hp]. rewrite length_app. simpl.
  rewrite Nat.add_1_r, Hn. split; [apply js_increment_nth_id|].
  intros q c. rewrite nth_error_snoc.
  destruct (Nat.eqb q (length (promises st))) eqn:E; [|apply Hp].
  apply Nat.eqb_eq in E. subst q. now intros [= <-].
Qed.

Lemma numbered_call c st st' :
  numbered st -> state_of (call c st) = Some st' -> numbered st'.
Proof.
  intros HN. destruct c; simpl;
    try (intros [= <-]; revert HN; apply numbered_frame; reflexivity).
  - rewrite request_unfold. cbn [snd]. intros [= <-].
    destruct (closed st).
    + now apply numbered_retire, numbered_registered.
    + generalize (numbered_registered method timeoutMs HN).
      apply numbered_frame; reflexivity.
  - unfold send. destruct (closed st); simpl; intros [= <-]; [exact HN|].
    revert HN. apply numbered_frame; reflexivity.
  - unfold close. destruct (closed st); intros [= <-]; [exact HN|].
    revert HN. apply numbered_frame; reflexivity.
Qed.

Lemma numbered_step fuel ev st st' :
  inv st -> numbered st -> step fuel ev st = Some st' -> numbered st'.
Proof.
  intros I HN.
  refine (@preserved_step _ _ numbered any_command _ _ _ _ _ _ _ _ _ _ _ _
            fuel ev st st' I _ HN).
  - intros c s s' _. apply numbered_call.
  - intros h before m. apply Forall_forall. intros; exact Logic.I.
  - intros h before e. apply Forall_forall. intros; exact Logic.I.
  - intros m h j s _. apply numbered_frame; reflexivity.
  - intros e h j s _. apply numbered_frame; reflexivity.
  - apply retiring_resolvePending; [apply numbered_retire|].
    intros t k s. apply numbered_frame; reflexivity.
  - intros v s _. apply numbered_frame; reflexivity.
  - apply retiring_rejectAllPending. apply numbered_retire.
  - intros s. apply numbered_frame; reflexivity.
  - apply retiring_timer_fires. apply numbered_retire.
  - apply retiring_close_after_readLoop.
    intros v s. apply numbered_frame; reflexivity.
  - apply retiring_close_after_exited.
    + apply numbered_retire.
    + intros v s. apply numbered_frame; reflexivity.
  - intros c _. exact Logic.I.
Qed.

Lemma reachable_numbered st : reachable st -> numbered st.
Proof.
  induction 1 as [b|fuel ev st st' R IH Hstep].
  - split; [reflexivity|]. intros [|p] c; discriminate.
  - eapply numbered_step; eauto. now apply reachable_inv.
Qed.

(** X1. The calls of [request] are numbered in the order in which they are
    made, whatever happens between them (responses, timeouts, failures,
    calls made from callbacks): in every state the transport can reach, the
    promise made by call number [p], counting from 0, carries the id [p]
    (and 2^53 from call 2^53 on, where the JavaScript counter stops
    moving), the counter holds the id of the next call, and that call
    returns promise number [n], registers it under the id [n], and on an
    open transport writes the request line with that id. *)
Theorem request_ids_count_up st method params ms :
  reachable st ->
  let n := length (promises st) in
  let st' := snd (request method params ms st) in
  nextRequestId st = nth_id n
  /\ (forall p c, nth_error (promises st) p = Some c -> made_id c = nth_id p)
  /\ fst (request method params ms st) = n
  /\ (exists c, nth_error (promises st') n = Some c
                /\ made_id c = nth_id n /\ made_method c = method)
  /\ nextRequestId st' = nth_id (S n)
  /\ (closed st = false ->
      stdin st' = stdin st ++ [request_line method (nth_id n) params]
      /\ map_get (nth_id n) (pending st')
         = Some {| settles := n; timeout := timer_count st |}).
Proof.
  intros R n st'. destruct (reachable_numbered R) as [Hn Hp].
  split; [exact Hn|]. split; [exact Hp|].
  subst st'. rewrite request_unfold. cbn [fst snd].
  split; [reflexivity|].
  fold n. destruct (closed st) eqn:Ec.
  - split.
    { eexists. cbn. rewrite nth_error_update_nth, Nat.eqb_refl.
      unfold n. rewrite nth_error_snoc, Nat.eqb_refl. simpl.
      split; [reflexivity|]. split; [exact Hn|reflexivity]. }
    split; [|discriminate]. cbn. rewrite Hn. apply js_increment_nth_id.
  - split.
    { eexists. cbn. unfold n. rewrite nth_error_snoc, Nat.eqb_refl.
      split; [reflexivity|]. split; [exact Hn|reflexivity]. }
    split. { cbn. rewrite Hn. apply js_increment_nth_id. }
    intros _. cbn. unfold n. rewrite <- Hn. split; [reflexivity|].
    rewrite map_get_set, Z.eqb_refl. reflexivity.
Qed.

End Identifiers.

(** ** After [close()] *)

Section Shutdown.
Context {host : Host} {callbacks : Callbacks}.
Import Transport.

Lemma silenced_frame lines st st' :
  closed st' = closed st -> stdin st' = stdin st ->
  silenced lines st -> silenced lines st'.
Proof. unfold silenced. intros -> ->. auto. Qed.

Lemma silenced_call lines c st st' :
  silenced lines st -> state_of (call c st) = Some st' -> silenced lines st'.
Proof.
  intros HS. pose proof HS as [Hc Hl]. destruct c; simpl;
    try (intros [= <-]; revert HS; apply silenced_frame; reflexivity).
  - rewrite request_unfold, Hc. cbn [snd]. intros [= <-].
    revert HS. apply silenced_frame; reflexivity.
  - unfold send. rewrite Hc. simpl. now intros [= <-].
  - unfold close. rewrite Hc. now intros [= <-].
Qed.

Lemma silenced_step lines fuel ev st st' :
  inv st -> silenced lines st -> step fuel ev st = Some st' -> silenced lines st'.
Proof.
  intros I HS.
  assert (Hretire : forall t k p s s0,
            silenced lines s0 -> silenced lines (retire t k p s s0)).
  { intros t k p s s0. apply silenced_frame; reflexivity. }
  assert (Hclosing : forall v s0,
            silenced lines s0 -> silenced lines (with_closing v s0)).
  { intros v s0. apply silenced_frame; reflexivity. }
  refine (@preserved_step _ _ (silenced lines) any_command _ _ _ _ _ _ _ _ _ _ _ _
            fuel ev st st' I _ HS).
  - intros c s s' _. apply silenced_call.
  - intros h before m. apply Forall_forall. intros; exact Logic.I.
  - intros h before e. apply Forall_forall. intros; exact Logic.I.
  - intros m h j s _. apply silenced_frame; reflexivity.
  - intros e h j s _. apply silenced_frame; reflexivity.
  - apply retiring_resolvePending; [exact Hretire|].
    intros t k s. apply silenced_frame; reflexivity.
  - intros v s _. apply silenced_frame; reflexivity.
  - now apply retiring_rejectAllPending.
  - intros s. apply silenced_frame; reflexivity.
  - now apply retiring_timer_fires.
  - now apply retiring_close_after_readLoop.
  - now apply retiring_close_after_exited.
  - intros c _. exact Logic.I.
Qed.

Lemma shutdown_frame st st' :
  closed st' = closed st -> closing st' = closing st ->
  closeInitiated st' = closeInitiated st -> stdin_ended st' = stdin_ended st ->
  readLoop st' = readLoop st -> exited st' = exited st ->
  (pending st = [] -> pending st' = []) ->
  shutdown st -> shutdown st'.
Proof.
  intros E1 E2 E3 E4 E5 E6 E7 [S1 S2 S3 S4 S5 S6].
  constructor; unfold reading in *; rewrite ?E1, ?E2, ?E3, ?E4, ?E5, ?E6; auto.
Qed.

Lemma delete_set_nil (k : Z) (v : PendingRequest) :
  map_delete k (map_set k v []) = [].
Proof. unfold map_delete, map_set. simpl. now rewrite Z.eqb_refl. Qed.

Lemma shutdown_retire t k p s st : shutdown st -> shutdown (retire t k p s st).
Proof.
  apply shutdown_frame; try reflexivity. cbn. now intros ->.
Qed.

Lemma shutdown_dropped t k st : shutdown st -> shutdown (dropped t k st).
Proof.
  apply shutdown_frame; try reflexivity. cbn. now intros ->.
Qed.

Lemma shutdown_call c st st' :
  shutdown st -> state_of (call c st) = Some st' -> shutdown st'.
Proof.
  intros HS. destruct c; simpl;
    try (intros [= <-]; revert HS; apply shutdown_frame; auto; reflexivity).
  - rewrite request_unfold. cbn [snd]. intros [= <-].
    destruct (closed st) eqn:Ec.
    + revert HS. apply shutdown_frame; try reflexivity.
      cbn. intros ->. apply delete_set_nil.
    + destruct HS as [S1 S2 S3 S4 S5 S6].
      assert (Hn : closing st = NotClosing).
      { destruct (closing st) eqn:E; [reflexivity| | |];
          exfalso; assert (H : closed st = true) by (apply S1; discriminate);
          congruence. }
      constructor; unfold reading in *; cbn; auto.
      intros H. rewrite Hn in H. discriminate.
  - unfold send. destruct (closed st) eqn:Ec; simpl; intros [= <-]; [exact HS|].
    revert HS. apply shutdown_frame; auto; reflexivity.
  - unfold close. destruct (closed st) eqn:Ec; intros [= <-]; [exact HS|].
    destruct HS as [S1 S2 S3 S4 S5 S6].
    constructor; unfold reading in *; cbn; auto; try discriminate.
    + split; [discriminate|reflexivity].
    + intros [H|H]; discriminate.
Qed.

Lemma reject_each_fields error entries st :
  closed (reject_each error entries st) = closed st
  /\ closing (reject_each error entries st) = closing st
  /\ closeInitiated (reject_each error entries st) = closeInitiated st
  /\ stdin_ended (reject_each error entries st) = stdin_ended st
  /\ exited (reject_each error entries st) = exited st
  /\ stdin (reject_each error entries st) = stdin st
  /\ seen (reject_each error entries st) = seen st
  /\ messageHandlers (reject_each error entries st) = messageHandlers st
  /\ errorHandlers (reject_each error entries st) = errorHandlers st.
Proof.
  apply (@retiring_reject_each _
           (fun s => closed s = closed st
                     /\ closing s = closing st
                     /\ closeInitiated s = closeInitiated st
                     /\ stdin_ended s = stdin_ended st
                     /\ exited s = exited st
                     /\ stdin s = stdin st
                     /\ seen s = seen st
                     /\ messageHandlers s = messageHandlers st
                     /\ errorHandlers s = errorHandlers st)).
  - intros t k p s s0 H. exact H.
  - repeat split.
Qed.

Lemma shutdown_close_after_readLoop st :
  shutdown st -> shutdown (close_after_readLoop st).
Proof.
  intros HS. unfold close_after_readLoop.
  destruct (closing st) eqn:Ec; auto.
  destruct (readLoop st) eqn:Er; auto;
    destruct HS as [S1 S2 S3 S4 S5 S6];
    constructor; unfold reading in *; cbn; rewrite ?Er; auto;
    try (intros; discriminate);
    split; intros; try discriminate; apply S1; rewrite Ec; discriminate.
Qed.

Lemma shutdown_close_after_exited st :
  shutdown st -> shutdown (close_after_exited st).
Proof.
  intros HS. unfold close_after_exited.
  destruct (closing st) eqn:Ec; auto.
  destruct (exited st) eqn:Ee; auto.
  destruct HS as [S1 S2 S3 S4 S5 S6].
  destruct (reject_each_fields (js "transport closed") (pending st) st)
    as (H1 & H2 & H3 & H4 & H5 & _).
  pose proof (reject_each_readLoop (js "transport closed") (pending st) st) as H6.
  fold (rejectAllPending (js "transport closed") st) in *.
  constructor; unfold reading in *;
    cbn [closed closing closeInitiated stdin_ended exited readLoop pending
         with_closing];
    rewrite ?H1, ?H3, ?H4, ?H5, ?H6; auto.
  - split; [discriminate|]. intros _. apply S1. rewrite Ec. discriminate.
  - intros _. apply rejectAllPending_empties.
Qed.

Lemma shutdown_step fuel ev st st' :
  inv st -> shutdown st -> step fuel ev st = Some st' -> shutdown st'.
Proof.
  intros I HS.
  refine (@preserved_step _ _ shutdown any_command _ _ _ _ _ _ _ _ _ _ _ _
            fuel ev st st' I _ HS).
  - intros c s s' _. apply shutdown_call.
  - intros h before m. apply Forall_forall. intros; exact Logic.I.
  - intros h before e. apply Forall_forall. intros; exact Logic.I.
  - intros m h j s _. apply shutdown_frame; auto; reflexivity.
  - intros e h j s _. apply shutdown_frame; auto; reflexivity.
  - apply retiring_resolvePending; [apply shutdown_retire|apply shutdown_dropped].
  - intros v s Hr [S1 S2 S3 S4 S5 S6].
    assert (Hn : closing s = NotClosing \/ closing s = AwaitReadLoop).
    { destruct (closing s) eqn:E; auto;
        rewrite S4 in Hr by auto; discriminate. }
    constructor; cbn; auto; intros H; exfalso;
      destruct Hn as [Hn|Hn]; rewrite Hn in H; try destruct H; discriminate.
  - intros error s. unfold rejectAllPending.
    apply retiring_reject_each. apply shutdown_retire.
  - intros s [S1 S2 S3 S4 S5 S6]. constructor; cbn; auto.
  - apply retiring_timer_fires. apply shutdown_retire.
  - apply shutdown_close_after_readLoop.
  - apply shutdown_close_after_exited.
  - intros c _. exact Logic.I.
Qed.

Lemma reachable_shutdown st : reachable st -> shutdown st.
Proof.
  induction 1 as [b|fuel ev st st' R IH Hstep].
  - constructor; cbn; try reflexivity; try discriminate.
    + split; [discriminate|]. intros H. now elim H.
    + intros [H|H]; discriminate.
  - eapply shutdown_step; eauto. now apply reachable_inv.
Qed.

End Shutdown.

Section ShutdownProperties.
Context {host : Host} {callbacks : Callbacks}.
Import Transport.

Lemma silenced_run lines fuel evs : forall st st',
  reachable st -> silenced lines st -> run fuel evs st = Some st' ->
  silenced lines st'.
Proof.
  induction evs as [|ev evs IH]; intros st st' R HS; simpl.
  - now intros [= <-].
  - destruct (step fuel ev st) as [s1|] eqn:E; [|discriminate].
    apply IH.
    + eapply reachable_step; eauto.
    + eapply silenced_step; eauto. now apply reachable_inv.
Qed.

(** X2. Once the transport is closed, nothing more is written to the
    subprocess: whatever happens afterwards, calls of [send] and [request]
    by callers and by callbacks included, the lines written to stdin are
    those written before, stdin has been ended, and the transport stays
    closed. *)
Theorem nothing_is_written_after_close fuel evs st st' :
  reachable st -> closed st = true -> run fuel evs st = Some st' ->
  stdin st' = stdin st /\ closed st' = true /\ stdin_ended st' = true.
Proof.
  intros R Hc Hrun.
  destruct (@silenced_run (stdin st) fuel evs st st' R (conj Hc eq_refl) Hrun)
    as [Hc' Hl].
  split; [exact Hl|]. split; [exact Hc'|].
  assert (R' : reachable st') by (eapply reachable_run; eauto).
  rewrite (sd_stdin (reachable_shutdown R')). exact Hc'.
Qed.

(** X3. The first call of [close()] returns exactly when the read loop has
    ended and [process.exited] has settled: in every state the transport
    can reach after [close()] was called, that call has returned if and
    only if both have happened.  When it has returned the pending registry
    is empty. *)
Theorem close_returns_when_the_process_is_gone st :
  reachable st -> closed st = true ->
  (closing st = CloseReturned <-> reading st = false /\ exited st = true)
  /\ (closing st = CloseReturned -> pending st = [])
  /\ closeInitiated st = true.
Proof.
  intros R Hc. pose proof (reachable_shutdown R) as [S1 S2 S3 S4 S5 S6].
  pose proof (reachable_quiescent R) as Hq.
  split; [|split; [exact S6|congruence]].
  split.
  - intros H. split; [apply S4; now right|now apply S5].
  - intros [Hr He].
    assert (Hn : closing st <> NotClosing) by now apply S1.
    apply (f_equal closing) in Hq. revert Hq.
    unfold close_resume, close_after_readLoop, close_after_exited.
    unfold reading in Hr.
    destruct (closing st) eqn:Ec; try congruence;
      destruct (readLoop st) eqn:Er; try discriminate;
      cbn; rewrite ?Ec, ?He; cbn; discriminate.
Qed.

Lemma done_reading_step fuel ev st st' :
  inv st -> reading st = false -> step fuel ev st = Some st' ->
  reading st' = false.
Proof.
  intros I HP.
  assert (Hf : forall s s', readLoop s' = readLoop s ->
                 reading s = false -> reading s' = false).
  { unfold reading. now intros s s' ->. }
  assert (Hretire : forall t k p s s0,
            reading s0 = false -> reading (retire t k p s s0) = false).
  { intros t k p s s0. now apply Hf. }
  assert (Hclosing : forall v s0,
            reading s0 = false -> reading (with_closing v s0) = false).
  { intros v s0. now apply Hf. }
  refine (@preserved_step _ _ (fun s => reading s = false) any_command
            _ _ _ _ _ _ _ _ _ _ _ _ fuel ev st st' I _ HP).
  - intros c s s' _ Hr Hs. revert Hr. apply Hf.
    pose proof (quiet_call c (proj1 I)) as _.
    destruct c; simpl in Hs; try (injection Hs as <-; reflexivity).
    + rewrite request_unfold in Hs. cbn [snd] in Hs. injection Hs as <-.
      destruct (closed s); reflexivity.
    + unfold send in Hs. destruct (closed s); simpl in Hs;
        injection Hs as <-; reflexivity.
    + unfold close in Hs. destruct (closed s); injection Hs as <-; reflexivity.
  - intros h before m. apply Forall_forall. intros; exact Logic.I.
  - intros h before e. apply Forall_forall. intros; exact Logic.I.
  - intros m h j s _. now apply Hf.
  - intros e h j s _. now apply Hf.
  - apply (@retiring_resolvePending _ (fun s => reading s = false) Hretire).
    intros t k s. now apply Hf.
  - intros v s Hr Hr'. congruence.
  - apply (@retiring_rejectAllPending _ (fun s => reading s = false) Hretire).
  - intros s. now apply Hf.
  - apply (@retiring_timer_fires _ (fun s => reading s = false) Hretire).
  - apply (@retiring_close_after_readLoop _ (fun s => reading s = false) Hclosing).
  - apply (@retiring_close_after_exited _ (fun s => reading s = false) Hretire Hclosing).
  - intros c _. exact Logic.I.
Qed.

Lemma done_reading_run fuel evs : forall st st',
  inv st -> reading st = false -> run fuel evs st = Some st' ->
  reading st' = false.
Proof.
  induction evs as [|ev evs IH]; intros st st' I HP; simpl.
  - now intros [= <-].
  - destruct (step fuel ev st) as [st1|] eqn:E; [|discriminate].
    intros Hrun. apply (IH st1 st'); [| |exact Hrun].
    + eapply evolves_step; [exact E|exact I].
    + eapply done_reading_step; eauto.
Qed.

Lemma exited_call c st st' :
  exited st = true -> state_of (call c st) = Some st' -> exited st' = true.
Proof.
  intros Hr Hs. rewrite <- Hr.
  destruct c; simpl in Hs; try (injection Hs as <-; reflexivity).
  - rewrite request_unfold in Hs. cbn [snd] in Hs. injection Hs as <-.
    destruct (closed st); reflexivity.
  - unfold send in Hs. destruct (closed st); simpl in Hs;
      injection Hs as <-; reflexivity.
  - unfold close in Hs. destruct (closed st); injection Hs as <-; reflexivity.
Qed.

Lemma exited_emitError fuel error st st' :
  exited st = true -> state_of (emitError fuel error st) = Some st' ->
  exited st' = true.
Proof.
  refine (@preserved_emitError _ _ (fun s => exited s = true) any_command
            _ _ _ fuel error st st').
  - intros c s s' _. apply exited_call.
  - intros h before e. apply Forall_forall. intros; exact Logic.I.
  - intros e h j s _ H. exact H.
Qed.

Lemma exited_rejectAllPending error st :
  exited (rejectAllPending error st) = exited st.
Proof.
  destruct (reject_each_fields error (pending st) st) as (_ & _ & _ & _ & H5 & _).
  exact H5.
Qed.

Lemma exited_exited_catch fuel e st st' :
  exited st = true -> state_of (exited_catch fuel e st) = Some st' ->
  exited st' = true.
Proof.
  intros He. unfold exited_catch. destruct (toError e); simpl.
  - now intros [= <-].
  - apply exited_emitError. now rewrite exited_rejectAllPending.
Qed.

Lemma has_exited_step fuel ev st st' :
  inv st -> exited st = true -> step fuel ev st = Some st' -> exited st' = true.
Proof.
  intros I HP.
  assert (Hretire : forall t k p s s0,
            exited s0 = true -> exited (retire t k p s s0) = true).
  { intros t k p s s0 H. exact H. }
  assert (Hclosing : forall v s0,
            exited s0 = true -> exited (with_closing v s0) = true).
  { intros v s0 H. exact H. }
  refine (@preserved_step _ _ (fun s => exited s = true) any_command
            _ _ _ _ _ _ _ _ _ _ _ _ fuel ev st st' I _ HP).
  - intros c s s' _. apply exited_call.
  - intros h before m. apply Forall_forall. intros; exact Logic.I.
  - intros h before e. apply Forall_forall. intros; exact Logic.I.
  - intros m h j s _ H. exact H.
  - intros e h j s _ H. exact H.
  - apply (@retiring_resolvePending _ (fun s => exited s = true) Hretire).
    intros t k s H. exact H.
  - intros v s _ H. exact H.
  - apply (@retiring_rejectAllPending _ (fun s => exited s = true) Hretire).
  - intros s _. reflexivity.
  - apply (@retiring_timer_fires _ (fun s => exited s = true) Hretire).
  - apply (@retiring_close_after_readLoop _ (fun s => exited s = true) Hclosing).
  - apply (@retiring_close_after_exited _ (fun s => exited s = true) Hretire Hclosing).
  - intros c _. exact Logic.I.
Qed.

Lemma closed_step fuel ev st st' :
  inv st -> closed st = true -> step fuel ev st = Some st' -> closed st' = true.
Proof.
  intros I Hc Hs. exact (closed_stays I (@evolves_step _ _ fuel ev st st' Hs) Hc).
Qed.

Lemma close_resume_exited st : exited (close_resume st) = exited st.
Proof.
  assert (H : forall s, exited (close_after_exited s) = exited s).
  { intros s. unfold close_after_exited.
    destruct (closing s); try reflexivity.
    destruct (exited s) eqn:Ee; [|exact Ee].
    destruct (reject_each_fields (js "transport closed") (pending s) s)
      as (_ & _ & _ & _ & H5 & _).
    cbn [exited with_closing]. unfold rejectAllPending. now rewrite H5. }
  unfold close_resume. rewrite H. unfold close_after_readLoop.
  destruct (closing st), (readLoop st); reflexivity.
Qed.

(** What an event establishes for good. *)
Lemma step_establishes fuel ev st st' :
  reachable st -> step fuel ev st = Some st' ->
  (ev = Call CallClose -> closed st' = true)
  /\ (ev = StdoutEnd \/ (exists e, ev = StdoutError e) -> reading st' = false)
  /\ ((exists code, ev = ProcessExited code)
      \/ (exists e, ev = ProcessExitFailed e) -> exited st' = true).
Proof.
  intros R Hs. pose proof (reachable_inv R) as I.
  assert (Hex : forall s, exited s = true -> exited (close_resume s) = true).
  { intros s. rewrite close_resume_exited. auto. }
  split; [|split].
  - intros ->. unfold step in Hs. simpl in Hs. injection Hs as <-.
    assert (Hc : closed (close st) = true).
    { unfold close. destruct (closed st) eqn:E; [exact E|reflexivity]. }
    refine (closed_stays _ (@evolves_close_resume _ (close st)) Hc).
    apply (@evolves_close _ st), I.
  - intros Hev. unfold step in Hs.
    assert (Hr : forall s, reading (close_resume s) = reading s).
    { intros s. unfold reading. now rewrite close_resume_readLoop. }
    destruct Hev as [->|[e ->]]; simpl in Hs.
    + unfold on_end in Hs. destruct (readLoop st) eqn:Er.
      * destruct (if (0 <? length (trim buffer))%nat
                  then handleLine fuel (trim buffer) st else Returns st)
          as [s1|e s1|]; simpl in Hs; try discriminate;
          injection Hs as <-; rewrite Hr; reflexivity.
      * injection Hs as <-. rewrite Hr. unfold reading. now rewrite Er.
      * injection Hs as <-. rewrite Hr. unfold reading. now rewrite Er.
    + injection Hs as <-. rewrite Hr. unfold on_read_error, reading.
      destruct (readLoop st) eqn:Er; cbn; rewrite ?Er; reflexivity.
  - intros Hev.
    destruct (exited st) eqn:Ee.
    { eapply has_exited_step; eauto. }
    unfold step in Hs.
    destruct Hev as [[code ->]|[e ->]]; simpl in Hs; rewrite Ee in Hs.
    + unfold exited_then in Hs. cbn [closeInitiated with_exited] in Hs.
      destruct (closeInitiated st).
      * simpl in Hs. injection Hs as <-. now apply Hex.
      * pose proof (@exited_emitError fuel (exit_error code)
                      (rejectAllPending (exit_error code) (with_exited st))) as H1.
        rewrite exited_rejectAllPending in H1.
        destruct (emitError fuel (exit_error code)
                    (rejectAllPending (exit_error code) (with_exited st)))
          as [s1|e s1|]; simpl in Hs; try discriminate.
        -- injection Hs as <-. apply Hex. now apply (H1 s1).
        -- specialize (H1 s1 eq_refl eq_refl).
           destruct (state_of (exited_catch fuel e s1)) as [s2|] eqn:E2;
             simpl in Hs; [|discriminate].
           injection Hs as <-. apply Hex.
           exact (exited_exited_catch fuel e s1 H1 E2).
    + assert (E2 : exited (close_after_exited (with_exited st)) = true).
      { unfold close_after_exited. cbn [closing exited with_exited].
        destruct (closing st); try reflexivity.
        cbn [exited with_closing]. now rewrite exited_rejectAllPending. }
      destruct (state_of (exited_catch fuel e
                            (close_after_exited (with_exited st))))
        as [s2|] eqn:E3; simpl in Hs; [|discriminate].
      injection Hs as <-. apply Hex.
      exact (exited_exited_catch fuel e _ E2 E3).
Qed.

Lemma run_keeps fuel evs : forall st st',
  reachable st -> run fuel evs st = Some st' ->
  (closed st = true -> closed st' = true)
  /\ (reading st = false -> reading st' = false)
  /\ (exited st = true -> exited st' = true).
Proof.
  induction evs as [|ev evs IH]; intros st st' R; simpl.
  - intros [= <-]. auto.
  - destruct (step fuel ev st) as [s1|] eqn:E; [|discriminate].
    intros Hrun. pose proof (reachable_inv R) as I.
    assert (R1 : reachable s1) by (eapply reachable_step; eauto).
    destruct (IH s1 st' R1 Hrun) as (H1 & H2 & H3).
    split; [|split]; intros H.
    + apply H1. eapply closed_step; eauto.
    + apply H2. eapply done_reading_step; eauto.
    + apply H3. eapply has_exited_step; eauto.
Qed.

Lemma run_establishes fuel evs : forall st st' ev,
  reachable st -> run fuel evs st = Some st' -> In ev evs ->
  (ev = Call CallClose -> closed st' = true)
  /\ (ev = StdoutEnd \/ (exists e, ev = StdoutError e) -> reading st' = false)
  /\ ((exists code, ev = ProcessExited code)
      \/ (exists e, ev = ProcessExitFailed e) -> exited st' = true).
Proof.
  induction evs as [|ev0 evs IH]; intros st st' ev R; simpl; [tauto|].
  destruct (step fuel ev0 st) as [s1|] eqn:E; [|discriminate].
  intros Hrun Hin.
  assert (R1 : reachable s1) by (eapply reachable_step; eauto).
  destruct Hin as [->|Hin]; [|now apply (IH s1 st' ev R1 Hrun)].
  destruct (@step_establishes fuel ev st s1 R E) as (H1 & H2 & H3).
  destruct (@run_keeps fuel evs s1 st' R1 Hrun) as (K1 & K2 & K3).
  split; [|split]; intros H; auto.
Qed.

(** X4. Shutdown completes.  Once [close()] has been called, the read
    stream has ended (or failed) and the subprocess has exited (or
    [process.exited] was rejected), in whatever order this happens and
    whatever else happens in between, the first call of [close()] has
    returned and no request is pending: every request on the way has left
    the registry, by its response, by its timeout, or with the rejection
    "transport closed". *)
Theorem shutdown_completes fuel evs st st' :
  reachable st -> run fuel evs st = Some st' ->
  In (Call CallClose) evs ->
  In StdoutEnd evs \/ (exists e, In (StdoutError e) evs) ->
  (exists code, In (ProcessExited code) evs)
  \/ (exists e, In (ProcessExitFailed e) evs) ->
  closing st' = CloseReturned /\ pending st' = []
  /\ forall fuel' evs' st'',
       run fuel' evs' st' = Some st'' -> pending st'' = [].
Proof.
  intros R Hrun Hclose Hend Hexit.
  assert (R' : reachable st') by (eapply reachable_run; eauto).
  assert (Hc : closed st' = true).
  { destruct (@run_establishes fuel evs st st' _ R Hrun Hclose) as (H & _).
    now apply H. }
  assert (Hr : reading st' = false).
  { destruct Hend as [H|[e H]];
      destruct (@run_establishes fuel evs st st' _ R Hrun H) as (_ & H2 & _);
      apply H2; eauto. }
  assert (He : exited st' = true).
  { destruct Hexit as [[code H]|[e H]];
      destruct (@run_establishes fuel evs st st' _ R Hrun H) as (_ & _ & H3);
      apply H3; eauto. }
  pose proof (reachable_shutdown R') as S.
  pose proof (reachable_quiescent R') as Hq.
  assert (Hret : closing st' = CloseReturned).
  { assert (Hn : closing st' <> NotClosing) by now apply (sd_closed S).
    apply (f_equal closing) in Hq. revert Hq.
    unfold close_resume, close_after_readLoop, close_after_exited.
    unfold reading in Hr.
    destruct (closing st') eqn:Ec; try congruence;
      destruct (readLoop st') eqn:Er; try discriminate;
      cbn; rewrite ?Ec, ?He; cbn; discriminate. }
  split; [exact Hret|]. split; [now apply (sd_empty S)|].
  intros fuel' evs' st'' Hrun'.
  assert (R'' : reachable st'') by (eapply reachable_run; eauto).
  destruct (@run_keeps fuel' evs' st' st'' R' Hrun') as (K1 & K2 & K3).
  pose proof (reachable_shutdown R'') as S'.
  pose proof (reachable_quiescent R'') as Hq'.
  assert (Hret' : closing st'' = CloseReturned).
  { assert (Hn : closing st'' <> NotClosing) by (apply (sd_closed S'); auto).
    specialize (K2 Hr). specialize (K3 He).
    apply (f_equal closing) in Hq'. revert Hq'.
    unfold close_resume, close_after_readLoop, close_after_exited.
    unfold reading in K2.
    destruct (closing st'') eqn:Ec; try congruence;
      destruct (readLoop st'') eqn:Er; try discriminate;
      cbn; rewrite ?Ec, ?K3; cbn; discriminate. }
  exact (sd_empty S' Hret').
Qed.

End ShutdownProperties.

(** ** Unsubscribing *)

Section Unsubscribing.
Context {host : Host} {callbacks : Callbacks}.
Import Transport.

Lemma In_set_add h h' entries :
  In (Some h) (set_add h' entries) -> In (Some h) entries \/ h = h'.
Proof.
  unfold set_add. destruct (existsb (entry_is h') entries); [now left|].
  intros H. apply in_app_or in H as [H|[H|[]]]; [now left|].
  right. congruence.
Qed.

Lemma In_set_delete h h' entries :
  In (Some h) (set_delete h' entries) -> In (Some h) entries /\ h <> h'.
Proof.
  unfold set_delete. rewrite in_map_iff. intros ([e|] & He & Hin); simpl in He.
  - destruct (Nat.eqb e h') eqn:E; [discriminate|].
    injection He as ->. split; [exact Hin|]. now apply Nat.eqb_neq in E.
  - discriminate.
Qed.

Lemma unsubscribed_frame h before st st' :
  messageHandlers st' = messageHandlers st -> seen st' = seen st ->
  unsubscribed h before st -> unsubscribed h before st'.
Proof. unfold unsubscribed. intros -> ->. auto. Qed.

Lemma unsubscribed_call h before c st st' :
  leaves_out h c -> unsubscribed h before st ->
  state_of (call c st) = Some st' -> unsubscribed h before st'.
Proof.
  intros Hc HU Hs. pose proof (seen_call c st Hs) as Hseen.
  destruct HU as [Hnot Hds]. split; [|now rewrite Hseen].
  destruct c; simpl in Hs; try (injection Hs as <-; exact Hnot).
  - injection Hs as <-. cbn. intros H.
    apply In_set_add in H as [H|H]; [now apply Hnot|apply Hc; now subst].
  - injection Hs as <-. cbn. intros H. apply In_set_delete in H as [H _]. auto.
  - rewrite request_unfold in Hs. cbn [snd] in Hs. injection Hs as <-.
    destruct (closed st); exact Hnot.
  - unfold send in Hs. destruct (closed st); simpl in Hs;
      injection Hs as <-; exact Hnot.
  - unfold close in Hs. destruct (closed st); injection Hs as <-; exact Hnot.
Qed.

Lemma unsubscribed_run h before log fuel evs st st' :
  not_resubscribed h (length before) log ->
  inv st -> Forall (event_leaves_out h) evs -> unsubscribed h before st ->
  run fuel evs st = Some st' -> within log st' -> unsubscribed h before st'.
Proof.
  intros Hlog I Hevs HU.
  assert (Hretire : forall t k p s s0,
            unsubscribed h before s0 -> unsubscribed h before (retire t k p s s0)).
  { intros t k p s s0. apply unsubscribed_frame; reflexivity. }
  assert (Hclosing : forall v s0,
            unsubscribed h before s0 -> unsubscribed h before (with_closing v s0)).
  { intros v s0. apply unsubscribed_frame; reflexivity. }
  refine (@along_run _ _ (unsubscribed h before) (leaves_out h) log
            _ _ _ _ _ _ _ _ _ _ _ fuel evs st st' I Hevs HU).
  - intros c s s'. apply unsubscribed_call.
  - intros s d rest [_ (ds & Hds & _)] HL. apply (Hlog (seen s) d rest HL).
    rewrite Hds, length_app. lia.
  - intros m h' j s Hj [Hnot (ds & Hds & Hno)]. split; [exact Hnot|].
    exists (ds ++ [GotMessage h' m]). cbn. rewrite Hds, <- app_assoc.
    split; [reflexivity|]. intros m' H. apply in_app_or in H as [H|[H|[]]].
    + now apply (Hno m').
    + injection H as -> _. apply Hnot. eapply nth_error_In; eauto.
  - intros e h' j s Hj [Hnot (ds & Hds & Hno)]. split; [exact Hnot|].
    exists (ds ++ [GotError h' e]). cbn. rewrite Hds, <- app_assoc.
    split; [reflexivity|]. intros m' H. apply in_app_or in H as [H|[H|[]]].
    + now apply (Hno m').
    + discriminate.
  - apply retiring_resolvePending; [exact Hretire|].
    intros t k s. apply unsubscribed_frame; reflexivity.
  - intros v s _. apply unsubscribed_frame; reflexivity.
  - now apply retiring_rejectAllPending.
  - intros s. apply unsubscribed_frame; reflexivity.
  - now apply retiring_timer_fires.
  - now apply retiring_close_after_readLoop.
  - now apply retiring_close_after_exited.
Qed.

(** X5. A callback that has been unsubscribed is not called again.  After
    the closure returned by [onMessage(h)] has run, no message is handed
    to [h], whatever arrives on stdout and whatever else happens, as long
    as nobody calls [onMessage(h)] again: no caller, and none of the
    callbacks that are called in the meantime.  The callbacks called in
    the meantime are those that the log of the run records after the
    unsubscription; what such a callback does is what its body gives for
    the log as it was at the call. *)
Theorem unsubscribed_callback_is_not_called h fuel0 fuel evs st0 st st' :
  reachable st0 ->
  step fuel0 (Call (CallOffMessage h)) st0 = Some st ->
  Forall (event_leaves_out h) evs ->
  run fuel evs st = Some st' ->
  not_resubscribed h (length (seen st0)) (seen st') ->
  ~ In (Some h) (messageHandlers st')
  /\ exists ds, seen st' = seen st0 ++ ds
                /\ forall m, ~ In (GotMessage h m) ds.
Proof.
  intros R0 Hoff Hevs Hrun Hlog.
  assert (R : reachable st) by (eapply reachable_step; eauto).
  assert (HU : unsubscribed h (seen st0) st).
  { unfold step in Hoff. simpl in Hoff. injection Hoff as <-.
    assert (Hfields : forall s,
              messageHandlers (close_resume s) = messageHandlers s).
    { intros s.
      assert (H : forall x, messageHandlers (close_after_exited x)
                            = messageHandlers x).
      { intros x. unfold close_after_exited.
        destruct (closing x); try reflexivity.
        destruct (exited x); try reflexivity.
        destruct (reject_each_fields (js "transport closed") (pending x) x)
          as (_ & _ & _ & _ & _ & _ & _ & H8 & _).
        cbn [messageHandlers with_closing]. unfold rejectAllPending.
        now rewrite H8. }
      unfold close_resume. rewrite H.
      unfold close_after_readLoop.
      destruct (closing s), (readLoop s); reflexivity. }
    split.
    - rewrite Hfields. cbn. intros H.
      apply In_set_delete in H as [_ H]. now apply H.
    - exists []. rewrite close_resume_seen, app_nil_r.
      split; [reflexivity|]. intros m []. }
  eapply unsubscribed_run;
    [exact Hlog|apply (reachable_inv R)|exact Hevs|exact HU|exact Hrun|].
  exists []. now rewrite app_nil_r.
Qed.

End Unsubscribing.

(** ** Promises, timers and the registry *)

Section Bookkeeping.
Context {host : Host} {callbacks : Callbacks}.
Import Transport.

(** X6. The promise of a request is settled at most once, and for good:
    in every state the transport can reach, the [resolve] and [reject]
    functions of a promise returned by [request] have been called at most
    once together, and whatever happens afterwards a promise that is
    settled keeps its state and gets no further call. *)
Theorem promise_is_settled_once st p c :
  reachable st -> nth_error (promises st) p = Some c ->
  (length (settle_calls c) <= 1)%nat
  /\ forall fuel evs st',
       run fuel evs st = Some st' ->
       exists c',
         nth_error (promises st') p = Some c'
         /\ made_id c' = made_id c /\ made_method c' = made_method c
         /\ (settle_calls c <> [] -> c' = c)
         /\ (forall s, promise_state p st = Some s -> promise_state p st' = Some s).
Proof.
  intros R Hc. pose proof (reachable_inv R) as I.
  split; [exact (wf_once (proj1 I) _ Hc)|].
  intros fuel evs st' Hrun.
  destruct (@evolves_run _ _ fuel evs st st' Hrun I) as (_ & K & _).
  destruct (K _ _ Hc) as (c' & Hc' & Hid & Hm & Hs).
  exists c'. repeat (split; [assumption|]).
  intros s. unfold promise_state. rewrite Hc, Hc'.
  destruct (settle_calls c) as [|s0 l] eqn:E; [discriminate|].
  rewrite Hs by discriminate. now rewrite E.
Qed.

(** X7. Timers follow the registry.  In every state the transport can
    reach, every pending request has its timer armed, that timer is its
    own, and its promise is unsettled; and every armed timer belongs to a
    promise that is unsettled and was made for the method and id the timer
    holds.  So a promise that has been settled, by a response, a failure or
    [close()], has no timer left that could fire for it. *)
Theorem timers_follow_the_registry st :
  reachable st ->
  (forall k pr,
     map_get k (pending st) = Some pr ->
     promise_state (settles pr) st = None
     /\ exists tm, find_timer (timeout pr) (timers st) = Some tm
                   /\ tm_promise tm = settles pr /\ tm_id tm = k)
  /\ (forall t tm,
        find_timer t (timers st) = Some tm ->
        promise_state (tm_promise tm) st = None
        /\ exists c, nth_error (promises st) (tm_promise tm) = Some c
                     /\ made_id c = tm_id tm /\ made_method c = tm_method tm)
  /\ (forall p s t tm,
        promise_state p st = Some s ->
        find_timer t (timers st) = Some tm -> tm_promise tm <> p).
Proof.
  intros R. destruct (reachable_inv R) as [W _].
  assert (Ht : forall t tm,
             find_timer t (timers st) = Some tm ->
             promise_state (tm_promise tm) st = None
             /\ exists c, nth_error (promises st) (tm_promise tm) = Some c
                          /\ made_id c = tm_id tm /\ made_method c = tm_method tm).
  { intros t tm H. destruct (wf_timers W _ H) as (_ & c & Hc & Hid & Hm & Hs).
    split; [|exists c; auto]. unfold promise_state. now rewrite Hc, Hs. }
  split; [|split; [exact Ht|]].
  - intros k pr Hk.
    destruct (wf_pending W _ Hk) as (c & tm & Hc & Hid & Hs & Htm & Hp & Hi).
    split; [|exists tm; auto]. unfold promise_state. now rewrite Hc, Hs.
  - intros p s t tm Hp Htm Heq. destruct (Ht _ _ Htm) as [Hn _].
    rewrite Heq in Hn. congruence.
Qed.

End Bookkeeping.

(** ** Lines that are not messages *)

Section Lines.
Context {host : Host} {callbacks : Callbacks}.
Import Transport.

Lemma trim_start_snoc x c :
  is_js_space c = false -> trim_start (x ++ [c]) = trim_start x ++ [c].
Proof.
  intros Hc. induction x as [|a x IH]; simpl; [now rewrite Hc|].
  destruct (is_js_space a); [exact IH|reflexivity].
Qed.

Lemma trim_start_head x :
  match trim_start x with
  | [] => True
  | c :: _ => is_js_space c = false
  end.
Proof.
  induction x as [|a x IH]; simpl; [exact I|].
  destruct (is_js_space a) eqn:E; [exact IH|exact E].
Qed.

Lemma trim_start_fixed x :
  match x with [] => True | c :: _ => is_js_space c = false end ->
  trim_start x = x.
Proof. destruct x as [|c x]; simpl; [reflexivity|]. now intros ->. Qed.

Lemma trim_trim s : trim (trim s) = trim s.
Proof.
  unfold trim. pose proof (trim_start_head s) as Ha.
  destruct (trim_start s) as [|c a]; [reflexivity|].
  assert (Hb : trim_start (rev (c :: a)) = trim_start (rev a) ++ [c]).
  { simpl. now apply trim_start_snoc. }
  rewrite Hb.
  assert (Hrb : rev (trim_start (rev a) ++ [c]) = c :: rev (trim_start (rev a))).
  { now rewrite rev_app_distr. }
  rewrite Hrb.
  assert (H1 : trim_start (c :: rev (trim_start (rev a)))
               = c :: rev (trim_start (rev a))).
  { simpl. now rewrite Ha. }
  rewrite H1, <- Hrb, rev_involutive, (@trim_start_snoc _ c Ha).
  f_equal. f_equal. apply trim_start_fixed, trim_start_head.
Qed.

Lemma In_trim_start x s : In x (trim_start s) -> In x s.
Proof.
  induction s as [|c s IH]; simpl; [tauto|].
  destruct (is_js_space c); [auto|]. simpl. tauto.
Qed.

Lemma In_trim x s : In x (trim s) -> In x s.
Proof.
  unfold trim. intros H. apply in_rev in H. apply In_trim_start in H.
  apply in_rev in H. now apply In_trim_start in H.
Qed.

Lemma cut_lines_no_LF s : Forall (fun l => ~ In LF l) (fst (cut s)).
Proof.
  induction s as [|c s IH]; simpl; [constructor|].
  destruct (cut s) as [lines tail]. simpl in IH.
  destruct (N.eqb c LF) eqn:E; simpl.
  - constructor; [tauto|exact IH].
  - destruct lines as [|l lines]; simpl; [constructor|].
    inversion IH as [|? ? Hl Hrest]; subst. constructor; [|exact Hrest].
    simpl. intros [H|H]; [|tauto]. subst c. now rewrite N.eqb_refl in E.
Qed.

Lemma frames_proper raw :
  Forall (fun l => ~ In LF l) raw -> Forall proper_unit (frames raw).
Proof.
  intros H. unfold frames. apply Forall_forall. intros u Hu.
  apply filter_In in Hu as [Hu Hlen]. apply in_map_iff in Hu as (l & <- & Hl).
  rewrite Forall_forall in H. split; [|split].
  - intros E. rewrite E in Hlen. discriminate.
  - apply trim_trim.
  - intros Hin. apply (H l Hl). now apply In_trim.
Qed.

(** X8. What [handleLine] is given.  Each round of the read loop passes to
    [handleLine], in order, the lines completed by the chunk, each trimmed,
    the blank ones left out: every unit is non-empty, has no white space
    at either end (so a carriage return before the line feed is dropped)
    and contains no line feed; at the end of input the same holds of the
    one unit made of the remainder. *)
Theorem handled_lines_are_trimmed fuel st dec buffer value :
  readLoop st = Reading dec buffer ->
  let units := fst (feed (dec, buffer) value) in
  on_chunk fuel value st
  = settle_readLoop
      (Reading (fst (snd (feed (dec, buffer) value)))
               (snd (snd (feed (dec, buffer) value))))
      (handle_all fuel units st)
  /\ Forall proper_unit units
  /\ on_end fuel st
     = settle_readLoop ReadReturned (handle_all fuel (flush (dec, buffer)) st)
  /\ Forall (fun u => u <> [] /\ trim u = u) (flush (dec, buffer)).
Proof.
  intros Hr units. split; [now apply on_chunk_feed|]. split.
  - unfold units, feed. cbn [fst snd].
    destruct (decode dec value) as [dec' text].
    pose proof (cut_lines_no_LF (buffer ++ text)) as H.
    destruct (cut (buffer ++ text)) as [raw rest]. cbn [fst snd] in *.
    now apply frames_proper.
  - split; [now apply on_end_flush|].
    unfold flush, frames. cbn [snd map filter].
    destruct (0 <? length (trim buffer))%nat eqn:E; constructor; [|constructor].
    split; [|apply trim_trim]. intros H. now rewrite H in E.
Qed.

(** X9. A line that is valid JSON but neither an object nor an array (a
    number, a string, a boolean, null) is reported to nobody.  The test
    ["id" in message] throws on it, outside the [try] of [handleLine]:
    the exception leaves [handleLine] with the state untouched, no callback
    having been called, and when such a line is the first that a chunk
    completes, on a transport that has not been closed, the read loop ends
    there, rejected, before the lines that follow are looked at. *)
Theorem primitive_line_ends_the_read_loop fuel st dec buffer value line rest v :
  reachable st -> closed st = false ->
  readLoop st = Reading dec buffer ->
  fst (feed (dec, buffer) value) = line :: rest ->
  JSON_parse line = Some v -> primitive v = true ->
  exists e,
    handleLine fuel line st = Throws e st
    /\ step fuel (StdoutChunk value) st = Some (with_readLoop (ReadRejected e) st).
Proof.
  intros R Hc Hr Hfeed Hparse Hprim.
  assert (Hthrow : exists e, isJsonRpcResponse v = inl e).
  { unfold isJsonRpcResponse, has_key. destruct v; try discriminate; eauto. }
  destruct Hthrow as [e He]. exists e.
  assert (Hl : handleLine fuel line st = Throws e st).
  { unfold handleLine. now rewrite Hparse, He. }
  split; [exact Hl|].
  unfold step. rewrite (on_chunk_feed _ _ _ Hr), Hfeed. simpl. rewrite Hl. simpl.
  f_equal. pose proof (reachable_shutdown R) as S.
  assert (Hn : closing st = NotClosing).
  { destruct (closing st) eqn:E; [reflexivity| | |];
      exfalso; assert (H : closed st = true)
        by (apply (sd_closed S); rewrite E; discriminate);
      congruence. }
  unfold close_resume, close_after_readLoop, close_after_exited. cbn.
  rewrite Hn. cbn. now rewrite Hn.
Qed.

End Lines.

(** ** An unexpected exit, and a failure of the read stream *)

Section TransportFailure.
Context {host : Host} {callbacks : Callbacks}.
Import Transport.

(** C2, as the code has it.  While [close()] has not been called: when
    the subprocess exits ([process.exited] is fulfilled), every request
    that is in the pending registry at that instant is rejected with the
    error "codex app-server exited unexpectedly with code N": its promise
    had received no call and receives this one, before any error callback
    runs, and the registry is then empty.  Whatever arrives afterwards,
    response bytes included, such a promise receives no second call.  An
    error of the read stream does nothing of the kind: it ends the read
    loop, whose promise is rejected with it, and changes nothing else; no
    request is rejected, no entry or timer is touched, and no callback is
    called. *)
Theorem unexpected_exit_rejects_pending st :
  reachable st ->
  closeInitiated st = false ->
  (forall fuel code st',
     exited st = false ->
     step fuel (ProcessExited code) st = Some st' ->
     let failure := Rejected (exit_error code) in
     let rejected := rejectAllPending (exit_error code) (with_exited st) in
     exited_then fuel code (with_exited st)
     = emitError fuel (exit_error code) rejected
     /\ pending rejected = []
     /\ forall k pr,
          In (k, pr) (pending st) ->
          exists c,
            nth_error (promises st) (settles pr) = Some c
            /\ settle_calls c = []
            /\ nth_error (promises rejected) (settles pr)
               = Some (settle_cell failure c)
            /\ nth_error (promises st') (settles pr) = Some (settle_cell failure c)
            /\ promise_state (settles pr) st' = Some failure
            /\ forall fuel2 evs st2,
                 run fuel2 evs st' = Some st2 ->
                 nth_error (promises st2) (settles pr)
                 = Some (settle_cell failure c))
  /\ (forall fuel e,
        let failed := on_read_error e st in
        step fuel (StdoutError e) st = Some failed
        /\ reading failed = false
        /\ (reading st = true -> readLoop failed = ReadRejected e)
        /\ (reading st = false -> failed = st)
        /\ promises failed = promises st
        /\ pending failed = pending st
        /\ timers failed = timers st
        /\ seen failed = seen st
        /\ closed failed = closed st
        /\ exited failed = exited st).
Proof.
  intros R Hci. split.
  - intros fuel code st' Hex Hstep failure rejected.
    pose proof (reachable_inv R) as I.
    assert (Ie : inv (with_exited st)).
    { apply (@evolves_with_exited _ st I). }
    split. { unfold exited_then. cbn. now rewrite Hci. }
    split. { apply rejectAllPending_empties. }
    intros k pr Hin.
    assert (Hk : map_get k (pending st) = Some pr).
    { apply In_map_get; [apply I|exact Hin]. }
    destruct (wf_pending (proj1 I) _ Hk) as (c & _ & Hc & _ & Hs & _).
    exists c. split; [exact Hc|]. split; [exact Hs|].
    assert (Hr : nth_error (promises rejected) (settles pr)
                 = Some (settle_cell failure c)).
    { unfold rejected, rejectAllPending.
      apply reject_each_settles with (k := k); auto.
      - intros k' pr'. apply In_map_get, Ie.
      - apply Ie. }
    assert (Ir : inv rejected).
    { apply (@evolves_rejectAllPending _ (exit_error code) (with_exited st) Ie). }
    assert (E1 : evolves rejected st').
    { unfold rejected. eapply step_exited_evolves; eauto. }
    assert (H1 : nth_error (promises st') (settles pr)
                 = Some (settle_cell failure c)).
    { eapply settled_stays;
        [exact Ir|exact E1|exact Hr|apply settle_cell_settled]. }
    split; [exact Hr|]. split; [exact H1|]. split.
    { unfold promise_state. rewrite H1. simpl. now rewrite Hs. }
    intros fuel2 evs st2 Hrun.
    eapply settled_stays;
      [exact (proj1 (E1 Ir))|eapply evolves_run; exact Hrun|exact H1
      |apply settle_cell_settled].
  - intros fuel e failed.
    pose proof (reachable_shutdown R) as S.
    assert (Hn : closing st = NotClosing).
    { destruct (closing st) eqn:E; [reflexivity| | |];
        exfalso; assert (H : closed st = true)
          by (apply (sd_closed S); rewrite E; discriminate);
        rewrite <- (sd_initiated S) in H; congruence. }
    assert (Hq : close_resume failed = failed).
    { unfold close_resume, close_after_readLoop, close_after_exited.
      unfold failed, on_read_error. destruct (readLoop st); cbn;
        rewrite Hn; cbn; rewrite ?Hn; reflexivity. }
    split. { unfold step. simpl. fold failed. now rewrite Hq. }
    unfold failed, on_read_error, reading.
    destruct (readLoop st) eqn:Er; cbn; rewrite ?Er;
      repeat split; auto; discriminate.
Qed.

End TransportFailure.

(** ** Responses *)

Section Responses.
Context {host : Host} {callbacks : Callbacks}.
Import Transport.

Lemma abandoned_frame p st st' :
  promises st' = promises st -> pending st' = pending st ->
  timers st' = timers st -> abandoned p st -> abandoned p st'.
Proof. unfold abandoned. intros -> -> ->. auto. Qed.

Lemma abandoned_dropped p t k st : abandoned p st -> abandoned p (dropped t k st).
Proof.
  intros (Hc & Hp & Ht). split; [exact Hc|]. split; cbn.
  - intros k' pr H. apply In_delete in H as [H _]. eauto.
  - intros t' tm. rewrite find_timer_clear.
    destruct (Nat.eqb t t'); [discriminate|]. apply Ht.
Qed.

Lemma abandoned_retire p t k q s st :
  q <> p -> abandoned p st -> abandoned p (retire t k q s st).
Proof.
  intros Hq HA. destruct (abandoned_dropped t k HA) as (Hc & Hp & Ht).
  split; [|split; [exact Hp|exact Ht]].
  destruct Hc as (c & Hc & Hs). exists c. split; [|exact Hs].
  cbn in *. rewrite nth_error_update_nth.
  destruct (Nat.eqb q p) eqn:E; [|exact Hc].
  apply Nat.eqb_eq in E. contradiction.
Qed.

Lemma In_map_set {V} (k k' : Z) (v v' : V) m :
  In (k', v') (map_set k v m) -> (k', v') = (k, v) \/ In (k', v') m.
Proof.
  induction m as [|[k0 v0] m IH].
  - intros [H|[]]. left. now symmetry.
  - change (map_set k v ((k0, v0) :: m))
      with (if k0 =? k then (k, v) :: m else (k0, v0) :: map_set k v m).
    destruct (k0 =? k).
    + intros [H|H]; [left; now symmetry|right; now right].
    + intros [H|H]; [right; now left|].
      destruct (IH H) as [E|E]; [now left|right; now right].
Qed.

Lemma abandoned_registered p method ms st :
  abandoned p st -> abandoned p (registered method ms st).
Proof.
  intros ((c & Hc & Hs) & Hp & Ht).
  assert (Hlt : (p < length (promises st))%nat) by (eapply nth_error_lt; eauto).
  split; [|split]; cbn.
  - exists c. split; [now apply nth_error_snoc_old|exact Hs].
  - intros k pr H. apply In_map_set in H as [H|H]; [|eauto].
    injection H as _ ->. cbn. lia.
  - intros t tm. rewrite find_timer_app.
    destruct (find_timer t (timers st)) as [x|] eqn:E.
    + intros [= <-]. eauto.
    + destruct (Nat.eqb (timer_count st) t); [|discriminate].
      intros [= <-]. cbn. lia.
Qed.

Lemma abandoned_call p c st st' :
  abandoned p st -> state_of (call c st) = Some st' -> abandoned p st'.
Proof.
  intros HA. destruct c; simpl;
    try (intros [= <-]; revert HA; apply abandoned_frame; reflexivity).
  - rewrite request_unfold. cbn [snd]. intros [= <-].
    pose proof (abandoned_registered method timeoutMs HA) as HR.
    destruct (closed st).
    + apply abandoned_retire; [|exact HR].
      destruct HA as ((c & Hc & _) & _). apply nth_error_lt in Hc. lia.
    + revert HR. apply abandoned_frame; reflexivity.
  - unfold send. destruct (closed st); simpl; intros [= <-]; [exact HA|].
    revert HA. apply abandoned_frame; reflexivity.
  - unfold close. destruct (closed st); intros [= <-]; [exact HA|].
    revert HA. apply abandoned_frame; reflexivity.
Qed.

Lemma abandoned_reject_each p error entries :
  forall st,
    (forall k pr, In (k, pr) entries -> settles pr <> p) ->
    abandoned p st -> abandoned p (reject_each error entries st).
Proof.
  induction entries as [|[id q] rest IH]; intros st Hin HA; simpl; [exact HA|].
  change (abandoned p
            (reject_each error rest
               (retire (timeout q) id (settles q) (Rejected error) st))).
  apply IH.
  - intros k pr H. apply (Hin k pr). now right.
  - apply abandoned_retire; [|exact HA]. apply (Hin id q). now left.
Qed.

Lemma abandoned_rejectAllPending p error st :
  abandoned p st -> abandoned p (rejectAllPending error st).
Proof.
  intros HA. apply abandoned_reject_each; [|exact HA]. apply HA.
Qed.

Lemma abandoned_close_after_readLoop p st :
  abandoned p st -> abandoned p (close_after_readLoop st).
Proof.
  intros HA. unfold close_after_readLoop.
  destruct (closing st), (readLoop st); auto;
    revert HA; apply abandoned_frame; reflexivity.
Qed.

Lemma abandoned_close_after_exited p st :
  abandoned p st -> abandoned p (close_after_exited st).
Proof.
  intros HA. unfold close_after_exited.
  destruct (closing st); auto. destruct (exited st); auto.
  generalize (abandoned_rejectAllPending (js "transport closed") HA).
  apply abandoned_frame; reflexivity.
Qed.

Lemma abandoned_step p fuel ev st st' :
  inv st -> abandoned p st -> step fuel ev st = Some st' -> abandoned p st'.
Proof.
  intros I HA.
  refine (@preserved_step _ _ (abandoned p) any_command _ _ _ _ _ _ _ _ _ _ _ _
            fuel ev st st' I _ HA).
  - intros c s s' _. apply abandoned_call.
  - intros h before m. apply Forall_forall. intros; exact Logic.I.
  - intros h before e. apply Forall_forall. intros; exact Logic.I.
  - intros m h j s _. apply abandoned_frame; reflexivity.
  - intros e h j s _. apply abandoned_frame; reflexivity.
  - intros response s s' HP. rewrite resolvePending_unfold.
    destruct (as_integer (prop "id" response)) as [id|]; [|now intros [= <-]].
    destruct (map_get id (pending s)) as [pr|] eqn:Hk; [|now intros [= <-]].
    destruct (verdict response); simpl; intros [= <-].
    + now apply abandoned_dropped.
    + apply abandoned_retire; [|exact HP].
      destruct HP as (_ & Hp & _). apply (Hp id). now apply map_get_In.
  - intros v s _. apply abandoned_frame; reflexivity.
  - intros error s. apply abandoned_rejectAllPending.
  - intros s. apply abandoned_frame; reflexivity.
  - intros t s HP. unfold timer_fires.
    destruct (find_timer t (timers s)) as [tm|] eqn:Ht; [|exact HP].
    change (abandoned p (retire t (tm_id tm) (tm_promise tm)
                           (Rejected (timeout_error (tm_method tm))) s)).
    apply abandoned_retire; [|exact HP]. destruct HP as (_ & _ & H). eauto.
  - intros s. apply abandoned_close_after_readLoop.
  - intros s. apply abandoned_close_after_exited.
  - intros c _. exact Logic.I.
Qed.

Lemma abandoned_run p fuel evs : forall st st',
  inv st -> abandoned p st -> run fuel evs st = Some st' -> abandoned p st'.
Proof.
  induction evs as [|ev evs IH]; intros st st' I HA; simpl.
  - now intros [= <-].
  - destruct (step fuel ev st) as [s1|] eqn:E; [|discriminate].
    apply IH.
    + apply (proj1 (@evolves_step _ _ fuel ev st s1 E I)).
    + eapply abandoned_step; eauto.
Qed.

Lemma abandoned_unsettled p st : abandoned p st -> promise_state p st = None.
Proof.
  intros ((c & Hc & Hs) & _). unfold promise_state. now rewrite Hc, Hs.
Qed.

(** The entry of a pending request given up: its promise is out of reach. *)
Lemma dropped_abandons st k pr :
  inv st -> map_get k (pending st) = Some pr ->
  abandoned (settles pr) (dropped (timeout pr) k st).
Proof.
  intros [W _] Hk.
  destruct (wf_pending W _ Hk) as (c & tm & Hc & _ & Hs & Htm & Hp & Hi).
  split; [exists c; split; [exact Hc|exact Hs]|]. split; cbn.
  - intros k' pr' H. apply In_delete in H as [H Hne]. intros Heq.
    apply In_map_get in H; [|apply W].
    destruct (wf_pending W _ H) as (_ & tm' & _ & _ & _ & Htm' & Hp' & Hi').
    assert (Et : timeout pr' = timeout pr).
    { apply (wf_timer_inj W _ _ Htm' Htm). congruence. }
    rewrite Et, Htm in Htm'. injection Htm' as <-. congruence.
  - intros t tm'. rewrite find_timer_clear.
    destruct (Nat.eqb (timeout pr) t) eqn:E; [discriminate|].
    intros Htm' Heq. apply Nat.eqb_neq in E. apply E.
    apply (wf_timer_inj W _ _ Htm Htm'). congruence.
Qed.

(** C1, as the code has it.  In every state the transport can reach,
    whatever requests were sent and whatever arrived before, a response
    whose id is [id] meets at most one entry of the pending registry, the
    one under [id].  That entry belongs to a call of [request] that was
    given the id [id], wrote its request line with that id to the
    subprocess, and whose promise no call has reached yet.
    [resolvePending] clears the timer of this entry and deletes it, and no
    other entry or timer changes.  When the response carries no error (the
    member is absent or falsy) the promise is fulfilled with the result.
    When it carries one, [error.code] and [error.message] are converted to
    strings.  When both conversions go through, as they do for a number and
    a string, the promise is rejected with "code: message", and no other
    promise changes.  When one of them throws, the exception leaves
    [resolvePending] and [handleLine] after the entry is gone: the promise
    is not settled, the callbacks are handed nothing, the read loop ends
    rejected (whether the line came first in a chunk or as the last unit
    at the end of input), and whatever happens later the promise stays
    unsettled. *)
Theorem response_settles_its_request st response id pr :
  reachable st ->
  as_integer (prop "id" response) = Some id ->
  map_get id (pending st) = Some pr ->
  exists c params,
    nth_error (promises st) (settles pr) = Some c
    /\ made_id c = id /\ settle_calls c = []
    /\ In (request_line (made_method c) id params) (stdin st)
    /\ (truthy (prop "error" response) = false ->
        verdict response = inr (Fulfilled (prop "result" response)))
    /\ (forall error,
          prop "error" response = Some error -> truthy (Some error) = true ->
          (forall code message,
             ToString (prop "code" error) = inr code ->
             ToString (prop "message" error) = inr message ->
             verdict response = inr (Rejected (code ++ js ": " ++ message)))
          /\ (forall code message,
                prop "code" error = Some (JNum code) ->
                prop "message" error = Some (JStr message) ->
                verdict response
                = inr (Rejected (NumberToString code ++ js ": " ++ message)))
          /\ (forall type_error,
                ToString (prop "code" error) = inl type_error ->
                verdict response = inl type_error)
          /\ (forall code type_error,
                ToString (prop "code" error) = inr code ->
                ToString (prop "message" error) = inl type_error ->
                verdict response = inl type_error))
    /\ (forall s,
          verdict response = inr s ->
          let st' := retire (timeout pr) id (settles pr) s st in
          resolvePending response st = Returns st'
          /\ nth_error (promises st') (settles pr) = Some (settle_cell s c)
          /\ promise_state (settles pr) st' = Some s
          /\ (forall p, p <> settles pr ->
              nth_error (promises st') p = nth_error (promises st) p)
          /\ pending st' = map_delete id (pending st)
          /\ (forall k, k <> id -> map_get k (pending st') = map_get k (pending st))
          /\ (forall t, t <> timeout pr ->
              find_timer t (timers st') = find_timer t (timers st)))
    /\ (forall type_error,
          verdict response = inl type_error ->
          let st' := dropped (timeout pr) id st in
          resolvePending response st = Throws (ErrorObject type_error) st'
          /\ promises st' = promises st
          /\ promise_state (settles pr) st' = None
          /\ seen st' = seen st
          /\ pending st' = map_delete id (pending st)
          /\ (forall k, k <> id -> map_get k (pending st') = map_get k (pending st))
          /\ find_timer (timeout pr) (timers st') = None
          /\ (forall t, t <> timeout pr ->
              find_timer t (timers st') = find_timer t (timers st))
          /\ forall fuel line,
               JSON_parse line = Some response ->
               isJsonRpcResponse response = inr true ->
               let st1 :=
                 close_resume
                   (with_readLoop (ReadRejected (ErrorObject type_error)) st') in
               handleLine fuel line st = Throws (ErrorObject type_error) st'
               /\ (forall dec buffer value rest,
                     readLoop st = Reading dec buffer ->
                     fst (feed (dec, buffer) value) = line :: rest ->
                     step fuel (StdoutChunk value) st = Some st1)
               /\ (forall dec buffer,
                     readLoop st = Reading dec buffer ->
                     trim buffer = line -> (0 < length line)%nat ->
                     step fuel StdoutEnd st = Some st1)
               /\ reading st1 = false
               /\ seen st1 = seen st
               /\ forall fuel2 evs st2,
                    run fuel2 evs st1 = Some st2 ->
                    promise_state (settles pr) st2 = None
                    /\ reading st2 = false).
Proof.
  intros R Hid Hk.
  pose proof (reachable_inv R) as I. destruct I as [W S].
  destruct (wf_pending W _ Hk) as (c & tm & Hc & Hmade & Hs & _).
  destruct (S _ _ Hk) as (c' & params & Hc' & Hline).
  assert (c' = c) by congruence; subst c'.
  exists c, params.
  repeat (split; [assumption|]).
  assert (Hmap : forall k, k <> id ->
            map_get k (map_delete id (pending st)) = map_get k (pending st)).
  { intros k Hne. rewrite map_get_delete.
    destruct (id =? k) eqn:E; [|reflexivity]. apply Z.eqb_eq in E. congruence. }
  assert (Htimers : forall t, t <> timeout pr ->
            find_timer t
              (filter (fun e => negb (Nat.eqb (fst e) (timeout pr))) (timers st))
            = find_timer t (timers st)).
  { intros t Hne. rewrite find_timer_clear.
    destruct (Nat.eqb (timeout pr) t) eqn:E; [|reflexivity].
    apply Nat.eqb_eq in E. congruence. }
  split.
  { intros Ht. unfold verdict.
    destruct (prop "error" response) as [e|]; [|reflexivity].
    change (truthy (Some e) = false) in Ht. now rewrite Ht. }
  split.
  { intros error He Ht. unfold verdict, formatJsonRpcError. rewrite He, Ht.
    split; [|split; [|split]].
    - intros code message -> ->. reflexivity.
    - intros code message -> ->.
      now rewrite ToString_number, ToString_string.
    - intros type_error ->. reflexivity.
    - intros code type_error -> ->. reflexivity. }
  split.
  { intros s Hv st'. subst st'.
    rewrite resolvePending_unfold, Hid, Hk, Hv.
    unfold promise_state. cbn.
    rewrite !nth_error_update_nth, Nat.eqb_refl, Hc. simpl. rewrite Hs. simpl.
    repeat (split; [reflexivity|]).
    split.
    { intros p Hp. rewrite nth_error_update_nth.
      destruct (Nat.eqb (settles pr) p) eqn:E; [|reflexivity].
      apply Nat.eqb_eq in E. congruence. }
    split; [reflexivity|]. split; [exact Hmap|exact Htimers]. }
  intros type_error Hv st'.
  assert (Hres : resolvePending response st = Throws (ErrorObject type_error) st').
  { rewrite resolvePending_unfold, Hid, Hk, Hv. reflexivity. }
  pose proof (@dropped_abandons st id pr (conj W S) Hk) as HA. fold st' in HA.
  split; [exact Hres|]. split; [reflexivity|].
  split; [now apply abandoned_unsettled|].
  split; [reflexivity|]. split; [reflexivity|]. split; [exact Hmap|].
  split.
  { unfold st'. cbn. rewrite find_timer_clear. now rewrite Nat.eqb_refl. }
  split; [exact Htimers|].
  intros fuel line Hparse Hresp st1.
  assert (Hl : handleLine fuel line st = Throws (ErrorObject type_error) st').
  { unfold handleLine. now rewrite Hparse, Hresp, Hres. }
  assert (I1 : inv st1).
  { assert (E0 : evolves st st') by (eapply evolves_pending_dropped; exact Hk).
    destruct (E0 (conj W S)) as [I' _].
    assert (E1 : evolves st'
                   (with_readLoop (ReadRejected (ErrorObject type_error)) st')).
    { apply evolves_frame; try reflexivity; intros; assumption. }
    destruct (E1 I') as [I'' _].
    assert (E2 : evolves
                   (with_readLoop (ReadRejected (ErrorObject type_error)) st') st1)
      by apply evolves_close_resume.
    exact (proj1 (E2 I'')). }
  assert (Hread : reading st1 = false).
  { unfold st1, reading. now rewrite close_resume_readLoop. }
  assert (HA1 : abandoned (settles pr) st1).
  { unfold st1, close_resume.
    apply abandoned_close_after_exited, abandoned_close_after_readLoop.
    revert HA. apply abandoned_frame; reflexivity. }
  split; [exact Hl|]. split.
  { intros dec buffer value rest Hr Hfeed.
    unfold step. rewrite (on_chunk_feed _ _ _ Hr), Hfeed. simpl.
    rewrite Hl. reflexivity. }
  split.
  { intros dec buffer Hr Htrim Hlen.
    unfold step, on_end. rewrite Hr. cbv zeta. rewrite Htrim.
    apply Nat.ltb_lt in Hlen. rewrite Hlen, Hl. reflexivity. }
  split; [exact Hread|].
  split; [unfold st1; now rewrite close_resume_seen|].
  intros fuel2 evs st2 Hrun. split.
  - apply abandoned_unsettled.
    eapply abandoned_run; [exact I1|exact HA1|exact Hrun].
  - eapply done_reading_run; [exact I1|exact Hread|exact Hrun].
Qed.

End Responses.

(** ** Lines that do not parse *)

Section UnparsableLines.
Context {host : Host} {callbacks : Callbacks}.
Import Transport.

(** C7, as the code has it.  A line that [JSON.parse] rejects is reported
    to the error callbacks and to nobody else.  When these callbacks
    return: [handleLine] returns; the callbacks were handed the error
    "Failed to parse JSON-RPC line: ..." and nothing else, every callback
    subscribed afterwards having been handed it; the read loop is where it
    was and goes on with the units that follow in the chunk, well-formed
    ones included; and every pending request (with an id below 2^53) is
    still pending, its promise unsettled and its timer armed.  When an
    error callback throws, nothing catches the exception: it leaves
    [handleLine], the units that follow in the chunk are not handled, and
    the read loop ends, its promise rejected with what was thrown (also
    when the line was the last unit, at the end of input); the callbacks
    have then been handed nothing but the parse error. *)
Theorem unparsable_line_is_reported fuel line st :
  reachable st ->
  JSON_parse line = None ->
  (forall st1,
     emitError fuel (parse_failure line) st = Returns st1 ->
     handleLine fuel line st = Returns st1
     /\ (exists ds,
           seen st1 = seen st ++ ds
           /\ Forall (fun d => exists h, d = GotError h (parse_failure line)) ds
           /\ forall j h,
                nth_error (errorHandlers st1) j = Some (Some h) ->
                In (GotError h (parse_failure line)) ds)
     /\ readLoop st1 = readLoop st
     /\ (forall k pr,
           k < 2 ^ 53 -> map_get k (pending st) = Some pr ->
           map_get k (pending st1) = Some pr
           /\ promise_state (settles pr) st1 = None
           /\ exists tm, find_timer (timeout pr) (timers st1) = Some tm)
     /\ (forall more, handle_all fuel (line :: more) st = handle_all fuel more st1)
     /\ (forall dec buffer value more,
           readLoop st = Reading dec buffer ->
           fst (feed (dec, buffer) value) = line :: more ->
           on_chunk fuel value st
           = settle_readLoop
               (Reading (fst (snd (feed (dec, buffer) value)))
                        (snd (snd (feed (dec, buffer) value))))
               (handle_all fuel more st1)))
  /\ (forall e st1,
        emitError fuel (parse_failure line) st = Throws e st1 ->
        handleLine fuel line st = Throws e st1
        /\ (exists ds,
              seen st1 = seen st ++ ds
              /\ Forall (fun d => exists h, d = GotError h (parse_failure line)) ds)
        /\ (forall more, handle_all fuel (line :: more) st = Throws e st1)
        /\ (forall dec buffer value more,
              readLoop st = Reading dec buffer ->
              fst (feed (dec, buffer) value) = line :: more ->
              let ended := close_resume (with_readLoop (ReadRejected e) st1) in
              on_chunk fuel value st = Some (with_readLoop (ReadRejected e) st1)
              /\ step fuel (StdoutChunk value) st = Some ended
              /\ readLoop ended = ReadRejected e
              /\ seen ended = seen st1
              /\ forall fuel2 evs st2,
                   run fuel2 evs ended = Some st2 -> reading st2 = false)
        /\ (forall dec buffer,
              readLoop st = Reading dec buffer ->
              trim buffer = line -> (0 < length line)%nat ->
              step fuel StdoutEnd st
              = Some (close_resume (with_readLoop (ReadRejected e) st1)))).
Proof.
  intros R Hparse. pose proof (reachable_inv R) as I.
  assert (Hh : handleLine fuel line st = emitError fuel (parse_failure line) st).
  { unfold handleLine. now rewrite Hparse. }
  split.
  - intros st1 He. rewrite He in Hh.
    assert (Hall : forall more,
               handle_all fuel (line :: more) st = handle_all fuel more st1).
    { intros more. simpl. now rewrite Hh. }
    pose proof (quiet_emit_from (error_channel (parse_failure line)) fuel 0 I) as Q.
    pose proof (evolves_emit_from (error_channel (parse_failure line)) fuel 0 st) as E.
    unfold emitError in He. rewrite He in Q, E. simpl in Q, E.
    destruct (E I) as (I1 & _).
    split; [exact Hh|]. split.
    { destruct (@emit_from_served _ (error_channel (parse_failure line)) fuel
                  (proper_error (parse_failure line)) 0 st st1 I He)
        as (js & ds & S).
      exists ds. pose proof (served_live S) as L.
      destruct S as (Hseen & _ & _ & HF & _ & _).
      split; [exact Hseen|]. split.
      - clear - HF. induction HF as [|j d js' ds' Hd _ IH];
          constructor; [|exact IH].
        destruct Hd as (h & Hd & _). exists h. exact Hd.
      - intros j h Hn. apply (L j h); [lia|exact Hn]. }
    split; [apply Q|]. split.
    { intros k pr Hk Hp.
      assert (Hlt : k < nextRequestId st).
      { destruct (wf_pending (proj1 I) _ Hp) as (c & _ & Hc & Hid & _).
        destruct (wf_ids (proj1 I) _ Hc); lia. }
      destruct Q as [_ _ _ _ _ _ QP].
      pose proof (QP k pr Hlt Hp) as Hp1. split; [exact Hp1|].
      destruct (wf_pending (proj1 I1) _ Hp1) as (c & tm & Hc & _ & Hs & Htm & _).
      split; [|eauto]. unfold promise_state. now rewrite Hc, Hs. }
    split; [exact Hall|].
    intros dec buffer value more Hr Hf.
    now rewrite (on_chunk_feed _ _ _ Hr), Hf, Hall.
  - intros e st1 He. rewrite He in Hh.
    assert (Hall : forall more, handle_all fuel (line :: more) st = Throws e st1).
    { intros more. simpl. now rewrite Hh. }
    split; [exact Hh|]. split.
    { apply (@seen_emit_from _ (error_channel (parse_failure line)) fuel 0 st st1).
      unfold emitError in He. now rewrite He. }
    split; [exact Hall|].
    split.
    2:{ intros dec buffer Hr Htrim Hlen.
        unfold step, on_end. rewrite Hr. cbv zeta. rewrite Htrim.
        apply Nat.ltb_lt in Hlen. rewrite Hlen, Hh. reflexivity. }
    intros dec buffer value more Hr Hf ended.
    assert (Hc : on_chunk fuel value st
                 = Some (with_readLoop (ReadRejected e) st1)).
    { now rewrite (on_chunk_feed _ _ _ Hr), Hf, Hall. }
    assert (Hs : step fuel (StdoutChunk value) st = Some ended).
    { unfold step. now rewrite Hc. }
    assert (Hr1 : readLoop ended = ReadRejected e).
    { unfold ended. now rewrite close_resume_readLoop. }
    split; [exact Hc|]. split; [exact Hs|]. split; [exact Hr1|].
    split; [unfold ended; now rewrite close_resume_seen|].
    intros fuel2 evs st2 Hrun.
    eapply run_keeps; [eapply reachable_step; eauto|exact Hrun|].
    unfold reading. now rewrite Hr1.
Qed.

End UnparsableLines.

(** ** A rejection of [process.exited] *)

Section ExitFailure.
Context {host : Host} {callbacks : Callbacks}.
Import Transport.

(** X10. When [process.exited] is rejected, the [catch] reaction of the
    constructor rejects every pending request and then calls the error
    callbacks with the error, made an [Error] by [toError] (an [Error] is
    taken as it is, any other value is converted to a string), also after
    [close()] was called.  Every request that is pending when
    this happens is rejected exactly once: with "transport closed" when
    [close()] was waiting for the exit, since that call resumes first, and
    with the normalized error otherwise; nothing that happens later reaches
    its promise again.  (Should the conversion to a string throw, which it
    cannot on an [Error], the reaction ends there: it rejects nothing and
    tells nobody.) *)
Theorem exit_failure_rejects_pending st fuel e st' :
  reachable st -> exited st = false ->
  step fuel (ProcessExitFailed e) st = Some st' ->
  let resumed := close_after_exited (with_exited st) in
  (forall message, e = ErrorObject message -> toError e = inr message)
  /\ (forall normalized,
        toError e = inr normalized ->
        let reason :=
          match closing st with
          | AwaitExited => js "transport closed"
          | _ => normalized
          end in
        let rejected := rejectAllPending normalized resumed in
        exited_catch fuel e resumed = emitError fuel normalized rejected
        /\ pending rejected = []
        /\ forall k pr,
             In (k, pr) (pending st) ->
             exists c,
               nth_error (promises st) (settles pr) = Some c
               /\ settle_calls c = []
               /\ nth_error (promises rejected) (settles pr)
                  = Some (settle_cell (Rejected reason) c)
               /\ promise_state (settles pr) st' = Some (Rejected reason)
               /\ forall fuel2 evs st2,
                    run fuel2 evs st' = Some st2 ->
                    nth_error (promises st2) (settles pr)
                    = Some (settle_cell (Rejected reason) c))
  /\ (forall type_error,
        toError e = inl type_error ->
        exited_catch fuel e resumed = Throws (ErrorObject type_error) resumed
        /\ st' = close_resume resumed).
Proof.
  intros R Hex Hstep resumed.
  pose proof (reachable_inv R) as I.
  assert (Ie : inv (with_exited st)) by apply (@evolves_with_exited _ st I).
  assert (Ires : inv resumed).
  { apply (@evolves_close_after_exited _ (with_exited st) Ie). }
  split. { now intros message ->. }
  split.
  2:{ intros type_error Ht. unfold step in Hstep. rewrite Hex in Hstep.
      fold resumed in Hstep. unfold exited_catch in *. rewrite Ht in *.
      simpl in Hstep. injection Hstep as <-. split; reflexivity. }
  intros normalized Hn reason rejected.
  assert (Irej : inv rejected).
  { apply (@evolves_rejectAllPending _ normalized resumed Ires). }
  split. { unfold exited_catch. now rewrite Hn. }
  split. { apply rejectAllPending_empties. }
  assert (E1 : evolves rejected st').
  { unfold step in Hstep. rewrite Hex in Hstep.
    fold resumed in Hstep. unfold exited_catch in Hstep. rewrite Hn in Hstep.
    fold rejected in Hstep.
    pose proof (evolves_emit_from (error_channel normalized) fuel 0 rejected) as H.
    fold (emitError fuel normalized rejected) in H.
    destruct (emitError fuel normalized rejected) as [s1|x s1|]; simpl in *;
      try discriminate; injection Hstep as <-;
      (eapply evolves_trans; [exact H|apply evolves_close_resume]). }
  intros k pr Hin.
  assert (Hk : map_get k (pending st) = Some pr).
  { apply In_map_get; [apply I|exact Hin]. }
  destruct (wf_pending (proj1 I) _ Hk) as (c & _ & Hc & _ & Hs & _).
  exists c. split; [exact Hc|]. split; [exact Hs|].
  assert (Hall : forall error,
             nth_error (promises (rejectAllPending error (with_exited st)))
               (settles pr)
             = Some (settle_cell (Rejected error) c)).
  { intros error. unfold rejectAllPending.
    apply reject_each_settles with (k := k); auto.
    - intros k' pr'. apply In_map_get, Ie.
    - apply Ie. }
  assert (Hr : nth_error (promises rejected) (settles pr)
               = Some (settle_cell (Rejected reason) c)).
  { unfold rejected, resumed, reason, close_after_exited.
    cbn [closing exited with_exited].
    destruct (closing st) eqn:Ec; try apply Hall.
    set (first := rejectAllPending (js "transport closed") (with_exited st)).
    assert (If : inv first).
    { apply (@evolves_rejectAllPending _ (js "transport closed")
               (with_exited st) Ie). }
    assert (Hf : nth_error (promises (with_closing CloseReturned first))
                   (settles pr)
                 = Some (settle_cell (Rejected (js "transport closed")) c)).
    { apply Hall. }
    assert (Iw : inv (with_closing CloseReturned first)).
    { revert If. apply evolves_frame; try reflexivity; auto. }
    eapply settled_stays;
      [exact Iw|apply evolves_rejectAllPending|exact Hf|apply settle_cell_settled]. }
  assert (H1 : nth_error (promises st') (settles pr)
               = Some (settle_cell (Rejected reason) c)).
  { eapply settled_stays;
      [exact Irej|exact E1|exact Hr|apply settle_cell_settled]. }
  split; [exact Hr|]. split.
  { unfold promise_state. rewrite H1. simpl. now rewrite Hs. }
  intros fuel2 evs st2 Hrun.
  eapply settled_stays;
    [exact (proj1 (E1 Irej))|eapply evolves_run; exact Hrun|exact H1
    |apply settle_cell_settled].
Qed.

End ExitFailure.

(** * Further properties of the client *)

Section Extractors.
Context {host : Host}.
Import Client.

Lemma isThread_object value : isThread value = true -> isObject value = true.
Proof. unfold isThread. now intros H%andb_true_iff. Qed.

Lemma isTurn_object value : isTurn value = true -> isObject value = true.
Proof.
  unfold isTurn. intros H. repeat (apply andb_true_iff in H as [H _]). exact H.
Qed.

Lemma extractThread_cases result :
  extractThread result
  = if isThread result then result
    else if isObject result && isThread (oprop "thread" result)
         then oprop "thread" result
         else None.
Proof.
  destruct result as [r|]; [|reflexivity]. unfold extractThread.
  destruct (isThread (Some r)) eqn:E1.
  - now rewrite (isThread_object _ E1).
  - rewrite andb_false_r. cbn [oprop].
    destruct (prop "thread" r) as [t|]; [reflexivity|].
    now rewrite andb_false_r.
Qed.

Lemma extractTurn_cases result :
  extractTurn result
  = if isTurn result then result
    else if isObject result && isTurn (oprop "turn" result)
         then oprop "turn" result
         else None.
Proof.
  destruct result as [r|]; [|reflexivity]. unfold extractTurn.
  destruct (isTurn (Some r)) eqn:E1.
  - now rewrite (isTurn_object _ E1).
  - rewrite andb_false_r. cbn [oprop].
    destruct (prop "turn" r) as [t|]; [reflexivity|].
    now rewrite andb_false_r.
Qed.

(** X12. What [extractThread] and [extractTurn] return, case by case.  A
    result that has the shape is returned itself; this comes first.  A
    result that has not the shape but is an object whose member [thread]
    (or [turn]) has it gives that member.  In every other case they throw:
    when neither the result nor the member has the shape, and so on a
    result that is not an object.  Hence what they return has the shape,
    is the result or its member, and is returned again when they are
    applied to it. *)
Theorem extracted_thread_and_turn_have_the_shape result :
  (isThread result = true -> extractThread result = result)
  /\ (isThread result = false -> isObject result = true ->
      isThread (oprop "thread" result) = true ->
      extractThread result = oprop "thread" result)
  /\ (isThread result = false -> isThread (oprop "thread" result) = false ->
      extractThread result = None)
  /\ (isTurn result = true -> extractTurn result = result)
  /\ (isTurn result = false -> isObject result = true ->
      isTurn (oprop "turn" result) = true ->
      extractTurn result = oprop "turn" result)
  /\ (isTurn result = false -> isTurn (oprop "turn" result) = false ->
      extractTurn result = None)
  /\ (isObject result = false ->
      extractThread result = None /\ extractTurn result = None)
  /\ (forall t, extractThread result = Some t ->
        isThread (Some t) = true
        /\ (result = Some t \/ oprop "thread" result = Some t)
        /\ extractThread (Some t) = Some t)
  /\ (forall t, extractTurn result = Some t ->
        isTurn (Some t) = true
        /\ (result = Some t \/ oprop "turn" result = Some t)
        /\ extractTurn (Some t) = Some t).
Proof.
  split. { intros H. now rewrite extractThread_cases, H. }
  split. { intros H Ho Hm. now rewrite extractThread_cases, H, Ho, Hm. }
  split. { intros H Hm. now rewrite extractThread_cases, H, Hm, andb_false_r. }
  split. { intros H. now rewrite extractTurn_cases, H. }
  split. { intros H Ho Hm. now rewrite extractTurn_cases, H, Ho, Hm. }
  split. { intros H Hm. now rewrite extractTurn_cases, H, Hm, andb_false_r. }
  split.
  { intros H. rewrite extractThread_cases, extractTurn_cases, H.
    assert (H1 : isThread result = false).
    { destruct (isThread result) eqn:E; [|reflexivity].
      apply isThread_object in E. congruence. }
    assert (H2 : isTurn result = false).
    { destruct (isTurn result) eqn:E; [|reflexivity].
      apply isTurn_object in E. congruence. }
    now rewrite H1, H2. }
  split.
  - intros t. rewrite extractThread_cases.
    destruct (isThread result) eqn:E1.
    + intros ->. split; [exact E1|]. split; [now left|].
      now rewrite extractThread_cases, E1.
    + destruct (isObject result && isThread (oprop "thread" result)) eqn:E2;
        [|discriminate].
      intros Hm. apply andb_true_iff in E2 as [_ E2]. rewrite Hm in E2.
      split; [exact E2|]. split; [now right|].
      now rewrite extractThread_cases, E2.
  - intros t. rewrite extractTurn_cases.
    destruct (isTurn result) eqn:E1.
    + intros ->. split; [exact E1|]. split; [now left|].
      now rewrite extractTurn_cases, E1.
    + destruct (isObject result && isTurn (oprop "turn" result)) eqn:E2;
        [|discriminate].
      intros Hm. apply andb_true_iff in E2 as [_ E2]. rewrite Hm in E2.
      split; [exact E2|]. split; [now right|].
      now rewrite extractTurn_cases, E2.
Qed.

Lemma cursor_cases v :
  cursor v = None \/ (cursor v = Some JNull /\ v = Some JNull)
  \/ exists s, cursor v = Some (JStr s) /\ v = Some (JStr s).
Proof. destruct v as [[]|]; simpl; eauto. Qed.

Lemma extractList_spec keep result r :
  extractList keep result = Some r ->
  exists items,
    isObject result = true
    /\ oprop "data" result = Some (JArr items)
    /\ Forall (fun x => keep x = true) (list_data r)
    /\ (forall x, In x (list_data r) <-> In x items /\ keep x = true)
    /\ (length (list_data r) <= length items)%nat
    /\ (Forall (fun x => keep x = true) items -> list_data r = items)
    /\ (list_nextCursor r = None
        \/ (list_nextCursor r = Some JNull
            /\ oprop "nextCursor" result = Some JNull)
        \/ exists s, list_nextCursor r = Some (JStr s)
                     /\ oprop "nextCursor" result = Some (JStr s)).
Proof.
  unfold extractList. destruct (isObject result) eqn:Eo; [|discriminate].
  destruct (oprop "data" result) as [[| | | |items|]|] eqn:Ed; try discriminate.
  intros [= <-]. exists items. cbn [list_data list_nextCursor].
  split; [reflexivity|]. split; [reflexivity|]. split.
  { apply Forall_forall. intros x Hx. now apply filter_In in Hx. }
  split. { intros x. apply filter_In. }
  split. { apply filter_length_le. }
  split.
  { intros H. apply filter_all. now apply Forall_forall. }
  apply cursor_cases.
Qed.

(** X13. [extractThreadList] and [extractModelList] return the entries
    of the array [data] of the result that have the right shape (a thread
    has a string [id]; a model has strings [id], [model] and
    [displayName]), in the order in which the array has them: an
    ill-shaped entry is left out, it is no error, and a list of well-shaped
    entries is returned as it is.  The cursor returned is the [nextCursor]
    of the result when that is a string or null, and undefined in every
    other case.  They throw exactly when the result is not an object whose
    [data] is an array. *)
Theorem extracted_lists_hold_well_shaped_entries result :
  (forall r, extractThreadList result = Some r ->
     exists items,
       oprop "data" result = Some (JArr items)
       /\ list_data r = filter (fun t => isThread (Some t)) items
       /\ Forall (fun t => isThread (Some t) = true) (list_data r)
       /\ (forall t, In t (list_data r) <-> In t items /\ isThread (Some t) = true)
       /\ (Forall (fun t => isThread (Some t) = true) items -> list_data r = items))
  /\ (forall r, extractModelList result = Some r ->
        exists items,
          oprop "data" result = Some (JArr items)
          /\ list_data r = filter isModel items
          /\ Forall (fun m => isModel m = true) (list_data r)
          /\ (forall m, In m (list_data r) <-> In m items /\ isModel m = true)
          /\ (Forall (fun m => isModel m = true) items -> list_data r = items))
  /\ (forall r,
        extractThreadList result = Some r \/ extractModelList result = Some r ->
        (forall s, oprop "nextCursor" result = Some (JStr s) ->
                   list_nextCursor r = Some (JStr s))
        /\ (oprop "nextCursor" result = Some JNull ->
            list_nextCursor r = Some JNull)
        /\ ((forall s, oprop "nextCursor" result <> Some (JStr s)) ->
            oprop "nextCursor" result <> Some JNull ->
            list_nextCursor r = None))
  /\ ((exists items, isObject result = true
                     /\ oprop "data" result = Some (JArr items))
      <-> (exists r, extractThreadList result = Some r)
          /\ exists r, extractModelList result = Some r).
Proof.
  assert (Hcursor : forall keep r,
            extractList keep result = Some r ->
            list_nextCursor r = cursor (oprop "nextCursor" result)).
  { intros keep r. unfold extractList.
    destruct (isObject result); [|discriminate].
    destruct (oprop "data" result) as [[| | | |items|]|]; try discriminate.
    now intros [= <-]. }
  assert (Hdata : forall keep r,
            extractList keep result = Some r ->
            exists items,
              oprop "data" result = Some (JArr items)
              /\ list_data r = filter keep items).
  { intros keep r. unfold extractList.
    destruct (isObject result); [|discriminate].
    destruct (oprop "data" result) as [[| | | |items|]|]; try discriminate.
    intros [= <-]. exists items. split; reflexivity. }
  split; [|split; [|split]].
  - intros r H. destruct (extractList_spec _ _ H)
      as (items & _ & H1 & H2 & H3 & _ & H5 & _).
    destruct (Hdata _ _ H) as (items' & H1' & Hf).
    assert (items' = items) by congruence; subst items'.
    exists items. auto.
  - intros r H. destruct (extractList_spec _ _ H)
      as (items & _ & H1 & H2 & H3 & _ & H5 & _).
    destruct (Hdata _ _ H) as (items' & H1' & Hf).
    assert (items' = items) by congruence; subst items'.
    exists items. auto.
  - intros r Hr.
    assert (Hc : list_nextCursor r = cursor (oprop "nextCursor" result)).
    { destruct Hr as [H|H]; exact (Hcursor _ _ H). }
    rewrite Hc. split; [|split].
    + now intros s ->.
    + now intros ->.
    + intros Hs Hn. destruct (oprop "nextCursor" result) as [[]|];
        try reflexivity; [now elim Hn|now elim (Hs s)].
  - unfold extractThreadList, extractModelList, extractList. split.
    + intros (items & -> & ->). split; eauto.
    + intros [[r H] _]. destruct (isObject result); [|discriminate].
      destruct (oprop "data" result) as [[| | | |items|]|]; try discriminate.
      eauto.
Qed.

(** X14. A result that is not an object (a missing result, null, a number,
    a string) makes every extractor throw its own error, "Invalid ...
    response" or "Missing turnId ...": the member reads come after the
    [isObject] test, so none of them is made on such a value.
    [startReview] alone tolerates it and returns an empty object, in which
    [runReview] finds no turn id.  For turn/steer the member [turnId] of
    the result, when it is a string, comes before [turn.id]. *)
Theorem results_that_are_no_objects_are_refused result :
  isObject result = false ->
  extractThread result = None
  /\ extractTurn result = None
  /\ extractThreadList result = None
  /\ extractModelList result = None
  /\ extractExecCommandResult result = None
  /\ steeredTurnId result = None
  /\ startReviewResult result = JObj []
  /\ reviewTurnId_of (startReviewResult result) = None
  /\ forall r turnId,
       as_string (prop "turnId" r) = Some turnId ->
       isObject (Some r) = true ->
       steeredTurnId (Some r) = Some turnId.
Proof.
  intros H.
  unfold extractThread, extractTurn, extractThreadList, extractModelList,
    extractList, extractExecCommandResult, steeredTurnId, startReviewResult.
  rewrite H. destruct result as [r|]; simpl.
  - destruct (prop "thread" r), (prop "turn" r); repeat split; auto;
      intros r0 turnId Hid Ho; now rewrite Ho, Hid.
  - repeat split; auto. intros r0 turnId Hid Ho. now rewrite Ho, Hid.
Qed.

End Extractors.

Section StringMapDelete.
Variable V : Type.

Lemma smap_get_delete k k' (m : list (jsstring * V)) :
  smap_get k (smap_delete k' m) = if str_eqb k' k then None else smap_get k m.
Proof.
  unfold smap_delete. induction m as [|[k0 v0] m IH]; simpl.
  - rewrite smap_get_nil. now destruct (str_eqb k' k).
  - rewrite smap_get_cons. destruct (str_eqb k0 k') eqn:E0; simpl.
    + apply str_eqb_spec in E0. subst k0. rewrite IH.
      now destruct (str_eqb k' k).
    + rewrite smap_get_cons, IH. destruct (str_eqb k0 k) eqn:E1; [|reflexivity].
      apply str_eqb_spec in E1. subst k0. now rewrite str_eqb_sym, E0.
Qed.

End StringMapDelete.

Section Waiting.
Context {host : Host}.
Import Client.

Lemma run_append evs1 evs2 c : run (evs1 ++ evs2) c = run evs2 (run evs1 c).
Proof. unfold run. apply fold_left_app. Qed.

Lemma run_cons ev evs c : run (ev :: evs) c = run evs (step ev c).
Proof. reflexivity. Qed.

(** A message that does not complete the turn leaves the wait where it is. *)
Lemma other_message_step turnId m c :
  completes turnId m = false ->
  smap_get turnId (completedTurns (step (Delivered m) c))
  = smap_get turnId (completedTurns c)
  /\ (stage c = Starting -> stage (step (Delivered m) c) = Starting)
  /\ (stage c = Waiting turnId -> stage (step (Delivered m) c) = Waiting turnId)
  /\ (forall t, stage c = Completing turnId t ->
        stage (step (Delivered m) c) = Completing turnId t).
Proof.
  unfold completes. simpl.
  destruct (handleMessage m) as [e|[ev|]];
    [intros _; repeat split; auto| |intros _; repeat split; auto].
  intros Hc. unfold on_internal.
  assert (Hcache : smap_get turnId
                     match ev with
                     | TurnCompleted data =>
                         smap_set (string_at "id" (tc_turn data)) (tc_turn data)
                           (completedTurns c)
                     | _ => completedTurns c
                     end
                   = smap_get turnId (completedTurns c)).
  { destruct ev; try reflexivity. now rewrite smap_get_set, Hc. }
  destruct (stage c) eqn:Es.
  - cbn. repeat split; auto; discriminate.
  - destruct ev; cbn; try (repeat split; auto; discriminate).
    destruct (str_eqb (string_at "id" (tc_turn data)) turnId0) eqn:E; cbn.
    + repeat split; try discriminate.
      * rewrite smap_get_delete, smap_get_set.
        destruct (str_eqb turnId0 turnId) eqn:E2.
        -- apply str_eqb_spec in E2. subst turnId0. congruence.
        -- now rewrite Hc.
      * intros [= ->]. congruence.
    + repeat split; auto; discriminate.
  - cbn. repeat split; auto; discriminate.
  - cbn. repeat split; auto; discriminate.
Qed.

Lemma other_messages_run turnId evs : forall c,
  others turnId evs ->
  smap_get turnId (completedTurns (run evs c)) = smap_get turnId (completedTurns c)
  /\ (stage c = Starting -> stage (run evs c) = Starting)
  /\ (stage c = Waiting turnId -> stage (run evs c) = Waiting turnId)
  /\ (forall t, stage c = Completing turnId t ->
        stage (run evs c) = Completing turnId t).
Proof.
  induction evs as [|ev evs IH]; intros c Ho.
  - repeat split; auto.
  - inversion Ho as [|? ? (m & -> & Hm) Hrest]; subst.
    rewrite run_cons.
    destruct (@other_message_step turnId m c Hm) as (H1 & H2 & H3 & H4).
    destruct (IH (step (Delivered m) c) Hrest) as (K1 & K2 & K3 & K4).
    split; [congruence|]. repeat split; auto.
Qed.

Lemma collect_skip x m y d :
  handleMessage m = inr (Some (TurnCompleted d)) ->
  collect (x ++ m :: y) = collect (x ++ y).
Proof.
  intros H. unfold collect. rewrite !fold_left_app. simpl. now rewrite H.
Qed.

Lemma delivered_app evs1 evs2 :
  delivered (evs1 ++ evs2) = delivered evs1 ++ delivered evs2.
Proof. unfold delivered. apply flat_map_app. Qed.

(** X15. No completion is lost.  [runTurn] gets the completed turn whether
    the turn/completed notification arrives after the response of
    turn/start, when it is waiting for it, or before it, when the turn is
    found in the cache of completed turns; other messages may arrive at any
    point.  In both orders [runTurn] resumes with the turn of the
    notification, the entry of the turn has left the cache, and the call
    settles in the same way. *)
Theorem completion_is_not_lost cache a b c m d value t turnId :
  smap_get turnId cache = None ->
  others turnId a -> others turnId b -> others turnId c ->
  handleMessage m = inr (Some (TurnCompleted d)) ->
  string_at "id" (tc_turn d) = turnId ->
  extractTurn value = Some t -> string_at "id" t = turnId ->
  let early := a ++ Delivered m :: b ++ StartTurnSettled (Fulfilled value) :: c in
  let late := a ++ StartTurnSettled (Fulfilled value) :: b ++ Delivered m :: c in
  stage (run early (start cache)) = Completing turnId (tc_turn d)
  /\ stage (run late (start cache)) = Completing turnId (tc_turn d)
  /\ smap_get turnId (completedTurns (run early (start cache))) = None
  /\ smap_get turnId (completedTurns (run late (start cache))) = None
  /\ stage (run (early ++ [Resumed]) (start cache))
     = stage (run (late ++ [Resumed]) (start cache)).
Proof.
  intros Hcache Ha Hb Hc Hm Hid Ht Hidt early late.
  destruct (@other_messages_run turnId a (start cache) Ha) as (A1 & A2 & _).
  specialize (A2 eq_refl). cbn [completedTurns start] in A1.
  set (ca := run a (start cache)) in *.
  (* the notification first *)
  assert (E1 : stage (step (Delivered m) ca) = Starting
               /\ smap_get turnId (completedTurns (step (Delivered m) ca))
                  = Some (tc_turn d)).
  { simpl. rewrite Hm. unfold on_internal. rewrite A2. cbn.
    split; [reflexivity|]. now rewrite smap_get_set, Hid, str_eqb_refl. }
  destruct E1 as [E1 E1c].
  destruct (@other_messages_run turnId b (step (Delivered m) ca) Hb)
    as (B1 & B2 & _).
  specialize (B2 E1). rewrite E1c in B1.
  set (cb := run b (step (Delivered m) ca)) in *.
  assert (E2 : stage (step (StartTurnSettled (Fulfilled value)) cb)
               = Completing turnId (tc_turn d)
               /\ smap_get turnId
                    (completedTurns (step (StartTurnSettled (Fulfilled value)) cb))
                  = None).
  { simpl. rewrite B2, Ht, Hidt, B1. cbn. split; [reflexivity|].
    now rewrite smap_get_delete, str_eqb_refl. }
  destruct E2 as [E2 E2c].
  destruct (@other_messages_run turnId c
              (step (StartTurnSettled (Fulfilled value)) cb) Hc)
    as (C1 & _ & _ & C4).
  specialize (C4 _ E2). rewrite E2c in C1.
  (* the response first *)
  assert (F1 : stage (step (StartTurnSettled (Fulfilled value)) ca) = Waiting turnId
               /\ smap_get turnId
                    (completedTurns (step (StartTurnSettled (Fulfilled value)) ca))
                  = None).
  { simpl. rewrite A2, Ht, Hidt, A1, Hcache. cbn. split; [reflexivity|].
    now rewrite A1. }
  destruct F1 as [F1 F1c].
  destruct (@other_messages_run turnId b
              (step (StartTurnSettled (Fulfilled value)) ca) Hb)
    as (G1 & _ & G3 & _).
  specialize (G3 F1). rewrite F1c in G1.
  set (cb' := run b (step (StartTurnSettled (Fulfilled value)) ca)) in *.
  assert (F2 : stage (step (Delivered m) cb') = Completing turnId (tc_turn d)
               /\ smap_get turnId (completedTurns (step (Delivered m) cb')) = None).
  { simpl. rewrite Hm. unfold on_internal. rewrite G3, Hid, str_eqb_refl. cbn.
    split; [reflexivity|]. now rewrite smap_get_delete, str_eqb_refl. }
  destruct F2 as [F2 F2c].
  destruct (@other_messages_run turnId c (step (Delivered m) cb') Hc)
    as (D1 & _ & _ & D4).
  specialize (D4 _ F2). rewrite F2c in D1.
  assert (Hearly : run early (start cache)
                   = run c (step (StartTurnSettled (Fulfilled value)) cb)).
  { unfold early. rewrite run_append, run_cons, run_append, run_cons. reflexivity. }
  assert (Hlate : run late (start cache) = run c (step (Delivered m) cb')).
  { unfold late. rewrite run_append, run_cons, run_append, run_cons. reflexivity. }
  rewrite <- Hearly in C4, C1. rewrite <- Hlate in D4, D1.
  split; [exact C4|]. split; [exact D4|]. split; [exact C1|]. split; [exact D1|].
  rewrite !run_snoc. simpl. rewrite C4, D4. cbn. f_equal. f_equal.
  rewrite !collected_run.
  - unfold early, late.
    rewrite !delivered_app. simpl. rewrite !delivered_app. simpl.
    rewrite (app_assoc (delivered a) (delivered b)).
    rewrite (@collect_skip (delivered a) m (delivered b ++ delivered c) d Hm).
    rewrite (@collect_skip (delivered a ++ delivered b) m (delivered c) d Hm).
    now rewrite app_assoc.
  - intros r. rewrite D4. discriminate.
  - intros r. rewrite C4. discriminate.
Qed.

(** X16. The wait for the completion of a turn ends after its time: when
    the timer of [waitForTurnCompletion] fires before the notification has
    arrived, [runTurn] rejects with "Timed out waiting for turn completion:"
    and the turn id, and nothing that arrives later changes that.  The
    listener is removed but the cache is not told: a completion of that
    turn that arrives right afterwards is stored in the cache of completed
    turns. *)
Theorem wait_for_turn_times_out cache pre turnId post :
  stage (run pre (start cache)) = Waiting turnId ->
  stage (run (pre ++ WaitTimedOut :: post) (start cache))
  = Settled (RejectedWith (wait_timeout_error turnId))
  /\ forall m d,
       handleMessage m = inr (Some (TurnCompleted d)) ->
       string_at "id" (tc_turn d) = turnId ->
       smap_get turnId
         (completedTurns (run (pre ++ [WaitTimedOut; Delivered m]) (start cache)))
       = Some (tc_turn d).
Proof.
  intros Hs. split.
  - rewrite run_append, run_cons. apply settled_run. simpl. now rewrite Hs.
  - intros m d Hm Hid. rewrite run_append. simpl. rewrite Hs. cbn.
    rewrite Hm. unfold on_internal. cbn.
    now rewrite smap_get_set, Hid, str_eqb_refl.
Qed.

End Waiting.

Section Review.
Context {host : Host}.
Import Client.

Variable threadId : jsstring.
Variable cache : list (jsstring * json).











End Review.

Section Subscribing.
Context {host : Host} {callbacks : Callbacks}.
Import Transport.

Lemma existsb_entry_is h entries :
  existsb (entry_is h) entries = true <-> In (Some h) entries.
Proof.
  rewrite existsb_exists. split.
  - intros ([x|] & Hin & Hx); simpl in Hx; [|discriminate].
    apply Nat.eqb_eq in Hx. now subst.
  - intros H. exists (Some h). split; [exact H|]. simpl. apply Nat.eqb_refl.
Qed.

Lemma set_add_In h entries : In (Some h) (set_add h entries).
Proof.
  unfold set_add. destruct (existsb (entry_is h) entries) eqn:E.
  - now apply existsb_entry_is.
  - apply in_or_app. right. now left.
Qed.

Lemma In_live h entries : In h (live entries) <-> In (Some h) entries.
Proof.
  unfold live. rewrite in_flat_map. split.
  - intros ([x|] & Hin & Hx); simpl in Hx; [|contradiction].
    destruct Hx as [->|[]]. exact Hin.
  - intros H. exists (Some h). split; [exact H|now left].
Qed.

Lemma NoDup_live_add h entries :
  NoDup (live entries) -> NoDup (live (set_add h entries)).
Proof.
  intros H. unfold set_add. destruct (existsb (entry_is h) entries) eqn:E;
    [exact H|].
  unfold live. rewrite flat_map_app. simpl. fold (live entries).
  apply NoDup_rev in H. rewrite <- (rev_involutive (live entries ++ [h])).
  apply NoDup_rev. rewrite rev_app_distr. simpl. constructor; [|exact H].
  rewrite <- in_rev, In_live. intros Hin.
  apply existsb_entry_is in Hin. congruence.
Qed.

Lemma live_delete h entries :
  live (set_delete h entries) = filter (fun x => negb (Nat.eqb x h)) (live entries).
Proof.
  induction entries as [|[x|] entries IH]; simpl; [reflexivity| |exact IH].
  destruct (Nat.eqb x h); simpl; now rewrite IH.
Qed.

Lemma NoDup_live_delete h entries :
  NoDup (live entries) -> NoDup (live (set_delete h entries)).
Proof. intros H. rewrite live_delete. now apply NoDup_filter. Qed.

Lemma distinct_step fuel ev st st' :
  inv st ->
  NoDup (live (messageHandlers st)) /\ NoDup (live (errorHandlers st)) ->
  step fuel ev st = Some st' ->
  NoDup (live (messageHandlers st')) /\ NoDup (live (errorHandlers st')).
Proof.
  intros I HP.
  assert (Hf : forall s s',
            messageHandlers s' = messageHandlers s ->
            errorHandlers s' = errorHandlers s ->
            NoDup (live (messageHandlers s)) /\ NoDup (live (errorHandlers s)) ->
            NoDup (live (messageHandlers s')) /\ NoDup (live (errorHandlers s'))).
  { now intros s s' -> ->. }
  assert (Hretire : forall t k p x s,
            NoDup (live (messageHandlers s)) /\ NoDup (live (errorHandlers s)) ->
            NoDup (live (messageHandlers (retire t k p x s)))
            /\ NoDup (live (errorHandlers (retire t k p x s)))).
  { intros t k p x s. now apply Hf. }
  assert (Hclosing : forall v s,
            NoDup (live (messageHandlers s)) /\ NoDup (live (errorHandlers s)) ->
            NoDup (live (messageHandlers (with_closing v s)))
            /\ NoDup (live (errorHandlers (with_closing v s)))).
  { intros v s. now apply Hf. }
  refine (@preserved_step _ _
            (fun s => NoDup (live (messageHandlers s))
                      /\ NoDup (live (errorHandlers s)))
            any_command _ _ _ _ _ _ _ _ _ _ _ _ fuel ev st st' I _ HP).
  - intros c s s' _ [Hm He]. destruct c; simpl;
      try (intros [= <-]; split; assumption).
    + intros [= <-]. split; [now apply NoDup_live_add|exact He].
    + intros [= <-]. split; [now apply NoDup_live_delete|exact He].
    + intros [= <-]. split; [exact Hm|now apply NoDup_live_add].
    + intros [= <-]. split; [exact Hm|now apply NoDup_live_delete].
    + rewrite request_unfold. cbn [snd]. intros [= <-].
      destruct (closed s); split; assumption.
    + unfold send. destruct (closed s); simpl; intros [= <-]; split; assumption.
    + unfold close. destruct (closed s); intros [= <-]; split; assumption.
  - intros h before m. apply Forall_forall. intros; exact Logic.I.
  - intros h before e. apply Forall_forall. intros; exact Logic.I.
  - intros m h j s _. now apply Hf.
  - intros e h j s _. now apply Hf.
  - apply (@retiring_resolvePending _
             (fun s => NoDup (live (messageHandlers s))
                       /\ NoDup (live (errorHandlers s))) Hretire).
    intros t k s. now apply Hf.
  - intros v s _. now apply Hf.
  - apply (@retiring_rejectAllPending _
             (fun s => NoDup (live (messageHandlers s))
                       /\ NoDup (live (errorHandlers s))) Hretire).
  - intros s. now apply Hf.
  - apply (@retiring_timer_fires _
             (fun s => NoDup (live (messageHandlers s))
                       /\ NoDup (live (errorHandlers s))) Hretire).
  - apply (@retiring_close_after_readLoop _
             (fun s => NoDup (live (messageHandlers s))
                       /\ NoDup (live (errorHandlers s))) Hclosing).
  - apply (@retiring_close_after_exited _
             (fun s => NoDup (live (messageHandlers s))
                       /\ NoDup (live (errorHandlers s))) Hretire Hclosing).
  - intros c _. exact Logic.I.
Qed.

Lemma reachable_distinct st :
  reachable st ->
  NoDup (live (messageHandlers st)) /\ NoDup (live (errorHandlers st)).
Proof.
  induction 1 as [b|fuel ev st st' R IH Hstep].
  - split; constructor.
  - eapply distinct_step; eauto. now apply reachable_inv.
Qed.

(** X18. Subscriptions are not counted.  In every state the transport can
    reach, whatever was subscribed and unsubscribed on the way, by callers
    and by callbacks, no callback is twice in the set of message callbacks
    or in the set of error callbacks.  Subscribing a callback that is
    subscribed changes nothing, so after [onMessage(h)] was called twice
    the callback is in the set once, and one call of either closure
    returned unsubscribes it; the other closure then has nothing left to
    remove.  The same holds of [onError]. *)
Theorem subscriptions_are_not_counted h st :
  reachable st ->
  NoDup (live (messageHandlers st))
  /\ NoDup (live (errorHandlers st))
  /\ count_occ Nat.eq_dec
       (live (messageHandlers (onMessage h (onMessage h st)))) h = 1%nat
  /\ (In (Some h) (messageHandlers st) -> onMessage h st = st)
  /\ onMessage h (onMessage h st) = onMessage h st
  /\ ~ In (Some h) (messageHandlers (offMessage h (onMessage h (onMessage h st))))
  /\ offMessage h (offMessage h st) = offMessage h st
  /\ count_occ Nat.eq_dec
       (live (errorHandlers (onError h (onError h st)))) h = 1%nat
  /\ (In (Some h) (errorHandlers st) -> onError h st = st)
  /\ onError h (onError h st) = onError h st
  /\ ~ In (Some h) (errorHandlers (offError h (onError h (onError h st))))
  /\ offError h (offError h st) = offError h st.
Proof.
  intros R. destruct (reachable_distinct R) as [Nm Ne].
  assert (Hadd : forall entries,
             In (Some h) entries -> set_add h entries = entries).
  { intros entries H. unfold set_add.
    now rewrite (proj2 (existsb_entry_is h entries) H). }
  assert (Hdel : forall entries, ~ In (Some h) (set_delete h entries)).
  { intros entries H. apply In_set_delete in H as [_ H]. now apply H. }
  assert (Hdd : forall entries,
             set_delete h (set_delete h entries) = set_delete h entries).
  { intros entries. unfold set_delete. rewrite map_map. apply map_ext.
    intros [x|]; simpl; [|reflexivity].
    destruct (Nat.eqb x h) eqn:E; simpl; [reflexivity|now rewrite E]. }
  assert (Hcount : forall entries,
             NoDup (live entries) ->
             count_occ Nat.eq_dec (live (set_add h (set_add h entries))) h = 1%nat).
  { intros entries N. rewrite (Hadd _ (set_add_In h entries)).
    apply NoDup_count_occ'; [now apply NoDup_live_add|].
    apply In_live, set_add_In. }
  split; [exact Nm|]. split; [exact Ne|].
  split. { cbn -[set_add]. now apply Hcount. }
  split. { intros H. unfold onMessage. rewrite (Hadd _ H). now destruct st. }
  split. { unfold onMessage. cbn -[set_add]. now rewrite (Hadd _ (set_add_In h _)). }
  split. { cbn -[set_add set_delete]. apply Hdel. }
  split. { unfold offMessage. cbn -[set_delete]. now rewrite Hdd. }
  split. { cbn -[set_add]. now apply Hcount. }
  split. { intros H. unfold onError. rewrite (Hadd _ H). now destruct st. }
  split. { unfold onError. cbn -[set_add]. now rewrite (Hadd _ (set_add_In h _)). }
  split. { cbn -[set_add set_delete]. apply Hdel. }
  unfold offError. cbn -[set_delete]. now rewrite Hdd.
Qed.

End Subscribing.

(** * The further properties at work on the example runs *)

Section MoreRuns.
Import Reference Examples Transport.

Lemma reachable_again cb fuel evs : @reachable host cb (after cb fuel evs).
Proof.
  unfold after.
  destruct (@run host cb fuel evs (create true)) as [st|] eqn:E.
  - eapply reachable_run; [apply reachable_create|exact E].
  - apply reachable_create.
Qed.

Lemma run_again cb fuel evs :
  is_some (@run host cb fuel evs (create true)) = true ->
  @run host cb fuel evs (create true) = Some (after cb fuel evs).
Proof.
  unfold after. destruct (@run host cb fuel evs (create true)); simpl;
    [reflexivity|discriminate].
Qed.

Lemma run_later cb fuel evs st :
  is_some (@run host cb fuel evs st) = true ->
  @run host cb fuel evs st = Some (later cb fuel evs st).
Proof.
  unfold later. destruct (@run host cb fuel evs st); simpl;
    [reflexivity|discriminate].
Qed.

Lemma step_then cb fuel ev st :
  is_some (@step host cb fuel ev st) = true ->
  @step host cb fuel ev st = Some (next cb fuel ev st).
Proof.
  unfold next. destruct (@step host cb fuel ev st); simpl;
    [reflexivity|discriminate].
Qed.

Lemma request_ids_count_up_witness :
  @reachable host plain one_pending
  /\ nextRequestId one_pending = 1
  /\ fst (request (js "model/list") None 30000 one_pending) = 1%nat
  /\ nextRequestId (snd (request (js "model/list") None 30000 one_pending)) = 2.
Proof.
  assert (R : @reachable host plain one_pending) by apply reachable_again.
  pose proof (@request_ids_count_up host plain one_pending (js "model/list")
                None 30000 R) as H.
  cbv zeta in H. destruct H as (H1 & _ & H3 & _ & H5 & _).
  split; [exact R|].
  split; [rewrite H1; vm_compute; reflexivity|].
  split; [rewrite H3; vm_compute; reflexivity|].
  rewrite H5. vm_compute. reflexivity.
Defined.

Lemma nothing_is_written_after_close_witness :
  @reachable host plain closed_down
  /\ closed closed_down = true
  /\ @run host plain 0 [list_request; Call (CallSend notification)] closed_down
     = Some (later plain 0 [list_request; Call (CallSend notification)] closed_down)
  /\ stdin (later plain 0 [list_request; Call (CallSend notification)] closed_down)
     = [].
Proof.
  assert (R : @reachable host plain closed_down) by apply reachable_again.
  assert (H1 : closed closed_down = true) by (vm_compute; reflexivity).
  assert (H2 : @run host plain 0 [list_request; Call (CallSend notification)]
                 closed_down
               = Some (later plain 0 [list_request; Call (CallSend notification)]
                         closed_down)).
  { apply run_later. vm_compute. reflexivity. }
  split; [exact R|]. split; [exact H1|]. split; [exact H2|].
  destruct (@nothing_is_written_after_close host plain 0 _ closed_down _ R H1 H2)
    as (H & _).
  rewrite H. vm_compute. reflexivity.
Defined.

Lemma close_returns_when_the_process_is_gone_witness :
  @reachable host plain wound_down
  /\ closed wound_down = true
  /\ closing wound_down = CloseReturned
  /\ pending wound_down = [].
Proof.
  assert (R : @reachable host plain wound_down) by apply reachable_again.
  assert (H1 : closed wound_down = true) by (vm_compute; reflexivity).
  destruct (@close_returns_when_the_process_is_gone host plain wound_down R H1)
    as (Hiff & Hempty & _).
  assert (Hc : closing wound_down = CloseReturned).
  { apply Hiff. split; vm_compute; reflexivity. }
  split; [exact R|]. split; [exact H1|]. split; [exact Hc|].
  exact (Hempty Hc).
Defined.

Lemma shutdown_completes_witness :
  @reachable host plain (create true)
  /\ @run host plain 0 a_request_then_shutdown (create true)
     = Some (after plain 0 a_request_then_shutdown)
  /\ closing (after plain 0 a_request_then_shutdown) = CloseReturned
  /\ pending (after plain 0 a_request_then_shutdown) = []
  /\ promise_state 0 (after plain 0 a_request_then_shutdown)
     = Some (Rejected (js "transport closed")).
Proof.
  assert (R : @reachable host plain (create true)) by apply reachable_create.
  assert (H1 : @run host plain 0 a_request_then_shutdown (create true)
               = Some (after plain 0 a_request_then_shutdown)).
  { apply run_again. vm_compute. reflexivity. }
  destruct (@shutdown_completes host plain 0 a_request_then_shutdown
              (create true) _ R H1) as (Hc & Hp & _).
  - unfold a_request_then_shutdown. cbn [In]. right. left. reflexivity.
  - left. unfold a_request_then_shutdown. cbn [In].
    right. right. left. reflexivity.
  - left. exists 0. unfold a_request_then_shutdown. cbn [In].
    right. right. right. left. reflexivity.
  - split; [exact R|]. split; [exact H1|]. split; [exact Hc|].
    split; [exact Hp|]. vm_compute. reflexivity.
Defined.

Lemma unsubscribed_callback_is_not_called_witness :
  @reachable host recruiting listening_2_3
  /\ @step host recruiting 0 (Call (CallOffMessage 2%nat)) listening_2_3
     = Some (next recruiting 0 (Call (CallOffMessage 2%nat)) listening_2_3)
  /\ @run host recruiting 3 [StdoutChunk (wire "{'method':'turn/started'}|")]
       (next recruiting 0 (Call (CallOffMessage 2%nat)) listening_2_3)
     = Some (later recruiting 3 [StdoutChunk (wire "{'method':'turn/started'}|")]
               (next recruiting 0 (Call (CallOffMessage 2%nat)) listening_2_3))
  /\ seen (later recruiting 3 [StdoutChunk (wire "{'method':'turn/started'}|")]
             (next recruiting 0 (Call (CallOffMessage 2%nat)) listening_2_3))
     = [GotMessage 3%nat notification]
  /\ exists ds,
       seen (later recruiting 3 [StdoutChunk (wire "{'method':'turn/started'}|")]
               (next recruiting 0 (Call (CallOffMessage 2%nat)) listening_2_3))
       = seen listening_2_3 ++ ds
       /\ forall m, ~ In (GotMessage 2%nat m) ds.
Proof.
  assert (R : @reachable host recruiting listening_2_3) by apply reachable_again.
  assert (H1 : @step host recruiting 0 (Call (CallOffMessage 2%nat)) listening_2_3
               = Some (next recruiting 0 (Call (CallOffMessage 2%nat))
                         listening_2_3)).
  { apply step_then. vm_compute. reflexivity. }
  assert (H2 : @run host recruiting 3
                 [StdoutChunk (wire "{'method':'turn/started'}|")]
                 (next recruiting 0 (Call (CallOffMessage 2%nat)) listening_2_3)
               = Some (later recruiting 3
                         [StdoutChunk (wire "{'method':'turn/started'}|")]
                         (next recruiting 0 (Call (CallOffMessage 2%nat))
                            listening_2_3))).
  { apply run_later. vm_compute. reflexivity. }
  assert (H3 : seen (later recruiting 3
                       [StdoutChunk (wire "{'method':'turn/started'}|")]
                       (next recruiting 0 (Call (CallOffMessage 2%nat))
                          listening_2_3))
               = [GotMessage 3%nat notification]) by (vm_compute; reflexivity).
  split; [exact R|]. split; [exact H1|]. split; [exact H2|]. split; [exact H3|].
  assert (Hev : Forall (event_leaves_out 2%nat)
                  [StdoutChunk (wire "{'method':'turn/started'}|")]).
  { constructor; [|constructor]. intros c Hc. discriminate. }
  assert (Hlog : @not_resubscribed recruiting 2%nat
                   (length (seen listening_2_3))
                   (seen (later recruiting 3
                            [StdoutChunk (wire "{'method':'turn/started'}|")]
                            (next recruiting 0 (Call (CallOffMessage 2%nat))
                               listening_2_3)))).
  { rewrite H3. intros before d rest Heq _.
    destruct before as [|x before]; simpl in Heq.
    - injection Heq as <- _. constructor.
    - injection Heq as _ Heq. destruct before; discriminate. }
  destruct (@unsubscribed_callback_is_not_called host recruiting 2%nat 0%nat 3%nat
              [StdoutChunk (wire "{'method':'turn/started'}|")]
              listening_2_3 _ _ R H1 Hev H2 Hlog) as (_ & ds & Hds & Hno).
  exists ds. split; [exact Hds|exact Hno].
Defined.

Lemma promise_is_settled_once_witness :
  @reachable host plain one_pending
  /\ nth_error (promises one_pending) 0
     = Some {| made_id := 0; made_method := js "thread/list"; settle_calls := [] |}
  /\ @run host plain 0 [TimerFired 0; StdoutChunk (wire "{'id':0,'result':1}|")]
       one_pending
     = Some (later plain 0
               [TimerFired 0; StdoutChunk (wire "{'id':0,'result':1}|")]
               one_pending)
  /\ exists c',
       nth_error
         (promises (later plain 0
                      [TimerFired 0; StdoutChunk (wire "{'id':0,'result':1}|")]
                      one_pending)) 0 = Some c'
       /\ made_id c' = 0.
Proof.
  assert (R : @reachable host plain one_pending) by apply reachable_again.
  assert (H1 : nth_error (promises one_pending) 0
               = Some {| made_id := 0; made_method := js "thread/list";
                         settle_calls := [] |}) by (vm_compute; reflexivity).
  assert (H2 : @run host plain 0
                 [TimerFired 0; StdoutChunk (wire "{'id':0,'result':1}|")]
                 one_pending
               = Some (later plain 0
                         [TimerFired 0; StdoutChunk (wire "{'id':0,'result':1}|")]
                         one_pending)).
  { apply run_later. vm_compute. reflexivity. }
  split; [exact R|]. split; [exact H1|]. split; [exact H2|].
  destruct (@promise_is_settled_once host plain one_pending 0%nat _ R H1)
    as (_ & Hlater).
  destruct (Hlater _ _ _ H2) as (c' & Hc & Hid & _).
  exists c'. split; [exact Hc|exact Hid].
Defined.

Lemma timers_follow_the_registry_witness :
  @reachable host plain one_pending
  /\ map_get 0 (pending one_pending) = Some {| settles := 0; timeout := 0 |}
  /\ promise_state 0 one_pending = None
  /\ exists tm, find_timer 0 (timers one_pending) = Some tm /\ tm_id tm = 0.
Proof.
  assert (R : @reachable host plain one_pending) by apply reachable_again.
  assert (H1 : map_get 0 (pending one_pending)
               = Some {| settles := 0; timeout := 0 |})
    by (vm_compute; reflexivity).
  destruct (@timers_follow_the_registry host plain one_pending R) as (Hp & _).
  destruct (Hp _ _ H1) as (Hs & tm & Htm & _ & Hid).
  split; [exact R|]. split; [exact H1|]. split; [exact Hs|].
  exists tm. split; [exact Htm|exact Hid].
Defined.

Lemma handled_lines_are_trimmed_witness :
  readLoop (@create host true) = Reading decoder_init []
  /\ Forall proper_unit
       (fst (feed (decoder_init, [])
               (wire " {'method':'a'} |||{'method':'b'}|{'met"))).
Proof.
  assert (H : readLoop (@create host true) = Reading decoder_init [])
    by reflexivity.
  split; [exact H|].
  pose proof (@handled_lines_are_trimmed host plain 0 (create true)
                decoder_init [] (wire " {'method':'a'} |||{'method':'b'}|{'met") H)
    as K.
  cbv zeta in K. destruct K as (_ & K & _). exact K.
Defined.

Lemma primitive_line_ends_the_read_loop_witness :
  @reachable host plain (create true)
  /\ closed (@create host true) = false
  /\ readLoop (@create host true) = Reading decoder_init []
  /\ fst (feed (decoder_init, []) (wire "42|{'method':'a'}|"))
     = [js "42"; text "{'method':'a'}"]
  /\ JSON_parse (js "42") = Some (JNum (42 # 1))
  /\ exists e,
       @step host plain 0 (StdoutChunk (wire "42|{'method':'a'}|")) (create true)
       = Some (with_readLoop (ReadRejected e) (create true)).
Proof.
  assert (R : @reachable host plain (create true)) by apply reachable_create.
  assert (H1 : closed (@create host true) = false) by reflexivity.
  assert (H2 : readLoop (@create host true) = Reading decoder_init [])
    by reflexivity.
  assert (H3 : fst (feed (decoder_init, []) (wire "42|{'method':'a'}|"))
               = [js "42"; text "{'method':'a'}"]) by (vm_compute; reflexivity).
  assert (H4 : JSON_parse (js "42") = Some (JNum (42 # 1)))
    by (vm_compute; reflexivity).
  repeat (split; [assumption|]).
  destruct (@primitive_line_ends_the_read_loop host plain 0 (create true)
              decoder_init [] (wire "42|{'method':'a'}|") (js "42")
              [text "{'method':'a'}"] (JNum (42 # 1)) R H1 H2 H3 H4 eq_refl)
    as (e & _ & He).
  exists e. exact He.
Defined.

Lemma exit_failure_rejects_pending_witness :
  @reachable host plain one_pending
  /\ exited one_pending = false
  /\ @step host plain 0 (ProcessExitFailed (OtherValue (Some (JStr (js "gone")))))
       one_pending
     = Some (next plain 0 (ProcessExitFailed (OtherValue (Some (JStr (js "gone")))))
               one_pending)
  /\ promise_state 0
       (next plain 0 (ProcessExitFailed (OtherValue (Some (JStr (js "gone")))))
          one_pending)
     = Some (Rejected (js "gone")).
Proof.
  assert (R : @reachable host plain one_pending) by apply reachable_again.
  assert (H1 : exited one_pending = false) by (vm_compute; reflexivity).
  assert (H2 : @step host plain 0
                 (ProcessExitFailed (OtherValue (Some (JStr (js "gone")))))
                 one_pending
               = Some (next plain 0
                         (ProcessExitFailed (OtherValue (Some (JStr (js "gone")))))
                         one_pending)).
  { apply step_then. vm_compute. reflexivity. }
  repeat (split; [assumption|]).
  pose proof (@exit_failure_rejects_pending host plain one_pending 0 _ _ R H1 H2)
    as K.
  cbv zeta in K. destruct K as (_ & K & _).
  assert (Hn : toError (OtherValue (Some (JStr (js "gone")))) = inr (js "gone"))
    by (vm_compute; reflexivity).
  destruct (K _ Hn) as (_ & _ & K2).
  destruct (K2 0 {| settles := 0; timeout := 0 |}) as (c & _ & _ & _ & Hs & _).
  { vm_compute. left. reflexivity. }
  cbn [settles] in Hs. rewrite Hs. vm_compute. reflexivity.
Defined.

Lemma completion_is_not_lost_witness :
  Client.handleMessage turn_completed
  = inr (Some (Client.TurnCompleted
                 {| Client.tc_threadId := js "th";
                    Client.tc_turn :=
                      value "{'id':'turn-1','status':'completed','items':[]}" |}))
  /\ Client.extractTurn (Some turn_started)
     = Some (value "{'id':'turn-1','status':'inProgress','items':[]}")
  /\ Client.stage
       (Client.run [Client.Delivered turn_completed;
                    Client.StartTurnSettled (Fulfilled (Some turn_started))]
          (Client.start []))
     = Client.Completing (js "turn-1")
         (value "{'id':'turn-1','status':'completed','items':[]}")
  /\ Client.stage
       (Client.run [Client.StartTurnSettled (Fulfilled (Some turn_started));
                    Client.Delivered turn_completed]
          (Client.start []))
     = Client.Completing (js "turn-1")
         (value "{'id':'turn-1','status':'completed','items':[]}").
Proof.
  assert (H1 : Client.handleMessage turn_completed
               = inr (Some (Client.TurnCompleted
                              {| Client.tc_threadId := js "th";
                                 Client.tc_turn :=
                                   value "{'id':'turn-1','status':'completed','items':[]}" |})))
    by (vm_compute; reflexivity).
  assert (H2 : Client.extractTurn (Some turn_started)
               = Some (value "{'id':'turn-1','status':'inProgress','items':[]}"))
    by (vm_compute; reflexivity).
  repeat (split; [assumption|]).
  assert (H3 : Client.string_at "id"%string
                 (value "{'id':'turn-1','status':'completed','items':[]}")
               = js "turn-1") by (vm_compute; reflexivity).
  assert (H4 : Client.string_at "id"%string
                 (value "{'id':'turn-1','status':'inProgress','items':[]}")
               = js "turn-1") by (vm_compute; reflexivity).
  pose proof (@completion_is_not_lost host [] [] [] [] turn_completed _
                (Some turn_started) _ (js "turn-1") eq_refl
                (Forall_nil _) (Forall_nil _) (Forall_nil _) H1 H3 H2 H4) as K.
  cbv zeta in K. destruct K as (K1 & K2 & _).
  split; [exact K1|exact K2].
Defined.

Lemma wait_for_turn_times_out_witness :
  Client.stage
    (Client.run [Client.StartTurnSettled (Fulfilled (Some turn_started))]
       (Client.start []))
  = Client.Waiting (js "turn-1")
  /\ Client.stage
       (Client.run [Client.StartTurnSettled (Fulfilled (Some turn_started));
                    Client.WaitTimedOut; Client.Delivered turn_completed;
                    Client.Resumed]
          (Client.start []))
     = Client.Settled
         (Client.RejectedWith (js "Timed out waiting for turn completion: turn-1")).
Proof.
  assert (H1 : Client.stage
                 (Client.run
                    [Client.StartTurnSettled (Fulfilled (Some turn_started))]
                    (Client.start []))
               = Client.Waiting (js "turn-1")) by (vm_compute; reflexivity).
  split; [exact H1|].
  destruct (@wait_for_turn_times_out host []
              [Client.StartTurnSettled (Fulfilled (Some turn_started))]
              (js "turn-1")
              [Client.Delivered turn_completed; Client.Resumed] H1) as (K & _).
  exact K.
Defined.


Lemma results_that_are_no_objects_are_refused_witness :
  Client.isObject (Some JNull) = false
  /\ Client.extractThread (Some JNull) = None
  /\ Client.extractThreadList (Some JNull) = None
  /\ Client.startReviewResult (Some JNull) = JObj [].
Proof.
  assert (H : Client.isObject (Some JNull) = false) by reflexivity.
  split; [exact H|].
  destruct (@results_that_are_no_objects_are_refused (Some JNull) H)
    as (H1 & _ & H3 & _ & _ & _ & H7 & _).
  split; [exact H1|]. split; [exact H3|exact H7].
Defined.

Lemma response_settles_its_request_witness :
  @reachable host plain one_pending
  /\ as_integer (prop "id" good_response) = Some 0
  /\ map_get 0 (pending one_pending) = Some {| settles := 0; timeout := 0 |}
  /\ verdict good_response = inr (Fulfilled (Some (JObj [(js "data", JArr [])])))
  /\ resolvePending good_response one_pending
     = Returns (retire 0 0 0 (Fulfilled (Some (JObj [(js "data", JArr [])])))
                  one_pending)
  /\ promise_state 0
       (retire 0 0 0 (Fulfilled (Some (JObj [(js "data", JArr [])]))) one_pending)
     = Some (Fulfilled (Some (JObj [(js "data", JArr [])]))).
Proof.
  assert (R : @reachable host plain one_pending) by apply reachable_again.
  assert (H1 : as_integer (prop "id" good_response) = Some 0).
  { vm_compute. reflexivity. }
  assert (H2 : map_get 0 (pending one_pending)
               = Some {| settles := 0; timeout := 0 |}).
  { vm_compute. reflexivity. }
  assert (H3 : verdict good_response
               = inr (Fulfilled (Some (JObj [(js "data", JArr [])])))).
  { vm_compute. reflexivity. }
  repeat (split; [assumption|]).
  destruct (@response_settles_its_request host plain one_pending good_response
              0 _ R H1 H2) as (c & params & _ & _ & _ & _ & _ & _ & Hok & _).
  pose proof (Hok _ H3) as K. cbv zeta in K. cbn [settles timeout] in K.
  destruct K as (Hres & _ & Hstate & _).
  split; [exact Hres|exact Hstate].
Defined.

(** C1 as stated fails for a response whose error does not convert to a
    string: the request is forgotten with its promise unsettled, no
    callback is handed the response or the notification that follows it,
    the read loop has ended, and neither the timer nor a later response
    reaches the promise. *)
Lemma malformed_error_leaves_the_request_unsettled :
  map_get 0 (pending (after plain 4 [Call (CallOnMessage 1%nat); list_request]))
  = Some {| settles := 0; timeout := 0 |}
  /\ exists st,
       @run host plain 4 lost_request (create true) = Some st
       /\ promise_state 0 st = None
       /\ pending st = []
       /\ timers st = []
       /\ messageHandlers st = [Some 1%nat]
       /\ seen st = []
       /\ readLoop st = ReadRejected (ErrorObject conversion_error).
Proof.
  split; [vm_compute; reflexivity|].
  exists (after plain 4 lost_request).
  split; [apply run_again; vm_compute; reflexivity|].
  split; [vm_compute; reflexivity|].
  split; [vm_compute; reflexivity|].
  split; [vm_compute; reflexivity|].
  split; [vm_compute; reflexivity|].
  split; [vm_compute; reflexivity|].
  apply read_failure_rejected. vm_compute. reflexivity.
Qed.

Lemma unexpected_exit_rejects_pending_witness :
  @reachable host plain one_pending
  /\ closeInitiated one_pending = false
  /\ exited one_pending = false
  /\ @step host plain 0 (ProcessExited 1) one_pending
     = Some (next plain 0 (ProcessExited 1) one_pending)
  /\ promise_state 0 (next plain 0 (ProcessExited 1) one_pending)
     = Some (Rejected (js "codex app-server exited unexpectedly with code 1"))
  /\ pending (on_read_error (ErrorObject (js "read failed")) one_pending)
     = pending one_pending.
Proof.
  assert (R : @reachable host plain one_pending) by apply reachable_again.
  assert (H1 : closeInitiated one_pending = false) by (vm_compute; reflexivity).
  assert (H2 : exited one_pending = false) by (vm_compute; reflexivity).
  assert (Hs : @step host plain 0 (ProcessExited 1) one_pending
               = Some (next plain 0 (ProcessExited 1) one_pending)).
  { apply step_then. vm_compute. reflexivity. }
  repeat (split; [assumption|]).
  destruct (@unexpected_exit_rejects_pending host plain one_pending R H1)
    as (Hexit & Hread).
  pose proof (Hexit 0%nat 1 _ H2 Hs) as K. cbv zeta in K.
  destruct K as (_ & _ & Hall).
  destruct (Hall 0 {| settles := 0; timeout := 0 |}) as (c & _ & _ & _ & _ & H & _).
  { vm_compute. left. reflexivity. }
  split; [exact H|].
  pose proof (Hread 0%nat (ErrorObject (js "read failed"))) as K. cbv zeta in K.
  destruct K as (_ & _ & _ & _ & _ & Hp & _). exact Hp.
Defined.

Lemma unparsable_line_is_reported_witness :
  @reachable host plain error_listener
  /\ JSON_parse (js "not json") = None
  /\ returns (@emitError host plain 2 (parse_failure (js "not json"))
                error_listener) = true
  /\ returns (@handleLine host plain 2 (js "not json") error_listener) = true
  /\ readLoop
       (returned (@emitError host plain 2 (parse_failure (js "not json"))
                    error_listener) error_listener)
     = readLoop error_listener.
Proof.
  assert (R : @reachable host plain error_listener) by apply reachable_again.
  assert (H1 : JSON_parse (js "not json") = None) by (vm_compute; reflexivity).
  assert (H2 : returns (@emitError host plain 2 (parse_failure (js "not json"))
                          error_listener) = true) by (vm_compute; reflexivity).
  split; [exact R|]. split; [exact H1|]. split; [exact H2|].
  destruct (@unparsable_line_is_reported host plain 2 (js "not json")
              error_listener R H1) as (Hret & _).
  destruct (Hret _ (returns_returned _ error_listener H2))
    as (Hh & _ & Hr & _).
  split; [rewrite Hh; reflexivity|exact Hr].
Defined.

Lemma subscriptions_are_not_counted_witness :
  @reachable host plain listening_1
  /\ NoDup (live (messageHandlers listening_1))
  /\ count_occ Nat.eq_dec
       (live (messageHandlers (onMessage 1%nat (onMessage 1%nat listening_1))))
       1%nat = 1%nat.
Proof.
  assert (R : @reachable host plain listening_1) by apply reachable_again.
  destruct (@subscriptions_are_not_counted host plain 1%nat listening_1 R)
    as (H1 & _ & H3 & _).
  split; [exact R|]. split; [exact H1|exact H3].
Defined.

End MoreRuns.
